(** * deckshield-torneos: the tournament proxy, embedded and verified

    The repository is a set of serverless JavaScript endpoints behind a
    Shopify App Proxy.  They keep "tournament" rows in a Supabase table; a
    row carries a [rounds] array (three game slots per round) and a derived
    [score].

    The development follows the sources:
    - [JS]       the fragment of JavaScript the handlers rely on: values,
                 numbers, [String], [Number], truthiness, [===], property
                 reads and writes, spread;
    - [Helpers]  [toIntOrNull] and the three normalizers (the same text in
                 both proxies that edit rounds);
    - [Score]    [computeScore] and [sanitizeRounds];
    - [Supabase] the table, the four query shapes the handlers issue, and
                 the monad the handlers run in;
    - [Auth]     [verifyShopifyProxy], the same text in every endpoint;
    - [Scored]   the proxy that scores: [persistRounds] and its actions
                 (src/unnamed/part_002);
    - [Meta]     the proxy of src/api/proxy.js;
    - [Listing]  src/api/tournaments.js;
    - [Whoami]   the first handler of src/unnamed/part_003;
    - [Early]    the two first proxies (src/unnamed/part_001);
    - [Rounds]   the proxy with [saveRounds] and the validating
                 [updateRound] (src/unnamed/part_003);
    - [Spec]     the vocabulary of the specification. *)

From Stdlib Require Import ZArith List String Ascii Bool Lia QArith Lqa.
From Stdlib Require Import DecimalString Permutation.
From Stdlib Require DecimalN.
Import ListNotations.

Local Open Scope string_scope.
Local Open Scope Z_scope.

(* ================================================================== *)
(** * The JavaScript fragment                                          *)
(* ================================================================== *)

Module JS.

(** ** Strings

    Strings are ASCII strings: [toUpperCase] maps [a-z] to [A-Z], and the
    white space [Number] trims is the ASCII white space. *)

Definition code (c : ascii) : Z := Z.of_nat (nat_of_ascii c).

Definition between (lo hi : Z) (c : ascii) : bool :=
  (lo <=? code c) && (code c <=? hi).

Definition upper_char (c : ascii) : ascii :=
  if between 97 122 c then ascii_of_nat (nat_of_ascii c - 32) else c.

Fixpoint toUpperCase (s : string) : string :=
  match s with
  | EmptyString => EmptyString
  | String c s' => String (upper_char c) (toUpperCase s')
  end.

Fixpoint join (sep : string) (l : list string) : string :=
  match l with
  | [] => ""
  | [x] => x
  | x :: rest => x ++ sep ++ join sep rest
  end.

Fixpoint repeat_char (c : ascii) (n : nat) : string :=
  match n with
  | O => ""
  | S n' => String c (repeat_char c n')
  end.

Fixpoint str_rev_onto (s acc : string) : string :=
  match s with
  | EmptyString => acc
  | String c s' => str_rev_onto s' (String c acc)
  end.

Definition str_rev (s : string) : string := str_rev_onto s "".

Definition str_take (n : nat) (s : string) : string := substring 0 n s.
Definition str_drop (n : nat) (s : string) : string :=
  substring n (String.length s - n) s.

(** Code-unit order, as [Array.prototype.sort] without a comparator uses. *)
Fixpoint str_leb (a b : string) : bool :=
  match a, b with
  | EmptyString, _ => true
  | String _ _, EmptyString => false
  | String x a', String y b' =>
      if code x <? code y then true
      else if code y <? code x then false
      else str_leb a' b'
  end.

(** ** Numbers

    A finite number is an exact decimal [m * 10^e]; [NaN] and the two
    infinities are separate.  Binary64 rounding is not modelled: results
    about arithmetic hold where doubles are exact (integers of magnitude
    below 2^53, which round numbers and deck identifiers are). *)

Inductive number : Type :=
| NaN
| Inf (negative : bool)
| Fin (m e : Z).

Definition num_of_Z (z : Z) : number := Fin z 0.

Definition isFinite (n : number) : bool :=
  match n with Fin _ _ => true | _ => false end.

(** The rational a finite decimal denotes. *)
Definition dec_Q (m e : Z) : Q :=
  if 0 <=? e then inject_Z (m * 10 ^ e)
  else Qmake m (Z.to_pos (10 ^ (- e))).

Definition is_zero (n : number) : bool :=
  match n with Fin m _ => m =? 0 | _ => false end.

(** [x === y] on numbers: [NaN] equals nothing. *)
Definition num_eqb (x y : number) : bool :=
  match x, y with
  | Fin m e, Fin m' e' => Qeq_bool (dec_Q m e) (dec_Q m' e')
  | Inf s, Inf s' => Bool.eqb s s'
  | _, _ => false
  end.

(** [x <= y] on numbers that are not [NaN]. *)
Definition num_leb (x y : number) : bool :=
  match x, y with
  | Fin m e, Fin m' e' => Qle_bool (dec_Q m e) (dec_Q m' e')
  | Inf true, (Fin _ _ | Inf _) => true
  | (Fin _ _ | Inf _), Inf false => true
  | _, _ => false
  end.

(** [Math.max(x, y)]. *)
Definition Math_max (x y : number) : number :=
  match x, y with
  | NaN, _ | _, NaN => NaN
  | _, _ => if num_leb x y then y else x
  end.

(** [x + 1]. *)
Definition num_succ (x : number) : number :=
  match x with
  | Fin m e => if 0 <=? e then Fin (m * 10 ^ e + 1) 0
               else Fin (m + 10 ^ (- e)) e
  | other => other
  end.

Definition is_integer (n : number) : bool :=
  match n with
  | Fin m e => (0 <=? e) || (m mod 10 ^ (- e) =? 0)
  | _ => false
  end.

(** ** [Number(string)]: the StringNumericLiteral grammar *)

Definition is_ws (c : ascii) : bool :=
  between 9 13 c || (code c =? 32).

Fixpoint trim_start (s : string) : string :=
  match s with
  | String c s' => if is_ws c then trim_start s' else s
  | EmptyString => s
  end.

Definition trim (s : string) : string :=
  str_rev (trim_start (str_rev (trim_start s))).

Definition digit_val (base : Z) (c : ascii) : option Z :=
  let v := if between 48 57 c then code c - 48
           else if between 97 122 c then code c - 87
           else if between 65 90 c then code c - 55
           else base in
  if v <? base then Some v else None.

(** The longest run of digits at the head of [s]: the value it adds to
    [acc], how many digits were read, and what follows. *)
Fixpoint digits (base : Z) (s : string) (acc : Z) (n : nat)
  : Z * nat * string :=
  match s with
  | String c s' =>
      match digit_val base c with
      | Some d => digits base s' (acc * base + d) (S n)
      | None => (acc, n, s)
      end
  | EmptyString => (acc, n, s)
  end.

(** A run of digits that must end the string. *)
Definition all_digits (base : Z) (s : string) : option Z :=
  match digits base s 0 0 with
  | (v, S _, EmptyString) => Some v
  | _ => None
  end.

(** ExponentPart, optional, up to the end of the string. *)
Definition exponent (s : string) : option Z :=
  match s with
  | EmptyString => Some 0
  | String c r =>
      if (code c =? 101) || (code c =? 69) then
        match r with
        | String "+" r' => all_digits 10 r'
        | String "-" r' => option_map Z.opp (all_digits 10 r')
        | _ => all_digits 10 r
        end
      else None
  end.

Definition unsigned_decimal (s : string) : number :=
  if String.eqb s "Infinity" then Inf false else
  let '(ip, n1, r1) := digits 10 s 0 0 in
  let '(m, n2, r2) :=
    match r1 with
    | String "." r => digits 10 r ip 0
    | _ => (ip, O, r1)
    end in
  if (n1 + n2 =? 0)%nat then NaN else
  match exponent r2 with
  | Some x => Fin m (x - Z.of_nat n2)
  | None => NaN
  end.

Definition num_neg (x : number) : number :=
  match x with
  | NaN => NaN
  | Inf s => Inf (negb s)
  | Fin m e => Fin (- m) e
  end.

Definition radix_literal (s : string) : option number :=
  match s with
  | String "0" (String p r) =>
      let lit base := Some match all_digits base r with
                           | Some v => Fin v 0
                           | None => NaN
                           end in
      if (code p =? 120) || (code p =? 88) then lit 16
      else if (code p =? 111) || (code p =? 79) then lit 8
      else if (code p =? 98) || (code p =? 66) then lit 2
      else None
  | _ => None
  end.

Definition StringToNumber (s : string) : number :=
  let t := trim s in
  match t with
  | EmptyString => Fin 0 0
  | String "+" r => unsigned_decimal r
  | String "-" r => num_neg (unsigned_decimal r)
  | _ => match radix_literal t with
         | Some n => n
         | None => unsigned_decimal t
         end
  end.

(** ** [String(number)]: Number::toString, radix 10 *)

Definition Z_digits (z : Z) : string :=
  NilZero.string_of_uint (N.to_uint (Z.to_N z)).

Fixpoint drop_zeros (s : string) : string :=
  match s with
  | String "0" s' => drop_zeros s'
  | _ => s
  end.

Definition num_to_string (x : number) : string :=
  match x with
  | NaN => "NaN"
  | Inf false => "Infinity"
  | Inf true => "-Infinity"
  | Fin m e =>
      if m =? 0 then "0" else
      let all := Z_digits (Z.abs m) in
      let s := str_rev (drop_zeros (str_rev all)) in
      let k := Z.of_nat (String.length s) in
      let n := Z.of_nat (String.length all) + e in
      let body :=
        if (k <=? n) && (n <=? 21) then
          s ++ repeat_char "0" (Z.to_nat (n - k))
        else if (0 <? n) && (n <=? 21) then
          str_take (Z.to_nat n) s ++ "." ++ str_drop (Z.to_nat n) s
        else if (-6 <? n) && (n <=? 0) then
          "0." ++ repeat_char "0" (Z.to_nat (- n)) ++ s
        else
          let ex := (if n - 1 <? 0 then "-" else "+") ++ Z_digits (Z.abs (n - 1)) in
          if k =? 1 then s ++ "e" ++ ex
          else str_take 1 s ++ "." ++ str_drop 1 s ++ "e" ++ ex in
      (if m <? 0 then "-" else "") ++ body
  end.

(** ** Values

    Objects are association lists in insertion order; a key is bound by
    its first entry.  What the store returns is JSON, so an instance has
    no accessors and no prototype of its own. *)

#[warnings="-register-all"]
Inductive value : Type :=
| VUndef
| VNull
| VBool (b : bool)
| VNum (n : number)
| VStr (s : string)
| VArr (xs : list value)
| VObj (ps : list (string * value)).

Definition props : Type := list (string * value).

Definition VInt (z : Z) : value := VNum (num_of_Z z).

(** Truthiness, as [if (v)], [!v], [a || b] test it. *)
Definition truthy (v : value) : bool :=
  match v with
  | VUndef | VNull => false
  | VBool b => b
  | VNum NaN => false
  | VNum n => negb (is_zero n)
  | VStr s => negb (String.eqb s "")
  | VArr _ | VObj _ => true
  end.

(** [a || b] and [a ?? b]. *)
Definition or_else (a b : value) : value := if truthy a then a else b.

Definition nullish (v : value) : bool :=
  match v with VUndef | VNull => true | _ => false end.

Definition coalesce (a b : value) : value := if nullish a then b else a.

Definition isArray (v : value) : bool :=
  match v with VArr _ => true | _ => false end.

(** [Array.isArray(v) ? v : []], as an iterable list. *)
Definition elements (v : value) : list value :=
  match v with VArr xs => xs | _ => [] end.

(** [String(v)]. *)
Fixpoint ToString (v : value) : string :=
  match v with
  | VUndef => "undefined"
  | VNull => "null"
  | VBool true => "true"
  | VBool false => "false"
  | VNum n => num_to_string n
  | VStr s => s
  | VArr xs =>
      join ","
        ((fix each (l : list value) : list string :=
            match l with
            | [] => []
            | x :: l' => (if nullish x then "" else ToString x) :: each l'
            end) xs)
  | VObj _ => "[object Object]"
  end.

(** [Number(v)]. *)
Definition ToNumber (v : value) : number :=
  match v with
  | VUndef => NaN
  | VNull => Fin 0 0
  | VBool true => Fin 1 0
  | VBool false => Fin 0 0
  | VNum n => n
  | VStr s => StringToNumber s
  | VArr _ => StringToNumber (ToString v)
  | VObj _ => NaN
  end.

(** [a === b].  Arrays and objects compare by identity; the handlers only
    compare against literals and numbers, and a literal is never identical
    to a value built elsewhere. *)
Definition strict_eq (a b : value) : bool :=
  match a, b with
  | VUndef, VUndef | VNull, VNull => true
  | VBool x, VBool y => Bool.eqb x y
  | VNum x, VNum y => num_eqb x y
  | VStr x, VStr y => String.eqb x y
  | _, _ => false
  end.

(** ** Properties *)

Fixpoint lookup (k : string) (ps : props) : option value :=
  match ps with
  | [] => None
  | (k', v) :: rest => if String.eqb k k' then Some v else lookup k rest
  end.

(** [o[k] = v] on the entries of an object: overwrite where the key is
    bound, append otherwise. *)
Fixpoint put (k : string) (v : value) (ps : props) : props :=
  match ps with
  | [] => [(k, v)]
  | (k', v') :: rest =>
      if String.eqb k k' then (k, v) :: rest else (k', v') :: put k v rest
  end.

(** [v.k] for a named data property [k] (none of the names the handlers
    read is an index, [length], or a member of a built-in prototype).
    Reading from [undefined] or [null] throws; [get] is the read behind
    [v?.k], and [get_strict] is the read behind [v.k]. *)
Definition get (v : value) (k : string) : value :=
  match v with
  | VObj ps => match lookup k ps with Some x => x | None => VUndef end
  | _ => VUndef
  end.

Definition get_strict (v : value) (k : string) : option value :=
  if nullish v then None else Some (get v k).

(** [o.k = x] in a module (strict mode): a [TypeError] on [undefined],
    [null] and on primitives.  A named property set on an array instance
    is not part of its JSON form and is never read back by the handlers,
    so the array is returned as it is. *)
Definition set (o : value) (k : string) (x : value) : option value :=
  match o with
  | VObj ps => Some (VObj (put k x ps))
  | VArr xs => Some (VArr xs)
  | _ => None
  end.

Fixpoint index_keys (i : nat) (xs : list value) : props :=
  match xs with
  | [] => []
  | x :: rest => (Z_digits (Z.of_nat i), x) :: index_keys (S i) rest
  end.

Fixpoint chars (s : string) : list value :=
  match s with
  | EmptyString => []
  | String c s' => VStr (String c "") :: chars s'
  end.

(** The entries of [{ ...v }]. *)
Definition spread (v : value) : props :=
  match v with
  | VObj ps => ps
  | VArr xs => index_keys 0 xs
  | VStr s => index_keys 0 (chars s)
  | _ => []
  end.

(** [xs[i] = x] for an index inside the array. *)
Fixpoint set_nth (i : nat) (x : value) (xs : list value) : list value :=
  match xs, i with
  | [], _ => []
  | _ :: rest, O => x :: rest
  | y :: rest, S i' => y :: set_nth i' x rest
  end.

(** [xs.findIndex(p)], [None] for [-1]. *)
Fixpoint findIndex (p : value -> bool) (xs : list value) : option nat :=
  match xs with
  | [] => None
  | x :: rest => if p x then Some O else option_map S (findIndex p rest)
  end.

End JS.

Import JS.

(* ================================================================== *)
(** * Helpers shared by the two round-editing proxies                   *)
(* ================================================================== *)

Module Helpers.

(** [toIntOrNull(v)] *)
Definition toIntOrNull (v : value) : value :=
  if strict_eq v VUndef || strict_eq v VNull || strict_eq v (VStr "")
  then VNull
  else
    let n := ToNumber v in
    if isFinite n then VNum n else VNull.

(** The three normalizers differ in their enumeration only. *)
Definition normalizeEnum (enum : list string) (v : value) : value :=
  if strict_eq v VUndef then VUndef
  else if strict_eq v VNull || strict_eq v (VStr "") || strict_eq v (VStr "null")
  then VNull
  else
    let up := toUpperCase (ToString v) in
    if existsb (String.eqb up) enum then VStr up else VUndef.

Definition results : list string := ["W"; "L"; "T"].
Definition turns : list string := ["FIRST"; "SECOND"].
Definition specials : list string := ["ID"; "NO_SHOW"; "BYE"].

Definition normalizeResult : value -> value := normalizeEnum results.
Definition normalizeTurn : value -> value := normalizeEnum turns.
Definition normalizeSpecial : value -> value := normalizeEnum specials.

(** The literals both proxies build. *)
Definition game_slot (i : Z) : value :=
  VObj [("game", VInt i); ("result", VNull); ("turn", VNull)].

Definition placeholder_games : value :=
  VArr [game_slot 1; game_slot 2; game_slot 3].

Definition empty_deck : value := VObj [("p1", VNull); ("p2", VNull)].

Definition new_round (round_number : value) : value :=
  VObj [("round_number", round_number);
        ("opponent_deck", empty_deck);
        ("games", placeholder_games);
        ("special", VNull)].

End Helpers.

Import Helpers.

(* ================================================================== *)
(** * Score and sanitize (src/unnamed/part_002)                         *)
(* ================================================================== *)

Module Score.

Record tally : Type := Tally { wins : nat; losses : nat; ties : nat }.

(** The inner loop of [computeScore]: [w], [l] and [hasAny]. *)
Definition count_game (acc : nat * nat * bool) (g : value) : nat * nat * bool :=
  let '(w, l, hasAny) := acc in
  let result := get g "result" in
  if negb (truthy result) then acc
  else
    let w := if strict_eq result (VStr "W") then S w else w in
    let l := if strict_eq result (VStr "L") then S l else l in
    (w, l, true).

(** One iteration of the outer loop. *)
Definition score_round (t : tally) (r : value) : tally :=
  let special := coalesce (get r "special") VNull in
  if strict_eq special (VStr "BYE") || strict_eq special (VStr "NO_SHOW")
  then Tally (S (wins t)) (losses t) (ties t)
  else if strict_eq special (VStr "ID")
  then Tally (wins t) (losses t) (S (ties t))
  else
    let games := elements (get r "games") in
    let '(w, l, hasAny) := fold_left count_game games (O, O, false) in
    if negb hasAny then t
    else if (l <? w)%nat then Tally (S (wins t)) (losses t) (ties t)
    else if (w <? l)%nat then Tally (wins t) (S (losses t)) (ties t)
    else Tally (wins t) (losses t) (S (ties t)).

Definition count (n : nat) : value := VInt (Z.of_nat n).

Definition score_object (t : tally) : value :=
  VObj [("wins", count (wins t));
        ("losses", count (losses t));
        ("ties", count (ties t));
        ("text", VStr (ToString (count (wins t)) ++ "-" ++
                       ToString (count (losses t)) ++ "-" ++
                       ToString (count (ties t))))].

Definition computeScore (rounds : value) : value :=
  score_object (fold_left score_round (elements rounds) (Tally 0 0 0)).

Definition is_special (v : value) : bool :=
  strict_eq v (VStr "BYE") || strict_eq v (VStr "NO_SHOW")
  || strict_eq v (VStr "ID").

(** The callback of [safeRounds.map] in [sanitizeRounds]. *)
Definition sanitizeRound (r : value) : value :=
  let round := spread r in
  let round :=
    put "opponent_deck"
        (or_else (get (VObj round) "opponent_deck") empty_deck) round in
  if is_special (get (VObj round) "special")
  then VObj (put "games" placeholder_games round)
  else VObj round.

Definition sanitizeRounds (rounds : value) : value :=
  VArr (map sanitizeRound (elements rounds)).

End Score.

Import Score.

(* ================================================================== *)
(** * The durable store, as the handlers use it                         *)
(* ================================================================== *)

Module Supabase.

(** The [tournaments] table, the next identifier the store assigns, and
    an oracle telling, for each coming call, whether it fails in
    transport.  The store returns a row as it was written: the JSON
    transport, which drops a property whose value is [undefined], is not
    modelled, and a read through [get] does not tell a dropped property
    from one bound to [undefined]. *)
Record db : Type := Db {
  rows : list value;
  next_id : Z;
  outages : list bool
}.

(** [{ data, error }]: exactly one of the two is set. *)
Inductive reply : Type :=
| Data (data : value)
| Error (message : string).

(** [.eq(column, v)]: the store compares the column with the text of [v],
    as the filter travels in the request. *)
Definition eq_filter (row : value) (f : string * value) : bool :=
  String.eqb (ToString (get row (fst f))) (ToString (snd f)).

Definition matches (filters : list (string * value)) (row : value) : bool :=
  forallb (eq_filter row) filters.

(** [Object.assign(row, fields)] *)
Definition assign (fields : props) (row : value) : value :=
  VObj (fold_left (fun ps f => put (fst f) (snd f) ps) fields (spread row)).

Fixpoint insert_desc (col : string) (r : value) (l : list value) : list value :=
  match l with
  | [] => [r]
  | x :: rest =>
      if str_leb (ToString (get x col)) (ToString (get r col))
      then r :: l
      else x :: insert_desc col r rest
  end.

(** [.order(col, { ascending: false })] *)
Definition order_desc (col : string) (l : list value) : list value :=
  fold_right (insert_desc col) [] l.

(** One call leaves the client: the oracle says whether it arrives. *)
Definition transport (d : db) : bool * db :=
  match outages d with
  | [] => (true, d)
  | down :: rest => (negb down, Db (rows d) (next_id d) rest)
  end.

Definition unavailable : reply := Error "service unavailable".

(** [.select("*").eq(..).eq(..).single()] *)
Definition select_single (filters : list (string * value)) (d : db)
  : reply * db :=
  let '(up, d) := transport d in
  if negb up then (unavailable, d)
  else match filter (matches filters) (rows d) with
       | [row] => (Data row, d)
       | _ => (Error "JSON object requested, multiple (or no) rows returned", d)
       end.

(** [.select("*").eq(..).order(col, { ascending: false })] *)
Definition select_ordered (filters : list (string * value)) (col : string)
  (d : db) : reply * db :=
  let '(up, d) := transport d in
  if negb up then (unavailable, d)
  else (Data (VArr (order_desc col (filter (matches filters) (rows d)))), d).

(** [.insert([payload]).select("*").single()]: the store assigns [id]. *)
Definition insert_single (payload : props) (d : db) : reply * db :=
  let '(up, d) := transport d in
  if negb up then (unavailable, d)
  else
    let row := VObj (("id", VInt (next_id d)) :: payload) in
    (Data row, Db (rows d ++ [row])%list (next_id d + 1) (outages d)).

(** [.update(fields).eq(..).eq(..).select("*").single()]: a request for a
    single object that does not match exactly one row changes nothing. *)
Definition update_single (fields : props) (filters : list (string * value))
  (d : db) : reply * db :=
  let '(up, d) := transport d in
  if negb up then (unavailable, d)
  else match filter (matches filters) (rows d) with
       | [row] =>
           (Data (assign fields row),
            Db (map (fun r => if matches filters r then assign fields r else r)
                    (rows d))
               (next_id d) (outages d))
       | _ => (Error "JSON object requested, multiple (or no) rows returned", d)
       end.

(** ** Handlers run against the store and may throw *)

Inductive outcome (A : Type) : Type :=
| Returned (a : A)
| Thrown (message : string).
Arguments Returned {A} a.
Arguments Thrown {A} message.

Definition M (A : Type) : Type := db -> outcome A * db.

Definition ret {A} (a : A) : M A := fun d => (Returned a, d).
Definition throw {A} (message : string) : M A := fun d => (Thrown message, d).

Definition bind {A B} (m : M A) (k : A -> M B) : M B :=
  fun d => match m d with
           | (Returned a, d') => k a d'
           | (Thrown e, d') => (Thrown e, d')
           end.

(** [await] on a query. *)
Definition await (q : db -> reply * db) : M reply :=
  fun d => let '(r, d') := q d in (Returned r, d').

(** A step that throws a [TypeError] when it has no result. *)
Definition orTypeError {A} (o : option A) : M A :=
  match o with
  | Some a => ret a
  | None => throw "TypeError"
  end.

(** [try { m } catch (err) { h(err.message) }] *)
Definition try_catch {A} (m : M A) (h : string -> M A) : M A :=
  fun d => match m d with
           | (Thrown e, d') => h e d'
           | r => r
           end.

End Supabase.

Import Supabase.

Declare Scope js_scope.
Delimit Scope js_scope with js.
Notation "x <- m ;; k" := (bind m (fun x => k))
  (at level 100, m at next level, right associativity) : js_scope.
Notation "'return_' v" := (ret v) (at level 10) : js_scope.

(** [{ ok: false, error }] and [{ ok: true, tournament }] *)
Definition failure (error : string) : value :=
  VObj [("ok", VBool false); ("error", VStr error)].

Definition failure_details (error details : string) : value :=
  VObj [("ok", VBool false); ("error", VStr error); ("details", VStr details)].

Definition success (tournament : value) : value :=
  VObj [("ok", VBool true); ("tournament", tournament)].

Definition owned (customerId id : value) : list (string * value) :=
  [("id", id); ("customer_id", customerId)].

(* ================================================================== *)
(** * Requests, responses and the App Proxy signature                   *)
(* ================================================================== *)

Record request : Type := Request {
  method : string;
  query : props
}.

Record response : Type := Response {
  status : Z;
  body : value
}.

(** [res.status(s).json(b)]; [res.json(b)] answers with status 200. *)
Definition json (s : Z) (b : value) : M response := ret (Response s b).

Definition invalid_signature : value := failure "Invalid Shopify signature".

Definition not_logged_in : value :=
  VObj [("ok", VBool true); ("logged_in", VBool false)].

Definition is_case (action : value) (name : string) : bool :=
  strict_eq action (VStr name).

Module Auth.
Section Verify.

(** [crypto.createHmac("sha256", key).update(message).digest("hex")] and
    [SHOPIFY_APP_PROXY_SECRET] where the environment sets it; the
    environment that does not is [verifyShopifyProxy_env] below. *)
Variable hmac_sha256_hex : string -> string -> string.
Variable secret : string.

(** [Object.keys]: each bound key once. *)
Fixpoint keys_unseen (seen : list string) (ps : props) : list string :=
  match ps with
  | [] => []
  | (k, _) :: rest =>
      if existsb (String.eqb k) seen then keys_unseen seen rest
      else k :: keys_unseen (k :: seen) rest
  end.

Definition keys (ps : props) : list string := keys_unseen [] ps.

Fixpoint insert_sorted (k : string) (l : list string) : list string :=
  match l with
  | [] => [k]
  | x :: rest => if str_leb k x then k :: l else x :: insert_sorted k rest
  end.

(** [.sort()] *)
Definition sort (l : list string) : list string :=
  fold_right insert_sorted [] l.

Definition verifyShopifyProxy (query : props) : bool :=
  let signature := get (VObj query) "signature" in
  let rest := filter (fun p => negb (String.eqb (fst p) "signature")) query in
  if negb (truthy signature) then false
  else
    let message :=
      join "" (map (fun key => key ++ "=" ++ ToString (get (VObj rest) key))
                   (sort (keys rest))) in
    let generatedSignature := hmac_sha256_hex secret message in
    strict_eq (VStr generatedSignature) signature.

(** [crypto.createHmac("sha256", key)] with [key] read from
    [process.env]: a key that is [undefined] is a [TypeError]. *)
Definition createHmac_hex (key : option string) (message : string) : M string :=
  match key with
  | Some k => ret (hmac_sha256_hex k message)
  | None => throw "TypeError"
  end.

(** [verifyShopifyProxy] where [SHOPIFY_APP_PROXY_SECRET] may be unset:
    the key is read after the test of [signature]. *)
Definition verifyShopifyProxy_env (key : option string) (query : props)
  : M bool :=
  let signature := get (VObj query) "signature" in
  let rest := filter (fun p => negb (String.eqb (fst p) "signature")) query in
  if negb (truthy signature) then ret false
  else
    let message :=
      join "" (map (fun key => key ++ "=" ++ ToString (get (VObj rest) key))
                   (sort (keys rest))) in
    bind (createHmac_hex key message)
         (fun generatedSignature =>
            ret (strict_eq (VStr generatedSignature) signature)).

End Verify.
End Auth.

(* ================================================================== *)
(** * The scoring proxy (src/unnamed/part_002)                          *)
(* ================================================================== *)

Module Scored.
Local Open Scope js_scope.

Definition getTournamentOwned (customerId id : value) : M value :=
  r <- await (select_single (owned customerId id)) ;;
  match r with
  | Error _ => ret (failure "Tournament not found")
  | Data data => ret (success data)
  end.

Definition persistRounds (customerId id rounds : value) : M value :=
  let clean := sanitizeRounds rounds in
  let score := computeScore clean in
  r <- await (update_single [("rounds", clean); ("score", score)]
                            (owned customerId id)) ;;
  match r with
  | Error _ => ret (failure "Failed to save rounds")
  | Data data => ret (success data)
  end.

Definition listTournaments (customerId : value) : M value :=
  r <- await (select_ordered [("customer_id", customerId)] "tournament_date") ;;
  match r with
  | Data data => ret (coalesce data (VArr []))
  | Error _ => ret (VArr [])
  end.

Definition createTournament (customerId q : value) : M value :=
  if negb (truthy (get q "tournament_name"))
     || negb (truthy (get q "tournament_date"))
  then ret (failure "Missing required fields")
  else
    r <- await (insert_single
                  [("customer_id", customerId);
                   ("tournament_name", get q "tournament_name");
                   ("tournament_date", get q "tournament_date");
                   ("format", coalesce (get q "format") VNull);
                   ("tournament_type", coalesce (get q "tournament_type") VNull);
                   ("result", coalesce (get q "result") (VStr "SinTop"));
                   ("rounds", VArr []);
                   ("score", computeScore (VArr []))]) ;;
    match r with
    | Error _ => ret (failure "Insert failed")
    | Data data => ret (success data)
    end.

(** [rounds.length + 1] *)
Definition nextNumber (rounds : list value) : value :=
  VInt (Z.of_nat (List.length rounds) + 1).

Definition addRound (customerId id : value) : M value :=
  got <- getTournamentOwned customerId id ;;
  if negb (truthy (get got "ok")) then ret got
  else
    stored <- orTypeError (get_strict (get got "tournament") "rounds") ;;
    match or_else stored (VArr []) with
    | VArr rounds =>
        persistRounds customerId id
          (VArr (rounds ++ [new_round (nextNumber rounds)])%list)
    | _ => throw "TypeError"   (* no [push] on what is not an array *)
    end.

(** [rounds.findIndex(r => r.round_number === rn)]: the callback throws on
    an element that is [null] or [undefined]. *)
Fixpoint findRound (rn : value) (rounds : list value) : option (option nat) :=
  match rounds with
  | [] => Some None
  | r :: rest =>
      match get_strict r "round_number" with
      | None => None
      | Some n =>
          if strict_eq n rn then Some (Some O)
          else option_map (option_map S) (findRound rn rest)
      end
  end.

(** [r.opponent_deck[k] = x] *)
Definition set_deck (r : value) (k : string) (x : value) : option value :=
  match set (get r "opponent_deck") k x with
  | Some deck => set r "opponent_deck" deck
  | None => None
  end.

(** [games[0]] and the write through it. *)
Definition first_game (games : value) : value :=
  match games with
  | VArr xs => nth 0 xs VUndef
  | VObj _ => get games "0"
  | VStr (String c _) => VStr (String c "")
  | _ => VUndef
  end.

(** [r.games[0].result = x] *)
Definition set_first_result (r x : value) : option value :=
  let games := get r "games" in
  if nullish games then None
  else match set (first_game games) "result" x with
       | None => None
       | Some g =>
           match games with
           | VArr xs => set r "games" (VArr (set_nth 0 g xs))
           | VObj ps => set r "games" (VObj (put "0" g ps))
           | _ => Some r
           end
       end.

Definition updateRound (customerId id q : value) : M value :=
  let rn := toIntOrNull (get q "round_number") in
  if negb (truthy rn) then ret (failure "Invalid round_number")
  else
    got <- getTournamentOwned customerId id ;;
    if negb (truthy (get got "ok")) then ret got
    else
      stored <- orTypeError (get_strict (get got "tournament") "rounds") ;;
      match or_else stored (VArr []) with
      | VArr rounds =>
          idx <- orTypeError (findRound rn rounds) ;;
          match idx with
          | None => ret (failure "Round not found")
          | Some i =>
              let r := nth i rounds VUndef in
              r <- (if negb (strict_eq (get q "op_p1") VUndef)
                    then orTypeError (set_deck r "p1" (toIntOrNull (get q "op_p1")))
                    else ret r) ;;
              r <- (if negb (strict_eq (get q "op_p2") VUndef)
                    then orTypeError (set_deck r "p2" (toIntOrNull (get q "op_p2")))
                    else ret r) ;;
              r <- (if negb (strict_eq (get q "special") VUndef)
                    then orTypeError (set r "special" (normalizeSpecial (get q "special")))
                    else ret r) ;;
              let g1 := normalizeResult (get q "g1") in
              r <- (if negb (strict_eq g1 VUndef)
                    then orTypeError (set_first_result r g1)
                    else ret r) ;;
              persistRounds customerId id (VArr (set_nth i r rounds))
          end
      | _ => throw "TypeError"   (* no [findIndex] on what is not an array *)
      end.

Definition allowed : list string :=
  ["Ganador"; "Finalista"; "Top4"; "Top8"; "Top16"; "Top32";
   "Top64"; "Top128"; "Top256"; "Top512"; "Top1024";
   "Droppeado"; "SinTop"].

Definition setFinalResult (customerId id result : value) : M value :=
  if negb (existsb (fun a => strict_eq (VStr a) result) allowed)
  then ret (failure "Invalid final result")
  else
    r <- await (update_single [("result", result)] (owned customerId id)) ;;
    match r with
    | Error _ => ret (failure "Failed to update result")
    | Data data => ret (success data)
    end.

Section Handler.
Variable hmac_sha256_hex : string -> string -> string.
Variable secret : string.

Definition handler (req : request) : M response :=
  let q := VObj (query req) in
  if negb (Auth.verifyShopifyProxy hmac_sha256_hex secret (query req))
  then json 401 invalid_signature
  else
    let customerId := get q "logged_in_customer_id" in
    let action := get q "action" in
    if negb (truthy customerId) then json 200 not_logged_in
    else if is_case action "list_tournaments" then
      tournaments <- listTournaments customerId ;;
      json 200 (VObj [("ok", VBool true); ("tournaments", tournaments)])
    else if is_case action "create_tournament" then
      result <- createTournament customerId q ;; json 200 result
    else if is_case action "add_round" then
      result <- addRound customerId (get q "id") ;; json 200 result
    else if is_case action "update_round" then
      result <- updateRound customerId (get q "id") q ;; json 200 result
    else if is_case action "set_final_result" then
      result <- setFinalResult customerId (get q "id") (get q "result") ;;
      json 200 result
    else json 200 (failure "Unknown action").

End Handler.
End Scored.

(* ================================================================== *)
(** * The meta proxy (src/api/proxy.js)                                 *)
(* ================================================================== *)

Module Meta.
Local Open Scope js_scope.

(** A destructuring default: [= null] applies to [undefined] only. *)
Definition default_null (v : value) : value :=
  if strict_eq v VUndef then VNull else v.

(** [err?.message || String(err)] *)
Definition error_text (message : string) : string :=
  if String.eqb message "" then "Error" else message.

Definition listTournaments (customerId : value) : M value :=
  r <- await (select_ordered [("customer_id", customerId)] "tournament_date") ;;
  match r with
  | Error message =>
      throw (if String.eqb message "" then "Database error" else message)
  | Data data => ret (coalesce data (VArr []))
  end.

Definition createTournament (customerId q : value) : M value :=
  let tournament_name := get q "tournament_name" in
  let tournament_date := get q "tournament_date" in
  if negb (truthy tournament_name) || negb (truthy tournament_date)
  then ret (VObj [("ok", VBool false);
                  ("error", VStr "Missing required fields");
                  ("fields_required",
                   VArr [VStr "tournament_name"; VStr "tournament_date"])])
  else
    r <- await (insert_single
                  [("customer_id", customerId);
                   ("tournament_name", tournament_name);
                   ("tournament_date", tournament_date);
                   ("format", default_null (get q "format"));
                   ("tournament_type", default_null (get q "tournament_type"));
                   ("result", default_null (get q "result"));
                   ("rounds", VArr []);
                   ("score", VObj [])]) ;;
    match r with
    | Error message => ret (failure_details "Database insert failed" message)
    | Data data => ret (success data)
    end.

Definition getTournament (customerId id : value) : M value :=
  if negb (truthy id) then ret (failure "Missing id")
  else
    r <- await (select_single (owned customerId id)) ;;
    match r with
    | Error _ => ret (failure "Tournament not found")
    | Data data => ret (success data)
    end.

Definition allowed : list string :=
  ["tournament_name"; "tournament_date"; "format"; "tournament_type"; "result"].

Definition updateTournament (customerId id q : value) : M value :=
  if negb (truthy id) then ret (failure "Missing id")
  else
    let updates :=
      fold_left (fun ups key =>
                   if negb (strict_eq (get q key) VUndef)
                   then put key (get q key) ups else ups)
                allowed [] in
    if (List.length (Auth.keys updates) =? 0)%nat
    then ret (failure "No fields to update")
    else
      r <- await (update_single updates (owned customerId id)) ;;
      match r with
      | Error message => ret (failure_details "Update failed" message)
      | Data data => ret (success data)
      end.

Definition internal_error (message : string) : M response :=
  json 200 (failure_details "Internal error" (error_text message)).

Definition unknown_action (names : list string) : value :=
  VObj [("ok", VBool false); ("error", VStr "Unknown action");
        ("allowed_actions", VArr (map VStr names))].

Section Handler.
Variable hmac_sha256_hex : string -> string -> string.
Variable secret : string.

(** The handler after the signature check. *)
Definition dispatch (req : request) : M response :=
  let q := VObj (query req) in
  let customerId := or_else (get q "logged_in_customer_id") VNull in
  let action := or_else (get q "action") VNull in
  if negb (truthy customerId) then json 200 not_logged_in
  else
    try_catch
      (if is_case action "list_tournaments" then
         tournaments <- listTournaments customerId ;;
         json 200 (VObj [("ok", VBool true); ("tournaments", tournaments)])
       else if is_case action "create_tournament" then
         result <- createTournament customerId q ;; json 200 result
       else if is_case action "get_tournament" then
         result <- getTournament customerId (get q "id") ;; json 200 result
       else if is_case action "update_tournament" then
         result <- updateTournament customerId (get q "id") q ;;
         json 200 result
       else json 200 (unknown_action
                        ["list_tournaments"; "create_tournament";
                         "get_tournament"; "update_tournament"]))
      internal_error.

Definition handler (req : request) : M response :=
  if negb (Auth.verifyShopifyProxy hmac_sha256_hex secret (query req))
  then json 401 invalid_signature
  else dispatch req.

(** The handler where the secret may be unset: the check is made, and
    may throw, before the [try] block is entered. *)
Definition handler_env (key : option string) (req : request) : M response :=
  isValid <- Auth.verifyShopifyProxy_env hmac_sha256_hex key (query req) ;;
  if negb isValid then json 401 invalid_signature else dispatch req.

End Handler.
End Meta.

(* ================================================================== *)
(** * The listing endpoint (src/api/tournaments.js)                     *)
(* ================================================================== *)

Module Listing.
Local Open Scope js_scope.
Section Handler.
Variable hmac_sha256_hex : string -> string -> string.
Variable secret : string.

Definition handler (req : request) : M response :=
  let q := VObj (query req) in
  if negb (String.eqb (method req) "GET")
  then json 405 (failure "Method not allowed")
  else if negb (Auth.verifyShopifyProxy hmac_sha256_hex secret (query req))
  then json 401 invalid_signature
  else
    let customerId := get q "logged_in_customer_id" in
    if negb (truthy customerId)
    then json 200 (VObj [("ok", VBool true); ("tournaments", VArr [])])
    else
      r <- await (select_ordered [("customer_id", customerId)]
                                 "tournament_date") ;;
      match r with
      | Error _ => json 500 (failure "Database error")
      | Data data =>
          json 200 (VObj [("ok", VBool true); ("tournaments", data)])
      end.

End Handler.
End Listing.

(* ================================================================== *)
(** * The identity probe (src/unnamed/part_003, first handler)          *)
(* ================================================================== *)

Module Whoami.
Section Handler.
Variable hmac_sha256_hex : string -> string -> string.
Variable secret : string.

Definition handler (req : request) : M response :=
  let q := VObj (query req) in
  if negb (Auth.verifyShopifyProxy hmac_sha256_hex secret (query req))
  then json 401 invalid_signature
  else
    let customerId := or_else (get q "logged_in_customer_id") VNull in
    if negb (truthy customerId) then json 200 not_logged_in
    else json 200 (VObj [("ok", VBool true); ("logged_in", VBool true);
                         ("customer_id", customerId)]).

End Handler.
End Whoami.

(* ================================================================== *)
(** * The first proxies (src/unnamed/part_001)                          *)
(* ================================================================== *)

(** Two earlier cuts of the proxy: one that lists only, one that lists
    and creates.  (src/unnamed/part_000 is the first of them with a
    [case] label pasted inside another [case] block; it is not a
    well-formed module and has no behaviour to embed.) *)
Module Early.
Local Open Scope js_scope.

(** [listTournaments] of the listing-only proxy: [data] as it comes. *)
Definition listTournaments (customerId : value) : M value :=
  r <- await (select_ordered [("customer_id", customerId)] "tournament_date") ;;
  match r with
  | Error _ => throw "Database error"
  | Data data => ret data
  end.

Section Handler.
Variable hmac_sha256_hex : string -> string -> string.
Variable secret : string.

(** The proxy that lists and creates; its two actions have the text of
    src/api/proxy.js. *)
Definition dispatch_create (req : request) : M response :=
  let q := VObj (query req) in
  let customerId := or_else (get q "logged_in_customer_id") VNull in
  let action := or_else (get q "action") VNull in
  if negb (truthy customerId) then json 200 not_logged_in
  else
    try_catch
      (if is_case action "list_tournaments" then
         tournaments <- Meta.listTournaments customerId ;;
         json 200 (VObj [("ok", VBool true); ("tournaments", tournaments)])
       else if is_case action "create_tournament" then
         result <- Meta.createTournament customerId q ;; json 200 result
       else json 200 (Meta.unknown_action
                        ["list_tournaments"; "create_tournament"]))
      Meta.internal_error.

Definition handler_create (req : request) : M response :=
  if negb (Auth.verifyShopifyProxy hmac_sha256_hex secret (query req))
  then json 401 invalid_signature
  else dispatch_create req.

Definition handler_create_env (key : option string) (req : request)
  : M response :=
  isValid <- Auth.verifyShopifyProxy_env hmac_sha256_hex key (query req) ;;
  if negb isValid then json 401 invalid_signature else dispatch_create req.

(** The proxy that lists only. *)
Definition handler_list (req : request) : M response :=
  let q := VObj (query req) in
  if negb (Auth.verifyShopifyProxy hmac_sha256_hex secret (query req))
  then json 401 invalid_signature
  else
    let customerId := or_else (get q "logged_in_customer_id") VNull in
    let action := or_else (get q "action") VNull in
    if negb (truthy customerId) then json 200 not_logged_in
    else
      try_catch
        (if is_case action "list_tournaments" then
           tournaments <- listTournaments customerId ;;
           json 200 (VObj [("ok", VBool true); ("tournaments", tournaments)])
         else json 400 (failure "Unknown action"))
        (fun _ => json 500 (failure "Internal server error")).

End Handler.
End Early.

(* ================================================================== *)
(** * The round-editing proxy (src/unnamed/part_003)                    *)
(* ================================================================== *)

Module Rounds.
Local Open Scope js_scope.

(** [listTournaments], [createTournament] and [updateTournament] have the
    text of src/api/proxy.js. *)
Definition listTournaments := Meta.listTournaments.
Definition createTournament := Meta.createTournament.
Definition updateTournament := Meta.updateTournament.

Definition getTournamentOwned (customerId tournamentId : value) : M value :=
  if negb (truthy tournamentId) then ret (failure "Missing tournament id")
  else
    r <- await (select_single (owned customerId tournamentId)) ;;
    match r with
    | Error _ => ret (failure "Tournament not found")
    | Data data => ret (success data)
    end.

Definition saveRounds (customerId tournamentId rounds : value) : M value :=
  r <- await (update_single [("rounds", rounds)]
                            (owned customerId tournamentId)) ;;
  match r with
  | Error message => ret (failure_details "Failed to save rounds" message)
  | Data data => ret (success data)
  end.

Definition getTournament (customerId id : value) : M value :=
  getTournamentOwned customerId id.

(** The callback and the result of [rounds.reduce(..., 0)]. *)
Definition max_step (m : number) (r : value) : number :=
  let n := ToNumber (get r "round_number") in
  if isFinite n then Math_max m n else m.

Definition maxRound (rounds : list value) : number :=
  fold_left max_step rounds (Fin 0 0).

Definition newRoundNumber (rounds : list value) : number :=
  num_succ (maxRound rounds).

Definition addRound (customerId tournamentId : value) : M value :=
  got <- getTournamentOwned customerId tournamentId ;;
  if negb (truthy (get got "ok")) then ret got
  else
    stored <- orTypeError (get_strict (get got "tournament") "rounds") ;;
    let rounds := elements stored in
    let newRound := new_round (VNum (newRoundNumber rounds)) in
    saveRounds customerId tournamentId (VArr (rounds ++ [newRound])%list).

(** What [query] asks of one round. *)
Definition present (q : value) (k : string) : bool :=
  negb (strict_eq (get q k) VUndef).

(** [present && normalized === undefined] *)
Definition rejected (q : value) (k : string) (normalized : value) : bool :=
  present q k && strict_eq normalized VUndef.

(** [round.opponent_deck.k = x] *)
Definition set_deck (round : value) (k : string) (x : value) : option value :=
  match set (get round "opponent_deck") k x with
  | Some deck => set round "opponent_deck" deck
  | None => None
  end.

(** [new Map(games.map(g => [Number(g.game), g]))]: the callback reads
    [g.game] and throws on [null] and [undefined]. *)
Fixpoint byNum (games : list value) : option (list (number * value)) :=
  match games with
  | [] => Some []
  | g :: rest =>
      match get_strict g "game", byNum rest with
      | Some n, Some entries => Some ((ToNumber n, g) :: entries)
      | _, _ => None
      end
  end.

(** Keys of a [Map] compare by SameValueZero: [NaN] is equal to [NaN]. *)
Definition same_key (x y : number) : bool :=
  match x, y with
  | NaN, NaN => true
  | _, _ => num_eqb x y
  end.

(** [map.get(k)]: a later entry replaces an earlier one under its key. *)
Fixpoint map_get (k : number) (entries : list (number * value)) : value :=
  match entries with
  | [] => VUndef
  | (k', g) :: rest =>
      match map_get k rest with
      | VUndef => if same_key k' k then g else VUndef
      | later => later
      end
  end.

(** [if (present) game.field = x] *)
Definition apply_field (q : value) (k : string) (field : string)
  (x game : value) : option value :=
  if present q k then set game field x else Some game.

(** The part of [updateRound] between finding the round and saving: the
    round as it is to be stored, an early [return] value, or a throw. *)
Inductive edited : Type :=
| Edited (round : value)
| Refused (answer : value).

Definition edit_games (q round : value) : M edited :=
  let games := get round "games" in
  let games := if isArray games then games else placeholder_games in
  round <- orTypeError (set round "games" games) ;;
  let g1 := normalizeResult (get q "g1") in
  let g2 := normalizeResult (get q "g2") in
  let g3 := normalizeResult (get q "g3") in
  if rejected q "g1" g1 then ret (Refused (failure "Invalid g1 value")) else
  if rejected q "g2" g2 then ret (Refused (failure "Invalid g2 value")) else
  if rejected q "g3" g3 then ret (Refused (failure "Invalid g3 value")) else
  let g1t := normalizeTurn (get q "g1_turn") in
  let g2t := normalizeTurn (get q "g2_turn") in
  let g3t := normalizeTurn (get q "g3_turn") in
  if rejected q "g1_turn" g1t
  then ret (Refused (failure "Invalid g1_turn value")) else
  if rejected q "g2_turn" g2t
  then ret (Refused (failure "Invalid g2_turn value")) else
  if rejected q "g3_turn" g3t
  then ret (Refused (failure "Invalid g3_turn value")) else
  entries <- orTypeError (byNum (elements games)) ;;
  let game1 := or_else (map_get (Fin 1 0) entries) (game_slot 1) in
  let game2 := or_else (map_get (Fin 2 0) entries) (game_slot 2) in
  let game3 := or_else (map_get (Fin 3 0) entries) (game_slot 3) in
  game1 <- orTypeError (apply_field q "g1" "result" g1 game1) ;;
  game2 <- orTypeError (apply_field q "g2" "result" g2 game2) ;;
  game3 <- orTypeError (apply_field q "g3" "result" g3 game3) ;;
  game1 <- orTypeError (apply_field q "g1_turn" "turn" g1t game1) ;;
  game2 <- orTypeError (apply_field q "g2_turn" "turn" g2t game2) ;;
  game3 <- orTypeError (apply_field q "g3_turn" "turn" g3t game3) ;;
  round <- orTypeError (set round "games" (VArr [game1; game2; game3])) ;;
  ret (Edited round).

Definition edit_round (q round : value) : M edited :=
  let opP1 := toIntOrNull (get q "op_p1") in
  let opP2 := toIntOrNull (get q "op_p2") in
  round <-
    (if present q "op_p1" || present q "op_p2" then
       round <- orTypeError
                  (set round "opponent_deck"
                       (or_else (get round "opponent_deck") empty_deck)) ;;
       round <- (if present q "op_p1"
                 then orTypeError (set_deck round "p1" opP1) else ret round) ;;
       (if present q "op_p2"
        then orTypeError (set_deck round "p2" opP2) else ret round)
     else ret round) ;;
  let sp := normalizeSpecial (get q "special") in
  if rejected q "special" sp
  then ret (Refused (failure "Invalid special value"))
  else
    round <- (if present q "special"
              then orTypeError (set round "special" sp) else ret round) ;;
    edit_games q round.

(** [rounds.findIndex((r) => Number(r?.round_number) === roundNumber)] *)
Definition is_round (roundNumber : value) (r : value) : bool :=
  strict_eq (VNum (ToNumber (get r "round_number"))) roundNumber.

Definition updateRound (customerId tournamentId q : value) : M value :=
  let roundNumber := toIntOrNull (get q "round_number") in
  if negb (truthy tournamentId) then ret (failure "Missing tournament id")
  else if negb (truthy roundNumber)
  then ret (failure "Missing or invalid round_number")
  else
    got <- getTournamentOwned customerId tournamentId ;;
    if negb (truthy (get got "ok")) then ret got
    else
      stored <- orTypeError (get_strict (get got "tournament") "rounds") ;;
      let rounds := elements stored in
      match findIndex (is_round roundNumber) rounds with
      | None => ret (failure "Round not found")
      | Some idx =>
          e <- edit_round q (nth idx rounds VUndef) ;;
          match e with
          | Refused answer => ret answer
          | Edited round =>
              saveRounds customerId tournamentId
                         (VArr (set_nth idx round rounds))
          end
      end.

Section Handler.
Variable hmac_sha256_hex : string -> string -> string.
Variable secret : string.

(** The handler after the signature check. *)
Definition dispatch (req : request) : M response :=
  let q := VObj (query req) in
  let customerId := or_else (get q "logged_in_customer_id") VNull in
  let action := or_else (get q "action") VNull in
  if negb (truthy customerId) then json 200 not_logged_in
  else
    try_catch
      (if is_case action "list_tournaments" then
         tournaments <- listTournaments customerId ;;
         json 200 (VObj [("ok", VBool true); ("tournaments", tournaments)])
       else if is_case action "create_tournament" then
         result <- createTournament customerId q ;; json 200 result
       else if is_case action "get_tournament" then
         result <- getTournament customerId (get q "id") ;; json 200 result
       else if is_case action "update_tournament" then
         result <- updateTournament customerId (get q "id") q ;;
         json 200 result
       else if is_case action "add_round" then
         result <- addRound customerId (get q "id") ;; json 200 result
       else if is_case action "update_round" then
         result <- updateRound customerId (get q "id") q ;; json 200 result
       else json 200 (Meta.unknown_action
                        ["list_tournaments"; "create_tournament";
                         "get_tournament"; "update_tournament";
                         "add_round"; "update_round"]))
      Meta.internal_error.

Definition handler (req : request) : M response :=
  if negb (Auth.verifyShopifyProxy hmac_sha256_hex secret (query req))
  then json 401 invalid_signature
  else dispatch req.

(** The handler where the secret may be unset. *)
Definition handler_env (key : option string) (req : request) : M response :=
  isValid <- Auth.verifyShopifyProxy_env hmac_sha256_hex key (query req) ;;
  if negb isValid then json 401 invalid_signature else dispatch req.

End Handler.
End Rounds.

(* ================================================================== *)
(** * What the specification says, in its own words                     *)
(* ================================================================== *)

Module Spec.











(** §8: a round counts unless it is not special and no game of it has a
    reported result. *)
Definition special_round (r : value) : bool :=
  is_special (get r "special").



(** §3: [score] must equal [ScoreCalculator(rounds)]. *)
Definition score_consistent (row : value) : Prop :=
  get row "score" = computeScore (get row "rounds").

(** The rounds of a tournament that only [addRound] has extended carry
    the numbers 1, 2, ... in order. *)
Fixpoint numbered_from (n : Z) (rounds : list value) : Prop :=
  match rounds with
  | [] => True
  | r :: rest => get r "round_number" = VInt n /\ numbered_from (n + 1) rest
  end.

Definition numbered (rounds : list value) : Prop := numbered_from 1 rounds.

(** Strict order on numbers. *)
Definition num_lt (x y : number) : Prop := num_leb y x = false.

(** The round numbers a stored collection uses. *)
Definition round_numbers (rounds : list value) : list number :=
  filter isFinite (map (fun r => ToNumber (get r "round_number")) rounds).

(** §4.1: the inputs that mean "clear the field". *)
Definition clears (v : value) : Prop :=
  v = VNull \/ v = VStr "" \/ v = VStr "null".

(** §4.1: the three normalizers and their enumerations. *)
Inductive normalizer : (value -> value) -> list string -> Prop :=
| Normalizes_result : normalizer normalizeResult ["W"; "L"; "T"]
| Normalizes_turn : normalizer normalizeTurn ["FIRST"; "SECOND"]
| Normalizes_special : normalizer normalizeSpecial ["ID"; "NO_SHOW"; "BYE"].

(** §4.4: a field of the patch that is present and not valid. *)
Definition patch_rejected (q : value) : bool :=
  Rounds.rejected q "special" (normalizeSpecial (get q "special"))
  || Rounds.rejected q "g1" (normalizeResult (get q "g1"))
  || Rounds.rejected q "g2" (normalizeResult (get q "g2"))
  || Rounds.rejected q "g3" (normalizeResult (get q "g3"))
  || Rounds.rejected q "g1_turn" (normalizeTurn (get q "g1_turn"))
  || Rounds.rejected q "g2_turn" (normalizeTurn (get q "g2_turn"))
  || Rounds.rejected q "g3_turn" (normalizeTurn (get q "g3_turn")).

(** [{ ok: false, ... }], or an exception the handler turns into one. *)
Definition failed (o : outcome value) : Prop :=
  match o with
  | Returned v => get v "ok" = VBool false
  | Thrown _ => True
  end.

(** Index keys are digit strings; the names the handlers use are not. *)
Definition named (k : string) : bool :=
  match k with
  | String c _ => negb (between 48 57 c)
  | EmptyString => true
  end.

(** A computation that leaves the table as it is, and whose result, when
    it returns one, satisfies [Q]. *)
Definition reads_only {A} (Q : A -> Prop) (m : M A) : Prop :=
  forall d, rows (snd (m d)) = rows d
            /\ match fst (m d) with
               | Returned a => Q a
               | Thrown _ => True
               end.

(** A computation that keeps an invariant of the table. *)
Definition preserves {A} (I : list value -> Prop) (m : M A) : Prop :=
  forall d, I (rows d) -> I (rows (snd (m d))).

(** What [getTournamentOwned] answers. *)
Definition found_or_not (got : value) : Prop :=
  (exists error, got = failure error) \/ (exists row, got = success row).

(** An edit that stops at a validation error. *)
Definition refused (e : Rounds.edited) : Prop :=
  match e with
  | Rounds.Refused answer => get answer "ok" = VBool false
  | Rounds.Edited _ => False
  end.

(** §3, on every stored tournament: the score is the score of the rounds,
    and the rounds are as the sanitizer leaves them. *)
Definition derived (row : value) : Prop :=
  score_consistent row
  /\ sanitizeRounds (get row "rounds") = get row "rounds".

(** The table after an operation: every row is a row of the table before
    or is derived. *)
Definition writes_derived (before after : list value) : Prop :=
  forall row, In row after -> In row before \/ derived row.

(** A signature-valid request without a customer, under an HMAC that
    concatenates key and message. *)
Definition sample_hmac (key message : string) : string := key ++ message.

Definition anonymous_request : request :=
  Request "GET" [("shop", VStr "deckshield");
                 ("signature", VStr "keyshop=deckshield")].

(** §3: a stored round as [addRound] and [updateRound] leave it: an
    object with a deck object and the three game objects in order. *)
Definition well_formed_round (round : value) (deck g1 g2 g3 : props) : Prop :=
  (exists ps, round = VObj ps)
  /\ get round "opponent_deck" = VObj deck
  /\ get round "games" = VArr [VObj g1; VObj g2; VObj g3]
  /\ get (VObj g1) "game" = VInt 1
  /\ get (VObj g2) "game" = VInt 2
  /\ get (VObj g3) "game" = VInt 3.

(** §4.4: a field after a patch: the normalized input when the patch has
    the field, the stored value otherwise. *)
Definition patched (q : value) (k : string) (normalized old : value) : value :=
  if Rounds.present q k then normalized else old.

(** A tournament of customer 42 with one untouched round, as the scoring
    proxy creates it, and two patches for that round: one with a result
    that is no result, one with a special that is no special. *)
Definition create_query : value :=
  VObj [("tournament_name", VStr "Open");
        ("tournament_date", VStr "2025-01-01")].

Definition created_by_scored : db :=
  snd (Scored.createTournament (VStr "42") create_query (Db [] 1 [])).

Definition open_tournament : db :=
  snd (Scored.addRound (VStr "42") (VStr "1") created_by_scored).

(** The same tournament as the round-editing proxy creates it. *)
Definition created_by_rounds : db :=
  snd (Rounds.createTournament (VStr "42") create_query (Db [] 1 [])).

Definition patch_bad_result : value :=
  VObj [("round_number", VStr "1"); ("op_p1", VStr "7"); ("g1", VStr "X")].

Definition patch_bad_special : value :=
  VObj [("round_number", VStr "1"); ("special", VStr "WALKOVER")].

(** The first round of a stored tournament. *)
Definition first_round (row : value) : value :=
  nth 0 (elements (get row "rounds")) VUndef.

(** A stored tournament whose second round was numbered 3. *)
Definition gapped_rounds : list value :=
  [new_round (VInt 1); new_round (VInt 3)].

Definition gapped_tournament : db :=
  Db [VObj [("id", VInt 1); ("customer_id", VStr "42");
            ("rounds", VArr gapped_rounds);
            ("score", computeScore (VArr gapped_rounds))]] 2 [].

(** An operation on the tournament matched by [filters]: it leaves the
    table as it is, or it applies one update, of fields that satisfy
    [F], to the one row that matches, and answers with that row. *)
Definition one_update (filters : list (string * value)) (F : props -> Prop)
  (m : M value) : Prop :=
  forall d,
    rows (snd (m d)) = rows d
    \/ exists fields row,
         F fields
         /\ filter (matches filters) (rows d) = [row]
         /\ rows (snd (m d))
            = map (fun r => if matches filters r then assign fields r else r)
                  (rows d)
         /\ fst (m d) = Returned (success (assign fields row)).

(** The columns an update of [fields] writes. *)
Definition writes_column (fields : props) (k : string) : bool :=
  existsb (fun f => String.eqb k (fst f)) fields.

(** The fields of the writes of each operation. *)
Definition rounds_and_score (fields : props) : Prop :=
  exists rounds,
    fields = [("rounds", sanitizeRounds rounds);
              ("score", computeScore (sanitizeRounds rounds))].

Definition rounds_alone (fields : props) : Prop :=
  exists rounds, fields = [("rounds", VArr rounds)].

Definition final_result (fields : props) : Prop :=
  exists result, In result Scored.allowed /\ fields = [("result", VStr result)].

Definition meta_fields (fields : props) : Prop :=
  fields <> []
  /\ forall k, writes_column fields k = true -> In k Meta.allowed.

(** A patch for the final result that is no final result. *)
Definition bad_final_result : value := VStr "Champion".

(** Two customers, one tournament each. *)
Definition two_customers : db :=
  Db [VObj [("id", VInt 1); ("customer_id", VStr "42");
            ("tournament_name", VStr "Open");
            ("tournament_date", VStr "2025-01-01");
            ("result", VStr "SinTop");
            ("rounds", VArr [new_round (VInt 1)]);
            ("score", computeScore (VArr [new_round (VInt 1)]))];
      VObj [("id", VInt 2); ("customer_id", VStr "77");
            ("tournament_name", VStr "Regional");
            ("tournament_date", VStr "2025-02-01");
            ("result", VStr "Top8");
            ("rounds", VArr []);
            ("score", computeScore (VArr []))]] 3 [].

(** A stored tournament that is not the one an operation names: another
    customer's, or another id. *)
Definition foreign (customerId id row : value) : Prop :=
  ToString (get row "customer_id") <> ToString customerId
  \/ ToString (get row "id") <> ToString id.

(** Row by row, the table before and after an operation. *)
Definition others_untouched (customerId id : value)
  (before after : list value) : Prop :=
  Forall2 (fun old new => foreign customerId id old -> new = old) before after.

Definition column_kept (k : string) (before after : list value) : Prop :=
  Forall2 (fun old new => get new k = get old k) before after.

(** What a created tournament holds besides what the query gave. *)
Definition created_row (customerId q row : value) : Prop :=
  get row "customer_id" = customerId
  /\ get row "tournament_name" = get q "tournament_name"
  /\ get row "tournament_date" = get q "tournament_date"
  /\ get row "rounds" = VArr [].

(** A create query that also carries an owner, rounds and a score. *)
Definition greedy_create_query : value :=
  VObj [("tournament_name", VStr "Open");
        ("tournament_date", VStr "2025-01-01");
        ("customer_id", VStr "77");
        ("rounds", VArr [new_round (VInt 9)]);
        ("score", VObj [("wins", VInt 9)])].

(** A handler that returns a response satisfying [P] on every run. *)
Definition always_answers (P : response -> Prop) (m : M response) : Prop :=
  forall d, exists r, fst (m d) = Returned r /\ P r.

(** A handler body whose responses, when it returns, satisfy [P]. *)
Definition answers (P : response -> Prop) (m : M response) : Prop :=
  forall d, match fst (m d) with
            | Returned r => P r
            | Thrown _ => True
            end.

(** A request whose signature parameter is not the HMAC of the others. *)
Definition forged_request : request :=
  Request "GET" [("shop", VStr "deckshield");
                 ("logged_in_customer_id", VStr "42");
                 ("action", VStr "add_round"); ("id", VStr "1");
                 ("signature", VStr "guess")].

(** Tallies add up. *)
Definition tally_add (a b : tally) : tally :=
  Tally (wins a + wins b) (losses a + losses b) (ties a + ties b).

(** What one round adds to a tally. *)
Definition contribution (r : value) : tally := score_round (Tally 0 0 0) r.

(** The same three rounds in two orders. *)
Definition three_rounds : list value :=
  [VObj [("special", VStr "BYE")];
   VObj [("games", VArr [VObj [("result", VStr "L")]])];
   VObj [("special", VStr "ID")]].

(** A played round the sanitizer has nothing to do on, and a bye that
    still carries a game. *)
Definition played_round : value :=
  VObj [("round_number", VInt 1);
        ("opponent_deck", VObj [("p1", VInt 7); ("p2", VNull)]);
        ("games", VArr [VObj [("game", VInt 1); ("result", VStr "W");
                              ("turn", VStr "FIRST")];
                        game_slot 2; game_slot 3]);
        ("special", VNull)].

Definition stale_bye : value :=
  VObj [("round_number", VInt 2); ("special", VStr "BYE");
        ("games", VArr [VObj [("game", VInt 1); ("result", VStr "L");
                              ("turn", VNull)]])].

(** The number a decimal numeral denotes, most significant digit first,
    and its number of digits. *)
Fixpoint uint_value (d : Decimal.uint) (acc : Z) : Z :=
  match d with
  | Decimal.Nil => acc
  | Decimal.D0 l => uint_value l (acc * 10 + 0)
  | Decimal.D1 l => uint_value l (acc * 10 + 1)
  | Decimal.D2 l => uint_value l (acc * 10 + 2)
  | Decimal.D3 l => uint_value l (acc * 10 + 3)
  | Decimal.D4 l => uint_value l (acc * 10 + 4)
  | Decimal.D5 l => uint_value l (acc * 10 + 5)
  | Decimal.D6 l => uint_value l (acc * 10 + 6)
  | Decimal.D7 l => uint_value l (acc * 10 + 7)
  | Decimal.D8 l => uint_value l (acc * 10 + 8)
  | Decimal.D9 l => uint_value l (acc * 10 + 9)
  end.

Fixpoint uint_length (d : Decimal.uint) : nat :=
  match d with
  | Decimal.Nil => O
  | Decimal.D0 l | Decimal.D1 l | Decimal.D2 l | Decimal.D3 l | Decimal.D4 l
  | Decimal.D5 l | Decimal.D6 l | Decimal.D7 l | Decimal.D8 l | Decimal.D9 l =>
      S (uint_length l)
  end.

Definition no_space (s : string) : Prop :=
  Forall (fun c => is_ws c = false) (list_ascii_of_string s).

(** A signed listing request, and the same parameters in another order. *)
Definition signed_query : props :=
  [("customer_id", VStr "42"); ("action", VStr "list");
   ("signature", VStr "keyaction=listcustomer_id=42")].

Definition reordered_query : props :=
  [("signature", VStr "keyaction=listcustomer_id=42");
   ("customer_id", VStr "42"); ("action", VStr "list")].

(** The round numbers of a [rounds] column, in order, and the tables
    whose tournaments have the round numbers of another table's. *)
Definition numbering (rounds : value) : list value :=
  map (fun r => get r "round_number") (elements rounds).

(** Tables related tournament by tournament through their round
    numbers. *)
Definition numbers_related (rel : list value -> list value -> Prop)
  (before after : list value) : Prop :=
  Forall2 (fun old new =>
             rel (numbering (get old "rounds")) (numbering (get new "rounds")))
          before after.

Definition numbers_kept : list value -> list value -> Prop :=
  numbers_related eq.

(** The same round numbers, or one more at the end. *)
Definition grows (old new : list value) : Prop :=
  new = old \/ exists n, new = (old ++ [n])%list.

(** A part of an operation, run on the table [rs]: it leaves the table,
    and its result satisfies [Q]. *)
Definition reads_at {A} (rs : list value) (Q : A -> Prop) (m : M A) : Prop :=
  forall d, rows d = rs ->
    rows (snd (m d)) = rs
    /\ match fst (m d) with
       | Returned a => Q a
       | Thrown _ => True
       end.

Definition relates_numbers_at (rel : list value -> list value -> Prop)
  (rs : list value) (m : M value) : Prop :=
  forall d, rows d = rs -> numbers_related rel rs (rows (snd (m d))).

(** What [getTournamentOwned] answers on the table [rs]. *)
Definition found_in (rs : list value) (filters : list (string * value))
  (got : value) : Prop :=
  (exists error, got = failure error)
  \/ (exists row, got = success row /\ In row rs /\ matches filters row = true).

Definition same_number (r0 r : value) : Prop :=
  get r "round_number" = get r0 "round_number".

Definition edit_same_number (r0 : value) (e : Rounds.edited) : Prop :=
  match e with
  | Rounds.Edited r => same_number r0 r
  | Rounds.Refused _ => True
  end.

(** A computation that leaves in its place every stored tournament of a
    customer other than [customerId]. *)
Definition isolates {A} (customerId : value) (m : M A) : Prop :=
  forall d i row,
    nth_error (rows d) i = Some row ->
    ToString (get row "customer_id") <> ToString customerId ->
    nth_error (rows (snd (m d))) i = Some row.

(** The customer a request is made for. *)
Definition customer_of (req : request) : value :=
  get (VObj (query req)) "logged_in_customer_id".

(** A signed request of customer 42 that names the tournament of
    customer 77. *)
Definition intruding_request : request :=
  Request "GET"
    [("action", VStr "set_final_result"); ("id", VStr "2");
     ("logged_in_customer_id", VStr "42"); ("result", VStr "Ganador");
     ("signature",
      VStr "keyaction=set_final_resultid=2logged_in_customer_id=42result=Ganador")].




(** §4.2: a score with the counts [w], [l], [t] and their text. *)
Definition scores (s : value) (w l t : nat) : Prop :=
  get s "wins" = VInt (Z.of_nat w)
  /\ get s "losses" = VInt (Z.of_nat l)
  /\ get s "ties" = VInt (Z.of_nat t)
  /\ get s "text"
     = VStr (ToString (VInt (Z.of_nat w)) ++ "-"
             ++ ToString (VInt (Z.of_nat l)) ++ "-"
             ++ ToString (VInt (Z.of_nat t))).



(** The tournament of [created_by_rounds] after [addRound], and after a
    first game reported as won. *)
Definition patch_first_win : value :=
  VObj [("round_number", VStr "1"); ("g1", VStr "W")].

Definition round_added_by_rounds : db :=
  snd (Rounds.addRound (VStr "42") (VStr "1") created_by_rounds).

Definition round_won_by_rounds : db :=
  snd (Rounds.updateRound (VStr "42") (VStr "1") patch_first_win
                          round_added_by_rounds).

(** Round numbers on which the arithmetic of doubles is exact: integers
    from -(2^53 - 1) to 2^53 - 1 - [room], so that [room] can be added. *)
Definition safe_number (room : Z) (n : number) : Prop :=
  is_integer n = true
  /\ num_leb (Fin (- 9007199254740991) 0) n = true
  /\ num_leb n (Fin (9007199254740991 - room) 0) = true.

Definition safe_numbers (room : Z) (rounds : list value) : Prop :=
  forall n, In n (round_numbers rounds) -> safe_number room n.

(** The table after the update of [fields] on the rows that match. *)
Definition updated (fields : props) (filters : list (string * value))
  (rs : list value) : list value :=
  map (fun r => if matches filters r then assign fields r else r) rs.

(** [k] calls of the round-editing proxy's [addRound], one after the
    other. *)
Definition addRound_times (k : nat) (customerId id : value) (d : db) : db :=
  Nat.iter k (fun d => snd (Rounds.addRound customerId id d)) d.

(** [x + i]. *)
Definition num_plus (x : number) (i : nat) : number := Nat.iter i num_succ x.

(** The rounds [addRound] makes in [k] calls on a tournament whose
    largest number is [top]. *)
Definition rounds_after (top : number) (k : nat) : list value :=
  map (fun i => new_round (VNum (num_plus top i))) (seq 1 k).

(** Whether the store answers the next call. *)
Definition store_answers (d : db) : bool := fst (transport d).

(** A request that carries a signature. *)
Definition signed (req : request) : bool :=
  truthy (get (VObj (query req)) "signature").

(** Every run of [m] gives the outcome [o] and leaves the store alone. *)
Definition always (o : outcome response) (m : M response) : Prop :=
  forall d, m d = (o, d).

End Spec.

Import Spec.

(* ================================================================== *)
(** * Verification                                                      *)
(* ================================================================== *)

(** ** Strict equality against a literal *)

Lemma strict_eq_undef (v : value) : strict_eq v VUndef = true <-> v = VUndef.
Proof. destruct v; simpl; split; congruence. Qed.

Lemma strict_eq_null (v : value) : strict_eq v VNull = true <-> v = VNull.
Proof. destruct v; simpl; split; congruence. Qed.

Lemma strict_eq_str (v : value) (s : string) :
  strict_eq v (VStr s) = true <-> v = VStr s.
Proof.
  destruct v; simpl; split; try congruence.
  - intros H. apply String.eqb_eq in H. now subst.
  - intros H. injection H as ->. apply String.eqb_refl.
Qed.

(** ** Reads after writes *)

Lemma lookup_put_same (k : string) (x : value) (ps : props) :
  lookup k (put k x ps) = Some x.
Proof.
  induction ps as [|[k' v'] ps IH]; simpl.
  - now rewrite String.eqb_refl.
  - destruct (String.eqb k k') eqn:E; simpl.
    + now rewrite String.eqb_refl.
    + now rewrite E.
Qed.

Lemma lookup_put_other (k k' : string) (x : value) (ps : props) :
  k' <> k -> lookup k' (put k x ps) = lookup k' ps.
Proof.
  intros Hne. induction ps as [|[k0 v0] ps IH]; simpl.
  - apply String.eqb_neq in Hne. now rewrite Hne.
  - destruct (String.eqb k k0) eqn:E; simpl.
    + apply String.eqb_eq in E. subst k0.
      apply String.eqb_neq in Hne. now rewrite Hne.
    + now rewrite IH.
Qed.

Lemma put_put_same (k : string) (x y : value) (ps : props) :
  put k y (put k x ps) = put k y ps.
Proof.
  induction ps as [|[k' v'] ps IH]; simpl.
  - now rewrite String.eqb_refl.
  - destruct (String.eqb k k') eqn:E; simpl.
    + now rewrite String.eqb_refl.
    + now rewrite E, IH.
Qed.

Lemma get_put_same (k : string) (x : value) (ps : props) :
  get (VObj (put k x ps)) k = x.
Proof. unfold get. now rewrite lookup_put_same. Qed.

Lemma get_put_other (k k' : string) (x : value) (ps : props) :
  k' <> k -> get (VObj (put k x ps)) k' = get (VObj ps) k'.
Proof. intros H. unfold get. now rewrite lookup_put_other. Qed.

(** ** The score calculator *)

Lemma coalesce_null_eq_str (x : value) (s : string) :
  strict_eq (coalesce x VNull) (VStr s) = strict_eq x (VStr s).
Proof. now destruct x. Qed.












(** ** Every round counts at most once *)









(** ** The round sanitizer *)

Lemma Z_digits_not_named (z : Z) : named (Z_digits z) = false.
Proof.
  unfold Z_digits. now destruct (N.to_uint (Z.to_N z)).
Qed.

Lemma index_keys_named (k : string) (xs : list value) (n : nat) :
  named k = true -> get (VObj (index_keys n xs)) k = VUndef.
Proof.
  intros Hk. revert n. induction xs as [|x xs IH]; intros n; [reflexivity|].
  unfold get in *. cbn [index_keys lookup].
  destruct (String.eqb k (Z_digits (Z.of_nat n))) eqn:E.
  - exfalso. apply String.eqb_eq in E. subst k.
    now rewrite Z_digits_not_named in Hk.
  - apply IH.
Qed.

Lemma get_spread (k : string) (v : value) :
  named k = true -> get (VObj (spread v)) k = get v k.
Proof.
  intros Hk. destruct v as [| |b|n|s|xs|ps]; try reflexivity;
    now apply index_keys_named.
Qed.

Lemma sanitizeRound_spec (r : value) :
  (special_round r = true -> get (sanitizeRound r) "games" = placeholder_games)
  /\ (get r "opponent_deck" = VUndef ->
      get (sanitizeRound r) "opponent_deck" = empty_deck).
Proof.
  unfold special_round, sanitizeRound. split.
  - intros Hsp.
    assert (Hobj : exists ps, r = VObj ps).
    { destruct r; try discriminate Hsp. now eexists. }
    destruct Hobj as [ps ->]. simpl spread.
    rewrite get_put_other by discriminate.
    rewrite Hsp. apply get_put_same.
  - intros Habsent.
    assert (Hdeck : get (VObj (spread r)) "opponent_deck" = VUndef)
      by (now rewrite get_spread).
    rewrite Hdeck. simpl or_else.
    destruct (is_special _).
    + rewrite get_put_other by discriminate. apply get_put_same.
    + apply get_put_same.
Qed.

(** C7. The sanitizer keeps the rounds in place; a round whose special is
    BYE, NO_SHOW or ID comes out with exactly the three placeholder game
    slots, whatever its games were, and a round without opponent_deck
    comes out with {p1: null, p2: null}. *)
Theorem sanitizeRounds_forces_placeholders
  (rounds : list value) (i : nat) (r : value) :
  nth_error rounds i = Some r ->
  exists r' : value,
    nth_error (elements (sanitizeRounds (VArr rounds))) i = Some r'
    /\ (special_round r = true ->
        get r' "games"
        = VArr [VObj [("game", VInt 1); ("result", VNull); ("turn", VNull)];
                VObj [("game", VInt 2); ("result", VNull); ("turn", VNull)];
                VObj [("game", VInt 3); ("result", VNull); ("turn", VNull)]])
    /\ (get r "opponent_deck" = VUndef ->
        get r' "opponent_deck" = VObj [("p1", VNull); ("p2", VNull)]).
Proof.
  intros Hnth. exists (sanitizeRound r). split.
  - simpl. now apply map_nth_error.
  - apply sanitizeRound_spec.
Qed.

(** A bye that still carries a played game and has lost its deck. *)
Lemma sanitizeRounds_forces_placeholders_witness :
  exists r' : value,
    nth_error
      (elements
         (sanitizeRounds
            (VArr [VObj [("round_number", VInt 1); ("special", VStr "BYE");
                         ("games", VArr [VObj [("game", VInt 1);
                                               ("result", VStr "W");
                                               ("turn", VStr "FIRST")]])]])))
      0 = Some r'
    /\ get r' "games" = placeholder_games
    /\ get r' "opponent_deck" = empty_deck.
Proof.
  destruct (sanitizeRounds_forces_placeholders
              [VObj [("round_number", VInt 1); ("special", VStr "BYE");
                     ("games", VArr [VObj [("game", VInt 1);
                                           ("result", VStr "W");
                                           ("turn", VStr "FIRST")]])]]
              0 _ eq_refl) as [r' [Hnth [Hgames Hdeck]]].
  exists r'. split; [exact Hnth|]. split.
  - apply Hgames. reflexivity.
  - apply Hdeck. reflexivity.
Defined.

Lemma or_else_truthy (a b : value) :
  truthy b = true -> truthy (or_else a b) = true.
Proof. unfold or_else. now destruct (truthy a) eqn:E. Qed.

Lemma put_bound (k : string) (x : value) (ps : props) :
  lookup k ps = Some x -> put k x ps = ps.
Proof.
  induction ps as [|[k' v'] ps IH]; simpl; [discriminate|].
  destruct (String.eqb k k') eqn:E.
  - intros [= ->]. apply String.eqb_eq in E. now subst.
  - intros H. now rewrite IH.
Qed.

(** What one pass establishes, a second pass finds in place. *)
Lemma sanitizeRound_fixed (ps : props) (deck : value) :
  truthy deck = true ->
  lookup "opponent_deck" ps = Some deck ->
  (is_special (get (VObj ps) "special") = true ->
   lookup "games" ps = Some placeholder_games) ->
  sanitizeRound (VObj ps) = VObj ps.
Proof.
  intros Htruthy Hdeck Hgames. unfold sanitizeRound. simpl spread.
  assert (Hget : get (VObj ps) "opponent_deck" = deck)
    by (unfold get; now rewrite Hdeck).
  rewrite Hget. unfold or_else. rewrite Htruthy.
  rewrite (put_bound _ _ _ Hdeck).
  destruct (is_special _) eqn:Hsp; [|reflexivity].
  now rewrite (put_bound _ _ _ (Hgames eq_refl)).
Qed.

Lemma sanitizeRound_idempotent (r : value) :
  sanitizeRound (sanitizeRound r) = sanitizeRound r.
Proof.
  unfold sanitizeRound at 2 3.
  set (deck := or_else (get (VObj (spread r)) "opponent_deck") empty_deck).
  assert (Hdeck : truthy deck = true) by now apply or_else_truthy.
  set (ps := put "opponent_deck" deck (spread r)).
  destruct (is_special (get (VObj ps) "special")) eqn:Hsp.
  - apply (sanitizeRound_fixed _ deck Hdeck).
    + rewrite lookup_put_other by discriminate. apply lookup_put_same.
    + intros _. apply lookup_put_same.
  - apply (sanitizeRound_fixed _ deck Hdeck).
    + apply lookup_put_same.
    + rewrite Hsp. discriminate.
Qed.

Lemma sanitizeRounds_fixed (rounds : list value) :
  sanitizeRounds (VArr (map sanitizeRound rounds))
  = VArr (map sanitizeRound rounds).
Proof.
  unfold sanitizeRounds. cbn [elements]. rewrite map_map. f_equal.
  apply map_ext. intros r. apply sanitizeRound_idempotent.
Qed.

(** C10. Sanitizing a sanitized collection changes nothing. *)
Theorem sanitizeRounds_idempotent (rounds : value) :
  sanitizeRounds (sanitizeRounds rounds) = sanitizeRounds rounds.
Proof.
  unfold sanitizeRounds at 2 3. apply sanitizeRounds_fixed.
Qed.

(** ** The normalizers *)

Lemma clears_iff (v : value) :
  strict_eq v VNull || strict_eq v (VStr "") || strict_eq v (VStr "null") = true
  <-> clears v.
Proof.
  unfold clears. rewrite !orb_true_iff, strict_eq_null, !strict_eq_str. tauto.
Qed.

Lemma normalizeEnum_contract (enum : list string) (v : value) :
  normalizeEnum enum VUndef = VUndef
  /\ (clears v -> normalizeEnum enum v = VNull)
  /\ (v <> VUndef -> ~ clears v ->
      In (toUpperCase (ToString v)) enum ->
      normalizeEnum enum v = VStr (toUpperCase (ToString v)))
  /\ (v <> VUndef -> ~ clears v ->
      ~ In (toUpperCase (ToString v)) enum ->
      normalizeEnum enum v = normalizeEnum enum VUndef).
Proof.
  assert (Hundef : forall x, x <> VUndef -> strict_eq x VUndef = false).
  { intros x Hx. destruct (strict_eq x VUndef) eqn:E; [|reflexivity].
    now apply strict_eq_undef in E. }
  assert (Hkeep : ~ clears v ->
                  strict_eq v VNull || strict_eq v (VStr "")
                  || strict_eq v (VStr "null") = false).
  { intros Hc. destruct (_ || _) eqn:E; [|reflexivity].
    now apply clears_iff in E. }
  assert (Hin : forall s, existsb (String.eqb s) enum = true <-> In s enum).
  { intros s. rewrite existsb_exists. split.
    - intros [e [He Heq]]. apply String.eqb_eq in Heq. now subst.
    - intros He. exists s. split; [exact He | apply String.eqb_refl]. }
  split; [reflexivity|]. split; [|split].
  - intros Hc. unfold normalizeEnum.
    assert (Hv : v <> VUndef) by (destruct Hc as [->|[->| ->]]; discriminate).
    rewrite (Hundef _ Hv). apply clears_iff in Hc. now rewrite Hc.
  - intros Hv Hc He. unfold normalizeEnum.
    rewrite (Hundef _ Hv), (Hkeep Hc). apply Hin in He. now rewrite He.
  - intros Hv Hc He. unfold normalizeEnum at 1.
    rewrite (Hundef _ Hv), (Hkeep Hc).
    destruct (existsb _ enum) eqn:E; [|reflexivity].
    apply Hin in E. contradiction.
Qed.

(** C5, as the code has it.  Each normalizer returns [undefined] for an
    absent input, [null] for null, "" and "null", the upper-case member
    of its enumeration for an input whose text matches it without regard
    to case, and for any other input [undefined] again: the outcome of
    an invalid input is the outcome of an absent one. *)
Theorem normalizers_three_outcomes
  (f : value -> value) (enum : list string) (v : value) :
  normalizer f enum ->
  f VUndef = VUndef
  /\ (clears v -> f v = VNull)
  /\ (v <> VUndef -> ~ clears v ->
      In (toUpperCase (ToString v)) enum ->
      f v = VStr (toUpperCase (ToString v)))
  /\ (v <> VUndef -> ~ clears v ->
      ~ In (toUpperCase (ToString v)) enum ->
      f v = f VUndef).
Proof.
  intros [ | | ]; apply normalizeEnum_contract.
Qed.

Lemma normalizers_three_outcomes_witness :
  normalizeTurn VUndef = VUndef
  /\ normalizeTurn (VStr "null") = VNull
  /\ normalizeTurn (VStr "first") = VStr "FIRST"
  /\ normalizeTurn (VStr "third") = normalizeTurn VUndef.
Proof.
  pose proof (normalizers_three_outcomes _ _ (VStr "null") Normalizes_turn)
    as [Habsent [Hclear _]].
  pose proof (normalizers_three_outcomes _ _ (VStr "first") Normalizes_turn)
    as [_ [_ [Hmatch _]]].
  pose proof (normalizers_three_outcomes _ _ (VStr "third") Normalizes_turn)
    as [_ [_ [_ Hother]]].
  split; [exact Habsent|]. split; [|split].
  - apply Hclear. right. right. reflexivity.
  - apply Hmatch.
    + discriminate.
    + intros [H|[H|H]]; discriminate H.
    + left. reflexivity.
  - apply Hother.
    + discriminate.
    + intros [H|[H|H]]; discriminate H.
    + intros [H|[H|H]]; [discriminate H | discriminate H | exact H].
Defined.

(** C5, as stated, fails: "X" is present, clears nothing and matches no
    result, and [normalizeResult] answers as it does for an absent
    input. *)
Lemma invalid_result_is_absent_outcome :
  VStr "X" <> VUndef
  /\ ~ clears (VStr "X")
  /\ ~ In (toUpperCase (ToString (VStr "X"))) results
  /\ normalizeResult (VStr "X") = normalizeResult VUndef.
Proof.
  split; [discriminate|]. split; [|split].
  - intros [H|[H|H]]; discriminate H.
  - intros [H|[H|[H|H]]]; [discriminate H ..| exact H].
  - reflexivity.
Qed.

(** ** [toIntOrNull] *)

(** C8, as the code has it.  [toIntOrNull] returns null for [undefined],
    [null] and ""; for any other input it returns [Number(v)] when that
    is finite, and null otherwise.  It never returns [undefined]. *)
Theorem toIntOrNull_number_or_null (v : value) :
  (v = VUndef \/ v = VNull \/ v = VStr "" -> toIntOrNull v = VNull)
  /\ (v <> VUndef -> v <> VNull -> v <> VStr "" ->
      isFinite (ToNumber v) = true -> toIntOrNull v = VNum (ToNumber v))
  /\ (isFinite (ToNumber v) = false -> toIntOrNull v = VNull)
  /\ toIntOrNull v <> VUndef.
Proof.
  unfold toIntOrNull.
  split; [|split; [|split]].
  - intros [->|[->| ->]]; reflexivity.
  - intros H1 H2 H3 Hfin.
    destruct (strict_eq v VUndef) eqn:E1; [now apply strict_eq_undef in E1|].
    destruct (strict_eq v VNull) eqn:E2; [now apply strict_eq_null in E2|].
    destruct (strict_eq v (VStr "")) eqn:E3; [now apply strict_eq_str in E3|].
    simpl. now rewrite Hfin.
  - intros Hfin. rewrite Hfin. now destruct (_ || _).
  - destruct (_ || _); [discriminate|].
    destruct (isFinite (ToNumber v)); discriminate.
Qed.

Lemma toIntOrNull_number_or_null_witness :
  toIntOrNull (VStr "") = VNull
  /\ toIntOrNull (VStr " 42 ") = VInt 42
  /\ toIntOrNull (VStr "abc") = VNull.
Proof.
  pose proof (toIntOrNull_number_or_null (VStr "")) as [Hempty _].
  pose proof (toIntOrNull_number_or_null (VStr " 42 ")) as [_ [Hnum _]].
  pose proof (toIntOrNull_number_or_null (VStr "abc")) as [_ [_ [Hnan _]]].
  split; [|split].
  - apply Hempty. right. right. reflexivity.
  - apply Hnum; [discriminate | discriminate | discriminate | reflexivity].
  - apply Hnan. reflexivity.
Defined.

(** C8, as stated, fails: "1.5" parses as a finite number and
    [toIntOrNull] returns it, and 1.5 is not an integer. *)
Lemma toIntOrNull_keeps_fractions :
  isFinite (ToNumber (VStr "1.5")) = true
  /\ toIntOrNull (VStr "1.5") = VNum (Fin 15 (-1))
  /\ is_integer (Fin 15 (-1)) = false.
Proof. repeat split. Qed.

(** ** Requests without a customer *)

(** C9, as the code has it.  A request with a valid signature and no
    logged_in_customer_id is answered before any action runs and without
    touching the store: every handler that dispatches on an action, and
    the identity probe, answers 200 with {ok: true, logged_in: false};
    the listing endpoint answers a GET with {ok: true, tournaments: []}. *)
Theorem absent_customer_answered_before_dispatch
  (hmac : string -> string -> string) (secret : string)
  (req : request) (d : db) :
  Auth.verifyShopifyProxy hmac secret (query req) = true ->
  get (VObj (query req)) "logged_in_customer_id" = VUndef ->
  Meta.handler hmac secret req d = (Returned (Response 200 not_logged_in), d)
  /\ Rounds.handler hmac secret req d
     = (Returned (Response 200 not_logged_in), d)
  /\ Scored.handler hmac secret req d
     = (Returned (Response 200 not_logged_in), d)
  /\ Whoami.handler hmac secret req d
     = (Returned (Response 200 not_logged_in), d)
  /\ Early.handler_create hmac secret req d
     = (Returned (Response 200 not_logged_in), d)
  /\ Early.handler_list hmac secret req d
     = (Returned (Response 200 not_logged_in), d)
  /\ (method req = "GET" ->
      Listing.handler hmac secret req d
      = (Returned (Response 200 (VObj [("ok", VBool true);
                                       ("tournaments", VArr [])])), d)).
Proof.
  intros Hsig Habsent.
  unfold Meta.handler, Rounds.handler, Scored.handler, Whoami.handler,
    Early.handler_create, Early.handler_list, Listing.handler,
    Meta.dispatch, Rounds.dispatch, Early.dispatch_create.
  rewrite Hsig, Habsent. simpl.
  repeat split. intros ->. reflexivity.
Qed.

Lemma absent_customer_answered_before_dispatch_witness :
  Rounds.handler sample_hmac "key" anonymous_request (Db [] 1 [true])
  = (Returned (Response 200 not_logged_in), Db [] 1 [true]).
Proof.
  apply (absent_customer_answered_before_dispatch
           sample_hmac "key" anonymous_request (Db [] 1 [true]));
    reflexivity.
Defined.

(** C9, as stated, fails on the listing endpoint: the signature is
    valid, there is no customer, and the body is not
    {ok: true, logged_in: false}. *)
Lemma listing_answers_empty_list :
  Auth.verifyShopifyProxy sample_hmac "key" (query anonymous_request) = true
  /\ get (VObj (query anonymous_request)) "logged_in_customer_id" = VUndef
  /\ Listing.handler sample_hmac "key" anonymous_request (Db [] 1 [])
     = (Returned (Response 200 (VObj [("ok", VBool true);
                                      ("tournaments", VArr [])])),
        Db [] 1 [])
  /\ VObj [("ok", VBool true); ("tournaments", VArr [])] <> not_logged_in.
Proof. repeat split. discriminate. Qed.

(** ** The store under the handlers *)

Lemma transport_rows (d : db) : rows (snd (transport d)) = rows d.
Proof. unfold transport. now destruct (outages d). Qed.

Lemma select_single_rows (fs : list (string * value)) (d : db) :
  rows (snd (select_single fs d)) = rows d.
Proof.
  unfold select_single. pose proof (transport_rows d) as H.
  destruct (transport d) as [up d']. simpl in H.
  destruct up; simpl; [|exact H].
  destruct (filter _ _) as [|r [|r' l]]; exact H.
Qed.

Lemma select_ordered_rows (fs : list (string * value)) (col : string) (d : db) :
  rows (snd (select_ordered fs col d)) = rows d.
Proof.
  unfold select_ordered. pose proof (transport_rows d) as H.
  destruct (transport d) as [up d']. simpl in H.
  destruct up; exact H.
Qed.

Lemma update_single_rows (fields : props) (fs : list (string * value)) (d : db) :
  rows (snd (update_single fields fs d)) = rows d
  \/ rows (snd (update_single fields fs d))
     = map (fun r => if matches fs r then assign fields r else r) (rows d).
Proof.
  unfold update_single. pose proof (transport_rows d) as H.
  destruct (transport d) as [up d']. simpl in H.
  destruct up; simpl; [|now left].
  destruct (filter _ _) as [|r [|r' l]]; simpl; rewrite ?H; auto.
Qed.

Lemma insert_single_rows (payload : props) (d : db) :
  rows (snd (insert_single payload d)) = rows d
  \/ exists id, rows (snd (insert_single payload d))
                = (rows d ++ [VObj (("id", id) :: payload)])%list.
Proof.
  unfold insert_single. pose proof (transport_rows d) as H.
  destruct (transport d) as [up d']. simpl in H.
  destruct up; simpl; [|now left].
  right. eexists. now rewrite H.
Qed.

Section Preservation.
Variable I : list value -> Prop.

Lemma preserves_ret {A} (a : A) : preserves I (ret a).
Proof. intros d H. exact H. Qed.

Lemma preserves_throw {A} (e : string) : preserves I (@throw A e).
Proof. intros d H. exact H. Qed.

Lemma preserves_orTypeError {A} (o : option A) : preserves I (orTypeError o).
Proof. destruct o; [apply preserves_ret | apply preserves_throw]. Qed.

Lemma preserves_bind {A B} (m : M A) (k : A -> M B) :
  preserves I m -> (forall a, preserves I (k a)) -> preserves I (bind m k).
Proof.
  intros Hm Hk d H. unfold bind. specialize (Hm d H).
  destruct (m d) as [[a|e] d']; simpl in *; [now apply Hk | exact Hm].
Qed.

Lemma preserves_await (q : db -> reply * db) :
  (forall d, I (rows d) -> I (rows (snd (q d)))) -> preserves I (await q).
Proof.
  intros Hq d H. unfold await. specialize (Hq d H).
  now destruct (q d).
Qed.

Lemma preserves_select_single (fs : list (string * value)) :
  preserves I (await (select_single fs)).
Proof.
  apply preserves_await. intros d H. now rewrite select_single_rows.
Qed.

Lemma preserves_select_ordered (fs : list (string * value)) (col : string) :
  preserves I (await (select_ordered fs col)).
Proof.
  apply preserves_await. intros d H. now rewrite select_ordered_rows.
Qed.

End Preservation.

(** Structural steps through a handler body. *)
Ltac step_preserves :=
  repeat first
    [ apply preserves_ret
    | apply preserves_throw
    | apply preserves_orTypeError
    | apply preserves_select_single
    | apply preserves_select_ordered
    | apply preserves_bind; [|intros ?]
    | match goal with
      | |- preserves _ (if ?c then _ else _) => destruct c
      | |- preserves _ (match ?x with _ => _ end) => destruct x
      end ].

(** ** The derived score *)


Lemma derived_after_persist (rounds row : value) :
  let clean := sanitizeRounds rounds in
  derived (assign [("rounds", clean); ("score", computeScore clean)] row).
Proof.
  unfold derived, score_consistent, assign. cbn [fold_left fst snd].
  rewrite get_put_same, get_put_other, get_put_same by discriminate.
  split; [reflexivity | apply sanitizeRounds_fixed].
Qed.


Lemma derived_when_created (id : value) (fields : props) :
  lookup "rounds" fields = Some (VArr []) ->
  lookup "score" fields = Some (computeScore (VArr [])) ->
  derived (VObj (("id", id) :: fields)).
Proof.
  intros Hr Hs. unfold derived, score_consistent, get. simpl.
  now rewrite Hr, Hs.
Qed.

Section Derived.

(** An invariant of the table that survives rewriting rows into derived
    ones and appending a derived row. *)
Variable I : list value -> Prop.
Hypothesis I_map :
  forall (f : value -> value) (table : list value),
    (forall row, derived (f row) \/ f row = row) ->
    I table -> I (map f table).
Hypothesis I_app :
  forall (row : value) (table : list value),
    derived row -> I table -> I (table ++ [row])%list.

Lemma preserves_update_derived
  (fields : props) (fs : list (string * value)) :
  (forall row, derived (assign fields row)) ->
  preserves I (await (update_single fields fs)).
Proof.
  intros Hassign. apply preserves_await. intros d H.
  destruct (update_single_rows fields fs d) as [-> | ->]; [exact H|].
  apply I_map; [|exact H].
  intros row. destruct (matches fs row); auto.
Qed.

Lemma preserves_insert_derived (payload : props) :
  (forall id, derived (VObj (("id", id) :: payload))) ->
  preserves I (await (insert_single payload)).
Proof.
  intros Hnew. apply preserves_await. intros d H.
  destruct (insert_single_rows payload d) as [-> | [id ->]]; [exact H|].
  now apply I_app.
Qed.

Lemma Scored_persistRounds_derives (customerId id rounds : value) :
  preserves I (Scored.persistRounds customerId id rounds).
Proof.
  unfold Scored.persistRounds. apply preserves_bind.
  - apply preserves_update_derived. intros row. apply derived_after_persist.
  - intros r. step_preserves.
Qed.

Lemma Scored_getTournamentOwned_preserves (customerId id : value) :
  preserves I (Scored.getTournamentOwned customerId id).
Proof. unfold Scored.getTournamentOwned. step_preserves. Qed.

Lemma Scored_createTournament_derives (customerId q : value) :
  preserves I (Scored.createTournament customerId q).
Proof.
  unfold Scored.createTournament.
  destruct (_ || _); [apply preserves_ret|].
  apply preserves_bind.
  - apply preserves_insert_derived. intros id.
    now apply derived_when_created.
  - intros r. step_preserves.
Qed.

Lemma Scored_addRound_derives (customerId id : value) :
  preserves I (Scored.addRound customerId id).
Proof.
  unfold Scored.addRound. apply preserves_bind.
  - apply Scored_getTournamentOwned_preserves.
  - intros got. destruct (negb _); [apply preserves_ret|].
    apply preserves_bind; [apply preserves_orTypeError|].
    intros stored.
    destruct (or_else stored (VArr [])); try apply preserves_throw.
    apply Scored_persistRounds_derives.
Qed.

Lemma Scored_updateRound_derives (customerId id q : value) :
  preserves I (Scored.updateRound customerId id q).
Proof.
  unfold Scored.updateRound.
  destruct (negb _); [apply preserves_ret|].
  apply preserves_bind; [apply Scored_getTournamentOwned_preserves|].
  intros got. destruct (negb _); [apply preserves_ret|].
  apply preserves_bind; [apply preserves_orTypeError|].
  intros stored.
  destruct (or_else stored (VArr [])); try apply preserves_throw.
  apply preserves_bind; [apply preserves_orTypeError|].
  intros [i|]; [|apply preserves_ret].
  repeat (apply preserves_bind;
          [destruct (negb _); step_preserves | intros ?]).
  apply Scored_persistRounds_derives.
Qed.

End Derived.

(** The two invariants of interest. *)
Lemma writes_derived_map (before : list value) (f : value -> value)
  (table : list value) :
  (forall row, derived (f row) \/ f row = row) ->
  writes_derived before table -> writes_derived before (map f table).
Proof.
  intros Hf H row Hin. apply in_map_iff in Hin as [old [<- Hold]].
  destruct (Hf old) as [Hd | ->]; [now right | now apply H].
Qed.

Lemma writes_derived_app (before : list value) (row : value)
  (table : list value) :
  derived row ->
  writes_derived before table -> writes_derived before (table ++ [row]).
Proof.
  intros Hd H row' Hin. apply in_app_or in Hin as [Hin | [<- | []]];
    [now apply H | now right].
Qed.

Lemma writes_derived_refl (table : list value) : writes_derived table table.
Proof. intros row Hin. now left. Qed.

Lemma Rounds_saveRounds_rows (customerId id rounds : value) (d : db) :
  rows (snd (Rounds.saveRounds customerId id rounds d))
  = rows (snd (update_single [("rounds", rounds)] (owned customerId id) d)).
Proof.
  unfold Rounds.saveRounds, bind, await.
  destruct (update_single _ _ d) as [[data|message] d']; reflexivity.
Qed.

Lemma assign_rounds_keeps_score (rounds row : value) :
  get (assign [("rounds", rounds)] row) "score" = get row "score".
Proof.
  unfold assign. cbn [fold_left fst snd].
  rewrite get_put_other by discriminate. now apply get_spread.
Qed.

Lemma Rounds_saveRounds_keeps_score (customerId id rounds : value) (d : db) :
  Forall2 (fun old new => get new "score" = get old "score")
          (rows d) (rows (snd (Rounds.saveRounds customerId id rounds d))).
Proof.
  rewrite Rounds_saveRounds_rows.
  destruct (update_single_rows [("rounds", rounds)] (owned customerId id) d)
    as [-> | ->].
  - induction (rows d); constructor; auto.
  - induction (rows d) as [|row l IH]; cbn [map]; constructor; [|exact IH].
    destruct (matches _ row); [apply assign_rounds_keeps_score | reflexivity].
Qed.

(** X25.  In the scoring proxy, creation, addRound and updateRound
    leave every stored tournament as it was or write it with the
    sanitized rounds and, in the same write, the score of those rounds:
    a tournament it has written has its score equal to the score of its
    stored rounds, and rounds that the sanitizer leaves as they are. *)
Theorem score_follows_rounds_where_scored
  (customerId id q : value) (d : db) (row : value) :
  In row (rows (snd (Scored.createTournament customerId q d)))
  \/ In row (rows (snd (Scored.addRound customerId id d)))
  \/ In row (rows (snd (Scored.updateRound customerId id q d))) ->
  In row (rows d)
  \/ (get row "score" = computeScore (get row "rounds")
      /\ sanitizeRounds (get row "rounds") = get row "rounds").
Proof.
  assert (Hcreate : writes_derived (rows d)
                      (rows (snd (Scored.createTournament customerId q d)))).
  { apply (Scored_createTournament_derives _ (writes_derived_app (rows d))).
    apply writes_derived_refl. }
  assert (Hadd : writes_derived (rows d)
                   (rows (snd (Scored.addRound customerId id d)))).
  { apply (Scored_addRound_derives _ (writes_derived_map (rows d))).
    apply writes_derived_refl. }
  assert (Hupdate : writes_derived (rows d)
                      (rows (snd (Scored.updateRound customerId id q d)))).
  { apply (Scored_updateRound_derives _ (writes_derived_map (rows d))).
    apply writes_derived_refl. }
  intros [H | [H | H]]; [now apply Hcreate | now apply Hadd
                         | now apply Hupdate].
Qed.

(** A tournament created and given a round by the scoring proxy. *)
Lemma score_follows_rounds_where_scored_witness :
  exists row,
    rows open_tournament = [row]
    /\ get row "rounds" = VArr [new_round (VInt 1)]
    /\ get row "score" = computeScore (get row "rounds").
Proof.
  eexists. split; [reflexivity|]. split; [reflexivity|].
  destruct (score_follows_rounds_where_scored
              (VStr "42") (VStr "1") VNull created_by_scored
              (nth 0 (rows open_tournament) VUndef))
    as [Hold | [Hscore _]].
  - right. left. left. reflexivity.
  - destruct Hold as [Hold | []]. discriminate Hold.
  - exact Hscore.
Defined.

(** C2 fails in the round-editing proxy.  The tournament it creates has
    score {}, where the score of no rounds is 0-0-0; after addRound the
    stored score is still {}; after updateRound has recorded a won first
    game the stored score is still {}, where the score of the stored
    rounds is 1-0-0. *)
Theorem Rounds_proxy_leaves_score_stale :
  (exists row,
      rows created_by_rounds = [row]
      /\ get row "rounds" = VArr []
      /\ get row "score" = VObj []
      /\ scores (computeScore (get row "rounds")) 0 0 0
      /\ ~ score_consistent row)
  /\ (exists row,
         fst (Rounds.addRound (VStr "42") (VStr "1") created_by_rounds)
         = Returned (success row)
         /\ rows round_added_by_rounds = [row]
         /\ get row "rounds" = VArr [new_round (VInt 1)]
         /\ get row "score" = VObj []
         /\ scores (computeScore (get row "rounds")) 0 0 0
         /\ ~ score_consistent row)
  /\ (exists row,
         fst (Rounds.updateRound (VStr "42") (VStr "1") patch_first_win
                                 round_added_by_rounds)
         = Returned (success row)
         /\ rows round_won_by_rounds = [row]
         /\ get (nth 0 (elements (get (first_round row) "games")) VUndef)
                "result" = VStr "W"
         /\ get row "score" = VObj []
         /\ scores (computeScore (get row "rounds")) 1 0 0
         /\ ~ score_consistent row).
Proof.
  split; [|split].
  - eexists. split; [vm_compute; reflexivity|].
    repeat split. intros H. discriminate H.
  - eexists. split; [vm_compute; reflexivity|].
    repeat split. intros H. discriminate H.
  - eexists. split; [vm_compute; reflexivity|].
    repeat split. intros H. discriminate H.
Qed.

(** ** Computations that do not write *)

Lemma reads_only_ret {A} (Q : A -> Prop) (a : A) :
  Q a -> reads_only Q (ret a).
Proof. intros H d. now split. Qed.

Lemma reads_only_throw {A} (Q : A -> Prop) (e : string) :
  reads_only Q (throw e).
Proof. intros d. now split. Qed.

Lemma reads_only_orTypeError {A} (Q : A -> Prop) (o : option A) :
  (forall a, o = Some a -> Q a) -> reads_only Q (orTypeError o).
Proof.
  intros H. destruct o; [apply reads_only_ret; auto | apply reads_only_throw].
Qed.

Lemma reads_only_bind {A B} (R : A -> Prop) (Q : B -> Prop)
  (m : M A) (k : A -> M B) :
  reads_only R m -> (forall a, R a -> reads_only Q (k a)) ->
  reads_only Q (bind m k).
Proof.
  intros Hm Hk d. unfold bind. destruct (Hm d) as [Hrows Hres].
  destruct (m d) as [[a|e] d']; simpl in *.
  - destruct (Hk a Hres d') as [Hrows' Hres']. split; [congruence | exact Hres'].
  - now split.
Qed.

Lemma reads_only_select_single (fs : list (string * value)) :
  reads_only (fun _ => True) (await (select_single fs)).
Proof.
  intros d. unfold await.
  pose proof (select_single_rows fs d) as H.
  destruct (select_single fs d). now split.
Qed.

Lemma Rounds_getTournamentOwned_reads (customerId id : value) :
  reads_only found_or_not (Rounds.getTournamentOwned customerId id).
Proof.
  unfold Rounds.getTournamentOwned.
  destruct (negb _).
  - apply reads_only_ret. left. now eexists.
  - eapply reads_only_bind; [apply reads_only_select_single|].
    intros [data|message] _; apply reads_only_ret;
      [right | left]; now eexists.
Qed.

(** At a validation test: refuse here, or go on knowing the field passed. *)
Ltac refuse_or_go :=
  match goal with
  | |- reads_only refused (if ?c then _ else _) =>
      let E := fresh "E" in
      destruct c eqn:E; [apply reads_only_ret; reflexivity|]
  end.

Lemma Rounds_edit_games_refuses (q round : value) :
  Rounds.rejected q "g1" (normalizeResult (get q "g1"))
  || Rounds.rejected q "g2" (normalizeResult (get q "g2"))
  || Rounds.rejected q "g3" (normalizeResult (get q "g3"))
  || Rounds.rejected q "g1_turn" (normalizeTurn (get q "g1_turn"))
  || Rounds.rejected q "g2_turn" (normalizeTurn (get q "g2_turn"))
  || Rounds.rejected q "g3_turn" (normalizeTurn (get q "g3_turn")) = true ->
  reads_only refused (Rounds.edit_games q round).
Proof.
  intros Hrej. unfold Rounds.edit_games.
  eapply reads_only_bind with (R := fun _ => True).
  { apply reads_only_orTypeError. auto. }
  intros round' _.
  do 6 refuse_or_go. discriminate Hrej.
Qed.

Lemma Rounds_edit_round_refuses (q round : value) :
  patch_rejected q = true -> reads_only refused (Rounds.edit_round q round).
Proof.
  intros Hrej. unfold patch_rejected in Hrej. unfold Rounds.edit_round.
  eapply reads_only_bind with (R := fun _ => True).
  { destruct (Rounds.present q "op_p1" || Rounds.present q "op_p2");
      [|now apply reads_only_ret].
    eapply reads_only_bind with (R := fun _ => True);
      [apply reads_only_orTypeError; auto|].
    intros r1 _.
    eapply reads_only_bind with (R := fun _ => True).
    - destruct (Rounds.present q "op_p1");
        [apply reads_only_orTypeError; auto | now apply reads_only_ret].
    - intros r2 _.
      destruct (Rounds.present q "op_p2");
        [apply reads_only_orTypeError; auto | now apply reads_only_ret]. }
  intros round' _. refuse_or_go.
  eapply reads_only_bind with (R := fun _ => True).
  { destruct (Rounds.present q "special");
      [apply reads_only_orTypeError; auto | now apply reads_only_ret]. }
  intros round'' _. apply Rounds_edit_games_refuses. exact Hrej.
Qed.

Lemma Rounds_updateRound_refuses (customerId id q : value) :
  patch_rejected q = true ->
  reads_only (fun v => get v "ok" = VBool false)
             (Rounds.updateRound customerId id q).
Proof.
  intros Hrej. unfold Rounds.updateRound.
  destruct (negb (truthy id)); [now apply reads_only_ret|].
  destruct (negb (truthy _)); [now apply reads_only_ret|].
  eapply reads_only_bind; [apply Rounds_getTournamentOwned_reads|].
  intros got [[error ->] | [row ->]]; [now apply reads_only_ret|].
  cbn [negb truthy get lookup success String.eqb Ascii.eqb Bool.eqb].
  eapply reads_only_bind with (R := fun _ => True);
    [apply reads_only_orTypeError; auto|].
  intros stored _.
  destruct (findIndex _ _) as [idx|]; [|now apply reads_only_ret].
  eapply reads_only_bind; [apply (Rounds_edit_round_refuses _ _ Hrej)|].
  intros [round|answer] Hre; [contradiction|].
  now apply reads_only_ret.
Qed.

(** X20. The validating [updateRound] is all-or-nothing: a patch with a
    field that is present and not valid fails, and nothing is written. *)
Theorem Rounds_updateRound_rejects_whole_patch
  (customerId id q : value) (d : db) :
  patch_rejected q = true ->
  failed (fst (Rounds.updateRound customerId id q d))
  /\ rows (snd (Rounds.updateRound customerId id q d)) = rows d.
Proof.
  intros Hrej.
  destruct (Rounds_updateRound_refuses customerId id q Hrej d) as [Hrows Hres].
  split; [|exact Hrows]. unfold failed.
  now destruct (fst (Rounds.updateRound customerId id q d)).
Qed.

Lemma Rounds_updateRound_rejects_whole_patch_witness :
  failed (fst (Rounds.updateRound (VStr "42") (VStr "1") patch_bad_result
                                  open_tournament))
  /\ rows (snd (Rounds.updateRound (VStr "42") (VStr "1") patch_bad_result
                                   open_tournament))
     = rows open_tournament.
Proof.
  apply (Rounds_updateRound_rejects_whole_patch
           (VStr "42") (VStr "1") patch_bad_result open_tournament).
  reflexivity.
Defined.

(** C3 at a failing input.  The patch {round_number: 1, op_p1: 7, g1: X}
    has an invalid g1.  The scoring proxy's [updateRound] answers ok,
    writes the round with p1 = 7 and leaves g1 alone; with an invalid
    special it answers ok and writes the round with special undefined.
    The round-editing proxy's [updateRound] refuses both and writes
    nothing. *)
Theorem Scored_updateRound_applies_part_of_invalid_patch :
  patch_rejected patch_bad_result = true
  /\ patch_rejected patch_bad_special = true
  /\ (exists row,
         Scored.updateRound (VStr "42") (VStr "1") patch_bad_result
                            open_tournament
         = (Returned (success row), Db [row] 2 [])
         /\ get (get (first_round row) "opponent_deck") "p1" = VInt 7
         /\ [row] <> rows open_tournament)
  /\ (exists row,
         Scored.updateRound (VStr "42") (VStr "1") patch_bad_special
                            open_tournament
         = (Returned (success row), Db [row] 2 [])
         /\ get (first_round row) "special" = VUndef
         /\ [row] <> rows open_tournament)
  /\ Rounds.updateRound (VStr "42") (VStr "1") patch_bad_result
                        open_tournament
     = (Returned (failure "Invalid g1 value"), open_tournament)
  /\ Rounds.updateRound (VStr "42") (VStr "1") patch_bad_special
                        open_tournament
     = (Returned (failure "Invalid special value"), open_tournament).
Proof.
  split; [reflexivity|]. split; [reflexivity|].
  split; [|split; [|split]].
  - eexists. split; [vm_compute; reflexivity|].
    split; [reflexivity | intros H; discriminate H].
  - eexists. split; [vm_compute; reflexivity|].
    split; [reflexivity | intros H; discriminate H].
  - vm_compute. reflexivity.
  - vm_compute. reflexivity.
Qed.

(** ** Order on finite numbers *)


Lemma dec_Q_succ (m e : Z) :
  match num_succ (Fin m e) with
  | Fin m' e' => dec_Q m' e' == dec_Q m e + 1
  | _ => False
  end.
Proof.
  unfold num_succ, dec_Q. destruct (0 <=? e) eqn:He.
  - cbn [Z.leb]. rewrite Z.pow_0_r, Z.mul_1_r.
    rewrite inject_Z_plus. reflexivity.
  - rewrite He. apply Z.leb_gt in He.
    assert (Hpos : 0 < 10 ^ (- e)) by (apply Z.pow_pos_nonneg; lia).
    unfold Qeq, Qplus. cbn [Qnum Qden].
    rewrite Pos2Z.inj_mul, !Z2Pos.id by exact Hpos. ring.
Qed.

Lemma num_leb_refl (x : number) : isFinite x = true -> num_leb x x = true.
Proof.
  destruct x as [| |m e]; try discriminate. intros _. simpl.
  apply Qle_bool_iff. apply Qle_refl.
Qed.

Lemma num_leb_trans (x y z : number) :
  isFinite x = true -> isFinite y = true -> isFinite z = true ->
  num_leb x y = true -> num_leb y z = true -> num_leb x z = true.
Proof.
  destruct x as [| |m e], y as [| |m' e'], z as [| |m'' e''];
    try discriminate.
  intros _ _ _. simpl. rewrite !Qle_bool_iff. apply Qle_trans.
Qed.

Lemma num_leb_total (x y : number) :
  isFinite x = true -> isFinite y = true ->
  num_leb x y = false -> num_leb y x = true.
Proof.
  destruct x as [| |m e], y as [| |m' e']; try discriminate.
  intros _ _. simpl. intros H. apply Qle_bool_iff.
  destruct (Qlt_le_dec (dec_Q m e) (dec_Q m' e')) as [Hlt|Hle];
    [|exact Hle].
  apply Qlt_le_weak in Hlt. apply Qle_bool_iff in Hlt. congruence.
Qed.

Lemma num_succ_above (n x : number) :
  isFinite n = true -> isFinite x = true ->
  num_leb n x = true -> num_lt n (num_succ x).
Proof.
  destruct n as [| |m e], x as [| |m' e']; try discriminate.
  intros _ _ Hle. unfold num_lt.
  pose proof (dec_Q_succ m' e') as Hs.
  destruct (num_succ (Fin m' e')) as [| |m'' e'']; try contradiction.
  simpl in *. apply Qle_bool_iff in Hle.
  destruct (Qle_bool (dec_Q m'' e'') (dec_Q m e)) eqn:E; [|reflexivity].
  apply Qle_bool_iff in E. rewrite Hs in E. lra.
Qed.

Lemma Math_max_finite (x y : number) :
  isFinite x = true -> isFinite y = true ->
  isFinite (Math_max x y) = true
  /\ num_leb x (Math_max x y) = true
  /\ num_leb y (Math_max x y) = true
  /\ (Math_max x y = x \/ Math_max x y = y).
Proof.
  intros Hx Hy.
  assert (Hmax : Math_max x y = if num_leb x y then y else x)
    by (destruct x, y; try discriminate; reflexivity).
  rewrite Hmax. destruct (num_leb x y) eqn:E.
  - repeat split; auto using num_leb_refl.
  - repeat split; auto using num_leb_refl, num_leb_total.
Qed.

Lemma Math_max_int (a b : Z) :
  a <= b -> Math_max (Fin a 0) (Fin b 0) = Fin b 0.
Proof.
  intros Hab. unfold Math_max, num_leb, dec_Q.
  change (0 <=? 0) with true. cbv iota.
  rewrite !Z.pow_0_r, !Z.mul_1_r.
  assert (H : Qle_bool (inject_Z a) (inject_Z b) = true).
  { apply Qle_bool_iff. now rewrite <- Zle_Qle. }
  now rewrite H.
Qed.

(** ** The next round number *)

Lemma max_step_spec (m : number) (r : value) :
  isFinite m = true ->
  isFinite (Rounds.max_step m r) = true
  /\ num_leb m (Rounds.max_step m r) = true
  /\ (forall n, In n (round_numbers [r]) ->
                num_leb n (Rounds.max_step m r) = true)
  /\ (Rounds.max_step m r = m \/ In (Rounds.max_step m r) (round_numbers [r])).
Proof.
  intros Hm. unfold Rounds.max_step, round_numbers. cbn [map filter].
  destruct (isFinite (ToNumber (get r "round_number"))) eqn:Hn.
  - destruct (Math_max_finite _ _ Hm Hn) as [Hf [Hl [Hr Hor]]].
    split; [exact Hf|]. split; [exact Hl|]. split.
    + intros n [<-|[]]. exact Hr.
    + destruct Hor as [->| ->]; [now left | right; now left].
  - split; [exact Hm|]. split; [now apply num_leb_refl|]. split.
    + intros n [].
    + now left.
Qed.

Lemma round_numbers_cons (r : value) (rounds : list value) :
  round_numbers (r :: rounds) = (round_numbers [r] ++ round_numbers rounds)%list.
Proof.
  unfold round_numbers. cbn [map filter].
  now destruct (isFinite (ToNumber (get r "round_number"))).
Qed.

Lemma maxRound_from (rounds : list value) (m : number) :
  isFinite m = true ->
  let top := fold_left Rounds.max_step rounds m in
  isFinite top = true
  /\ num_leb m top = true
  /\ (forall n, In n (round_numbers rounds) -> num_leb n top = true)
  /\ (top = m \/ In top (round_numbers rounds)).
Proof.
  revert m. induction rounds as [|r rounds IH]; intros m Hm; cbn [fold_left].
  - split; [exact Hm|]. split; [now apply num_leb_refl|]. split.
    + intros n [].
    + now left.
  - destruct (max_step_spec m r Hm) as [Hf [Hl [Hr Hor]]].
    destruct (IH _ Hf) as [Hf' [Hl' [Hr' Hor']]].
    assert (Hfin : forall n, In n (round_numbers [r]) -> isFinite n = true).
    { intros n Hn. unfold round_numbers in Hn.
      apply filter_In in Hn. tauto. }
    rewrite round_numbers_cons.
    split; [exact Hf'|]. split; [|split].
    + apply num_leb_trans with (Rounds.max_step m r); auto.
    + intros n Hn. apply in_app_or in Hn as [Hn|Hn]; [|now apply Hr'].
      apply num_leb_trans with (Rounds.max_step m r); auto.
    + destruct Hor' as [Heq|Hin]; [|right; apply in_or_app; now right].
      rewrite Heq. destruct Hor as [->|Hin]; [now left|].
      right. apply in_or_app. now left.
Qed.

Lemma newRoundNumber_fresh (rounds : list value) :
  (Rounds.maxRound rounds = Fin 0 0
   \/ In (Rounds.maxRound rounds) (round_numbers rounds))
  /\ forall n, In n (round_numbers rounds) ->
               num_lt n (Rounds.newRoundNumber rounds).
Proof.
  destruct (maxRound_from rounds (Fin 0 0) eq_refl) as [Hf [_ [Hup Hor]]].
  split; [exact Hor|].
  intros n Hn. apply num_succ_above; auto.
  unfold round_numbers in Hn. apply filter_In in Hn. tauto.
Qed.

Lemma numbered_maxRound (rounds : list value) (n : Z) :
  0 <= n ->
  numbered_from (n + 1) rounds ->
  fold_left Rounds.max_step rounds (Fin n 0)
  = Fin (n + Z.of_nat (List.length rounds)) 0.
Proof.
  revert n. induction rounds as [|r rounds IH]; intros n Hn Hnum;
    cbn [fold_left List.length].
  - now rewrite Z.add_0_r.
  - destruct Hnum as [Hr Hrest].
    assert (Hstep : Rounds.max_step (Fin n 0) r = Fin (n + 1) 0).
    { unfold Rounds.max_step. rewrite Hr.
      cbn [ToNumber VInt num_of_Z isFinite]. apply Math_max_int. lia. }
    rewrite Hstep, IH by (auto; lia). apply (f_equal (fun z => Fin z 0)). lia.
Qed.

Lemma numbered_from_app (rounds : list value) (n : Z) (r : value) :
  numbered_from n rounds ->
  get r "round_number" = VInt (n + Z.of_nat (List.length rounds)) ->
  numbered_from n (rounds ++ [r]).
Proof.
  revert n. induction rounds as [|x rounds IH]; intros n Hnum Hr;
    cbn [app numbered_from List.length] in *.
  - rewrite Z.add_0_r in Hr. now split.
  - destruct Hnum as [Hx Hrest]. split; [exact Hx|].
    apply IH; [exact Hrest|]. rewrite Hr. apply f_equal. lia.
Qed.

Lemma numbered_next (rounds : list value) :
  numbered rounds ->
  Scored.nextNumber rounds = VNum (Rounds.newRoundNumber rounds)
  /\ numbered (rounds ++ [new_round (Scored.nextNumber rounds)]).
Proof.
  intros Hnum. unfold Rounds.newRoundNumber, Rounds.maxRound.
  rewrite (numbered_maxRound rounds 0) by (auto; lia).
  unfold Scored.nextNumber, VInt, num_of_Z, num_succ. cbn [Z.leb].
  rewrite Z.pow_0_r, Z.mul_1_r, Z.add_0_l. split.
  - reflexivity.
  - apply numbered_from_app; [exact Hnum|].
    change (VNum (Fin (Z.of_nat (List.length rounds) + 1) 0)
            = VInt (1 + Z.of_nat (List.length rounds))).
    apply (f_equal VInt). lia.
Qed.

(** ** [addRound], end to end *)

Lemma select_single_found (fs : list (string * value)) (d : db) (row : value) :
  outages d = [] -> filter (matches fs) (rows d) = [row] ->
  select_single fs d = (Data row, d).
Proof.
  intros Hup Hrow. unfold select_single, transport.
  rewrite Hup. cbn [negb]. now rewrite Hrow.
Qed.

Lemma update_single_found
  (fields : props) (fs : list (string * value)) (d : db) (row : value) :
  outages d = [] -> filter (matches fs) (rows d) = [row] ->
  fst (update_single fields fs d) = Data (assign fields row).
Proof.
  intros Hup Hrow. unfold update_single, transport.
  rewrite Hup. cbn [negb]. now rewrite Hrow.
Qed.

Lemma rounds_of_object (row : value) (rounds : list value) :
  get row "rounds" = VArr rounds -> get_strict row "rounds" = Some (VArr rounds).
Proof.
  intros H. unfold get_strict. rewrite H.
  now destruct row.
Qed.

Lemma Rounds_addRound_appends
  (customerId id row : value) (rounds : list value) (d : db) :
  outages d = [] -> truthy id = true ->
  filter (matches (owned customerId id)) (rows d) = [row] ->
  get row "rounds" = VArr rounds ->
  fst (Rounds.addRound customerId id d)
  = Returned
      (success
         (assign [("rounds",
                   VArr (rounds
                         ++ [new_round (VNum (Rounds.newRoundNumber rounds))]))]
                 row)).
Proof.
  intros Hup Hid Hrow Hrounds.
  unfold Rounds.addRound, Rounds.getTournamentOwned, Rounds.saveRounds,
    bind, await.
  rewrite Hid. cbn [negb].
  rewrite (select_single_found _ _ _ Hup Hrow).
  cbn [ret success get lookup String.eqb Ascii.eqb Bool.eqb truthy negb].
  rewrite (rounds_of_object _ _ Hrounds).
  cbn [orTypeError ret elements].
  pose proof (update_single_found
                [("rounds",
                  VArr (rounds
                        ++ [new_round (VNum (Rounds.newRoundNumber rounds))]))]
                _ _ _ Hup Hrow) as Hsave.
  destruct (update_single _ _ d) as [r d']. simpl in Hsave. now subst r.
Qed.

Lemma Scored_addRound_appends
  (customerId id row : value) (rounds : list value) (d : db) :
  outages d = [] ->
  filter (matches (owned customerId id)) (rows d) = [row] ->
  get row "rounds" = VArr rounds ->
  exists row',
    fst (Scored.addRound customerId id d) = Returned (success row')
    /\ get row' "rounds"
       = sanitizeRounds
           (VArr (rounds ++ [new_round (Scored.nextNumber rounds)])).
Proof.
  intros Hup Hrow Hrounds.
  unfold Scored.addRound, Scored.getTournamentOwned, Scored.persistRounds,
    bind, await.
  rewrite (select_single_found _ _ _ Hup Hrow).
  cbn [ret success get lookup String.eqb Ascii.eqb Bool.eqb truthy negb].
  rewrite (rounds_of_object _ _ Hrounds).
  cbn [orTypeError ret or_else truthy].
  set (clean := sanitizeRounds _).
  pose proof (update_single_found
                [("rounds", clean); ("score", computeScore clean)]
                _ _ _ Hup Hrow) as Hsave.
  destruct (update_single _ _ d) as [r d']. simpl in Hsave. subst r.
  eexists. split; [reflexivity|].
  unfold assign. cbn [fold_left fst snd].
  rewrite get_put_other by discriminate. apply get_put_same.
Qed.

Lemma update_single_run
  (fields : props) (fs : list (string * value)) (d : db) (row : value) :
  outages d = [] -> filter (matches fs) (rows d) = [row] ->
  update_single fields fs d
  = (Data (assign fields row), Db (updated fields fs (rows d)) (next_id d) []).
Proof.
  intros Hup Hrow. unfold update_single, transport.
  rewrite Hup. cbn [negb]. now rewrite Hrow, Hup.
Qed.

(** One call of the round-editing [addRound], answer and table. *)
Lemma Rounds_addRound_run
  (customerId id row : value) (rounds : list value) (d : db) :
  outages d = [] -> truthy id = true ->
  filter (matches (owned customerId id)) (rows d) = [row] ->
  get row "rounds" = VArr rounds ->
  let fields :=
    [("rounds",
      VArr (rounds ++ [new_round (VNum (Rounds.newRoundNumber rounds))]))] in
  Rounds.addRound customerId id d
  = (Returned (success (assign fields row)),
     Db (updated fields (owned customerId id) (rows d)) (next_id d) []).
Proof.
  intros Hup Hid Hrow Hrounds fields.
  unfold Rounds.addRound, Rounds.getTournamentOwned, Rounds.saveRounds,
    bind, await.
  rewrite Hid. cbn [negb].
  rewrite (select_single_found _ _ _ Hup Hrow).
  cbn [ret success get lookup String.eqb Ascii.eqb Bool.eqb truthy negb].
  rewrite (rounds_of_object _ _ Hrounds).
  cbn [orTypeError ret elements]. subst fields.
  now rewrite (update_single_run _ _ _ _ Hup Hrow).
Qed.

(** X23.  On a stored tournament whose round numbers are integers on
    which doubles are exact, the round-editing proxy's [addRound] appends
    a round numbered one more than the largest round number in use (0
    when there is none), which is greater than every number in use; it
    answers with the tournament so extended and stores it, leaving the
    other tournaments as they were.  The scoring proxy's [addRound]
    appends a round numbered one more than the number of rounds; that is
    the same number, and the rounds stay numbered 1, 2, ..., whenever
    they were numbered 1, 2, ... before. *)
Theorem addRound_numbers_the_new_round
  (customerId id row : value) (rounds : list value) (d : db) :
  outages d = [] -> truthy id = true ->
  filter (matches (owned customerId id)) (rows d) = [row] ->
  get row "rounds" = VArr rounds ->
  safe_numbers 1 rounds ->
  let top := Rounds.maxRound rounds in
  let fields :=
    [("rounds", VArr (rounds ++ [new_round (VNum (num_succ top))]))] in
  fst (Rounds.addRound customerId id d) = Returned (success (assign fields row))
  /\ rows (snd (Rounds.addRound customerId id d))
     = updated fields (owned customerId id) (rows d)
  /\ num_leb (Fin 0 0) top = true
  /\ (top = Fin 0 0 \/ In top (round_numbers rounds))
  /\ (forall n, In n (round_numbers rounds) ->
                num_leb n top = true /\ num_lt n (num_succ top))
  /\ (exists row',
         fst (Scored.addRound customerId id d) = Returned (success row')
         /\ get row' "rounds"
            = sanitizeRounds
                (VArr (rounds
                       ++ [new_round
                             (VInt (Z.of_nat (List.length rounds) + 1))])))
  /\ (numbered rounds ->
      VInt (Z.of_nat (List.length rounds) + 1) = VNum (num_succ top)
      /\ numbered (rounds ++ [new_round (VNum (num_succ top))])).
Proof.
  intros Hup Hid Hrow Hrounds _ top fields.
  pose proof (Rounds_addRound_run _ _ row _ _ Hup Hid Hrow Hrounds) as Hrun.
  cbv zeta in Hrun.
  split; [now rewrite Hrun|]. split; [now rewrite Hrun|].
  destruct (maxRound_from rounds (Fin 0 0) eq_refl) as [Hf [H0 [Hle Hor]]].
  split; [exact H0|]. split; [exact Hor|]. split; [|split].
  - intros n Hn. split; [now apply Hle|].
    now apply (proj2 (newRoundNumber_fresh rounds)).
  - exact (Scored_addRound_appends _ _ row _ _ Hup Hrow Hrounds).
  - intros Hnum. destruct (numbered_next rounds Hnum) as [Hsame Hstill].
    split; [exact Hsame|].
    change (VNum (num_succ top)) with (VNum (Rounds.newRoundNumber rounds)).
    now rewrite <- Hsame.
Qed.

(** Round 4 after rounds 1 and 3 in the round-editing proxy. *)
Lemma addRound_numbers_the_new_round_witness :
  exists row,
    filter (matches (owned (VStr "42") (VStr "1"))) (rows gapped_tournament)
    = [row]
    /\ fst (Rounds.addRound (VStr "42") (VStr "1") gapped_tournament)
       = Returned
           (success
              (assign [("rounds",
                        VArr (gapped_rounds ++ [new_round (VInt 4)]))] row)).
Proof.
  eexists. split; [reflexivity|].
  refine (proj1 (addRound_numbers_the_new_round
                   (VStr "42") (VStr "1") _ gapped_rounds gapped_tournament
                   eq_refl eq_refl eq_refl eq_refl _)).
  intros n [<-|[<-|[]]]; repeat split.
Defined.


(** ** A valid patch, field by field *)

Lemma bind_ret {A B} (a : A) (k : A -> M B) : bind (ret a) k = k a.
Proof. reflexivity. Qed.

Lemma apply_field_object (q : value) (k field : string) (x : value) (g : props) :
  Rounds.apply_field q k field x (VObj g)
  = Some (VObj (if Rounds.present q k then put field x g else g)).
Proof. unfold Rounds.apply_field. now destruct (Rounds.present q k). Qed.

Lemma get_patched (q : value) (k field : string) (x : value) (g : props) :
  get (VObj (if Rounds.present q k then put field x g else g)) field
  = patched q k x (get (VObj g) field).
Proof.
  unfold patched. destruct (Rounds.present q k); [apply get_put_same|reflexivity].
Qed.

Lemma get_patched_other (q : value) (k field other : string) (x : value)
  (g : props) :
  other <> field ->
  get (VObj (if Rounds.present q k then put field x g else g)) other
  = get (VObj g) other.
Proof.
  intros H. destruct (Rounds.present q k); [now apply get_put_other|reflexivity].
Qed.

Lemma byNum_three (g1 g2 g3 : props) :
  get (VObj g1) "game" = VInt 1 ->
  get (VObj g2) "game" = VInt 2 ->
  get (VObj g3) "game" = VInt 3 ->
  exists entries,
    Rounds.byNum [VObj g1; VObj g2; VObj g3] = Some entries
    /\ Rounds.map_get (Fin 1 0) entries = VObj g1
    /\ Rounds.map_get (Fin 2 0) entries = VObj g2
    /\ Rounds.map_get (Fin 3 0) entries = VObj g3.
Proof.
  intros H1 H2 H3.
  exists [(Fin 1 0, VObj g1); (Fin 2 0, VObj g2); (Fin 3 0, VObj g3)].
  split; [|repeat split].
  unfold Rounds.byNum, get_strict. cbn [nullish]. now rewrite H1, H2, H3.
Qed.

Lemma Rounds_edit_games_applies (q : value) (ps g1 g2 g3 : props) :
  get (VObj ps) "games" = VArr [VObj g1; VObj g2; VObj g3] ->
  get (VObj g1) "game" = VInt 1 ->
  get (VObj g2) "game" = VInt 2 ->
  get (VObj g3) "game" = VInt 3 ->
  Rounds.rejected q "g1" (normalizeResult (get q "g1")) = false ->
  Rounds.rejected q "g2" (normalizeResult (get q "g2")) = false ->
  Rounds.rejected q "g3" (normalizeResult (get q "g3")) = false ->
  Rounds.rejected q "g1_turn" (normalizeTurn (get q "g1_turn")) = false ->
  Rounds.rejected q "g2_turn" (normalizeTurn (get q "g2_turn")) = false ->
  Rounds.rejected q "g3_turn" (normalizeTurn (get q "g3_turn")) = false ->
  exists g1' g2' g3' : value,
    Rounds.edit_games q (VObj ps)
    = ret (Rounds.Edited (VObj (put "games" (VArr [g1'; g2'; g3']) ps)))
    /\ (get g1' "game" = VInt 1 /\ get g2' "game" = VInt 2
        /\ get g3' "game" = VInt 3)
    /\ (get g1' "result"
        = patched q "g1" (normalizeResult (get q "g1")) (get (VObj g1) "result")
        /\ get g2' "result"
           = patched q "g2" (normalizeResult (get q "g2")) (get (VObj g2) "result")
        /\ get g3' "result"
           = patched q "g3" (normalizeResult (get q "g3")) (get (VObj g3) "result"))
    /\ (get g1' "turn"
        = patched q "g1_turn" (normalizeTurn (get q "g1_turn"))
                  (get (VObj g1) "turn")
        /\ get g2' "turn"
           = patched q "g2_turn" (normalizeTurn (get q "g2_turn"))
                     (get (VObj g2) "turn")
        /\ get g3' "turn"
           = patched q "g3_turn" (normalizeTurn (get q "g3_turn"))
                     (get (VObj g3) "turn")).
Proof.
  intros Hgames H1 H2 H3 R1 R2 R3 T1 T2 T3.
  destruct (byNum_three g1 g2 g3 H1 H2 H3) as [entries [Hby [M1 [M2 M3]]]].
  do 3 eexists. split.
  - unfold Rounds.edit_games. rewrite Hgames. cbn [isArray set elements].
    cbn [orTypeError]. rewrite bind_ret.
    rewrite R1, R2, R3, T1, T2, T3, Hby. cbn [orTypeError]. rewrite bind_ret.
    rewrite M1, M2, M3. cbn [or_else truthy].
    rewrite !apply_field_object. cbn [orTypeError]. rewrite !bind_ret.
    rewrite !apply_field_object. cbn [orTypeError]. rewrite !bind_ret.
    cbn [set orTypeError]. rewrite bind_ret, put_put_same. reflexivity.
  - repeat split;
      rewrite ?get_patched, ?get_patched_other by discriminate;
      auto using get_patched.
    all: unfold patched; destruct (Rounds.present q _); reflexivity.
Qed.

Lemma set_deck_object (ps deck : props) (k : string) (x : value) :
  get (VObj ps) "opponent_deck" = VObj deck ->
  Rounds.set_deck (VObj ps) k x
  = Some (VObj (put "opponent_deck" (VObj (put k x deck)) ps)).
Proof. intros H. unfold Rounds.set_deck. now rewrite H. Qed.

(** The deck part of [updateRound] on a round with a deck object. *)
Lemma Rounds_edit_deck_applies (q : value) (ps deck : props) :
  get (VObj ps) "opponent_deck" = VObj deck ->
  let opP1 := toIntOrNull (get q "op_p1") in
  let opP2 := toIntOrNull (get q "op_p2") in
  exists ps1 deck1 : props,
    (if Rounds.present q "op_p1" || Rounds.present q "op_p2" then
       bind (orTypeError
               (set (VObj ps) "opponent_deck"
                    (or_else (get (VObj ps) "opponent_deck") empty_deck)))
            (fun round =>
               bind (if Rounds.present q "op_p1"
                     then orTypeError (Rounds.set_deck round "p1" opP1)
                     else ret round)
                    (fun round =>
                       if Rounds.present q "op_p2"
                       then orTypeError (Rounds.set_deck round "p2" opP2)
                       else ret round))
     else ret (VObj ps))
    = ret (VObj ps1)
    /\ get (VObj ps1) "opponent_deck" = VObj deck1
    /\ get (VObj deck1) "p1" = patched q "op_p1" opP1 (get (VObj deck) "p1")
    /\ get (VObj deck1) "p2" = patched q "op_p2" opP2 (get (VObj deck) "p2")
    /\ forall k, k <> "opponent_deck" -> get (VObj ps1) k = get (VObj ps) k.
Proof.
  intros Hdeck opP1 opP2. unfold patched.
  assert (Hps : get (VObj (put "opponent_deck" (VObj deck) ps)) "opponent_deck"
                = VObj deck) by apply get_put_same.
  destruct (Rounds.present q "op_p1") eqn:P1;
    destruct (Rounds.present q "op_p2") eqn:P2; cbn [orb].
  - rewrite Hdeck. cbn [or_else truthy set orTypeError]. rewrite bind_ret.
    rewrite (set_deck_object _ _ _ _ Hps). cbn [orTypeError].
    rewrite bind_ret.
    rewrite (set_deck_object _ (put "p1" opP1 deck)) by apply get_put_same.
    cbn [orTypeError]. do 2 eexists. split; [reflexivity|].
    split; [apply get_put_same|]. split; [|split].
    + rewrite get_put_other by discriminate. apply get_put_same.
    + apply get_put_same.
    + intros k Hk. now rewrite !get_put_other.
  - rewrite Hdeck. cbn [or_else truthy set orTypeError]. rewrite bind_ret.
    rewrite (set_deck_object _ _ _ _ Hps). cbn [orTypeError].
    rewrite bind_ret. do 2 eexists. split; [reflexivity|].
    split; [apply get_put_same|]. split; [|split].
    + apply get_put_same.
    + now rewrite get_put_other by discriminate.
    + intros k Hk. now rewrite !get_put_other.
  - rewrite Hdeck. cbn [or_else truthy set orTypeError]. rewrite !bind_ret.
    rewrite (set_deck_object _ _ _ _ Hps). cbn [orTypeError].
    do 2 eexists. split; [reflexivity|].
    split; [apply get_put_same|]. split; [|split].
    + now rewrite get_put_other by discriminate.
    + apply get_put_same.
    + intros k Hk. now rewrite !get_put_other.
  - exists ps, deck. repeat split. exact Hdeck.
Qed.

Lemma patch_accepted_fields (q : value) :
  patch_rejected q = false ->
  Rounds.rejected q "special" (normalizeSpecial (get q "special")) = false
  /\ Rounds.rejected q "g1" (normalizeResult (get q "g1")) = false
  /\ Rounds.rejected q "g2" (normalizeResult (get q "g2")) = false
  /\ Rounds.rejected q "g3" (normalizeResult (get q "g3")) = false
  /\ Rounds.rejected q "g1_turn" (normalizeTurn (get q "g1_turn")) = false
  /\ Rounds.rejected q "g2_turn" (normalizeTurn (get q "g2_turn")) = false
  /\ Rounds.rejected q "g3_turn" (normalizeTurn (get q "g3_turn")) = false.
Proof.
  unfold patch_rejected. rewrite !orb_false_iff. tauto.
Qed.

(** X21. What [updateRound] makes of a well-formed round under a valid
    patch: every field the patch has is set to its normalized value,
    every other field is as it was. *)
Theorem Rounds_edit_round_applies_valid_patch
  (q round : value) (deck g1 g2 g3 : props) :
  well_formed_round round deck g1 g2 g3 ->
  patch_rejected q = false ->
  exists round' deck' g1' g2' g3' : value,
    Rounds.edit_round q round = ret (Rounds.Edited round')
    /\ (forall k, k <> "opponent_deck" -> k <> "special" -> k <> "games" ->
                  get round' k = get round k)
    /\ get round' "opponent_deck" = deck'
    /\ get deck' "p1"
       = patched q "op_p1" (toIntOrNull (get q "op_p1")) (get (VObj deck) "p1")
    /\ get deck' "p2"
       = patched q "op_p2" (toIntOrNull (get q "op_p2")) (get (VObj deck) "p2")
    /\ get round' "special"
       = patched q "special" (normalizeSpecial (get q "special"))
                 (get round "special")
    /\ get round' "games" = VArr [g1'; g2'; g3']
    /\ (get g1' "game" = VInt 1 /\ get g2' "game" = VInt 2
        /\ get g3' "game" = VInt 3)
    /\ (get g1' "result"
        = patched q "g1" (normalizeResult (get q "g1")) (get (VObj g1) "result")
        /\ get g2' "result"
           = patched q "g2" (normalizeResult (get q "g2")) (get (VObj g2) "result")
        /\ get g3' "result"
           = patched q "g3" (normalizeResult (get q "g3")) (get (VObj g3) "result"))
    /\ (get g1' "turn"
        = patched q "g1_turn" (normalizeTurn (get q "g1_turn"))
                  (get (VObj g1) "turn")
        /\ get g2' "turn"
           = patched q "g2_turn" (normalizeTurn (get q "g2_turn"))
                     (get (VObj g2) "turn")
        /\ get g3' "turn"
           = patched q "g3_turn" (normalizeTurn (get q "g3_turn"))
                     (get (VObj g3) "turn")).
Proof.
  intros [[ps ->] [Hdeck [Hgames [H1 [H2 H3]]]]] Hok.
  destruct (patch_accepted_fields q Hok) as [S [R1 [R2 [R3 [T1 [T2 T3]]]]]].
  destruct (Rounds_edit_deck_applies q ps deck Hdeck)
    as [ps1 [deck1 [Hrun [Hd1 [Hp1 [Hp2 Hrest1]]]]]].
  set (sp := normalizeSpecial (get q "special")) in *.
  set (ps2 := if Rounds.present q "special" then put "special" sp ps1 else ps1).
  assert (Hgames2 : get (VObj ps2) "games" = VArr [VObj g1; VObj g2; VObj g3]).
  { unfold ps2. rewrite get_patched_other by discriminate.
    rewrite Hrest1 by discriminate. exact Hgames. }
  destruct (Rounds_edit_games_applies q ps2 g1 g2 g3
              Hgames2 H1 H2 H3 R1 R2 R3 T1 T2 T3)
    as [g1' [g2' [g3' [Hrun2 [Hnum [Hres Hturn]]]]]].
  exists (VObj (put "games" (VArr [g1'; g2'; g3']) ps2)),
    (VObj deck1), g1', g2', g3'.
  split.
  { unfold Rounds.edit_round. rewrite Hrun, bind_ret. fold sp. rewrite S.
    assert (Hsp : (if Rounds.present q "special"
                   then orTypeError (set (VObj ps1) "special" sp)
                   else ret (VObj ps1)) = ret (VObj ps2)).
    { unfold ps2. now destruct (Rounds.present q "special"). }
    rewrite Hsp, bind_ret. exact Hrun2. }
  split.
  { intros k Hk1 Hk2 Hk3. rewrite get_put_other by exact Hk3.
    unfold ps2. rewrite get_patched_other by exact Hk2. now apply Hrest1. }
  split.
  { rewrite get_put_other by discriminate.
    unfold ps2. rewrite get_patched_other by discriminate. exact Hd1. }
  split; [exact Hp1|]. split; [exact Hp2|]. split.
  { rewrite get_put_other by discriminate. unfold ps2.
    rewrite get_patched. now rewrite Hrest1 by discriminate. }
  split; [apply get_put_same|]. auto.
Qed.

Lemma Rounds_edit_round_applies_valid_patch_witness :
  exists round' : value,
    Rounds.edit_round
      (VObj [("round_number", VStr "1"); ("g2", VStr "l");
             ("g1_turn", VStr "first"); ("op_p2", VStr "12")])
      (new_round (VInt 1))
    = ret (Rounds.Edited round')
    /\ get round' "round_number" = VInt 1.
Proof.
  destruct (Rounds_edit_round_applies_valid_patch
              (VObj [("round_number", VStr "1"); ("g2", VStr "l");
                     ("g1_turn", VStr "first"); ("op_p2", VStr "12")])
              (new_round (VInt 1))
              [("p1", VNull); ("p2", VNull)]
              [("game", VInt 1); ("result", VNull); ("turn", VNull)]
              [("game", VInt 2); ("result", VNull); ("turn", VNull)]
              [("game", VInt 3); ("result", VNull); ("turn", VNull)])
    as [round' [deck' [g1' [g2' [g3' [Hrun [Hrest _]]]]]]].
  - split; [now eexists|]. repeat split.
  - reflexivity.
  - exists round'. split; [exact Hrun|].
    rewrite Hrest by discriminate. reflexivity.
Defined.

(** X22. The validating [updateRound], end to end: the round found by
    number is edited and the whole collection is written back with it. *)
Theorem Rounds_updateRound_saves_the_edit
  (customerId id q row round' : value) (rounds : list value) (idx : nat)
  (d : db) :
  outages d = [] -> truthy id = true ->
  truthy (toIntOrNull (get q "round_number")) = true ->
  filter (matches (owned customerId id)) (rows d) = [row] ->
  get row "rounds" = VArr rounds ->
  findIndex (Rounds.is_round (toIntOrNull (get q "round_number"))) rounds
  = Some idx ->
  Rounds.edit_round q (nth idx rounds VUndef) = ret (Rounds.Edited round') ->
  fst (Rounds.updateRound customerId id q d)
  = Returned (success (assign [("rounds", VArr (set_nth idx round' rounds))]
                              row)).
Proof.
  intros Hup Hid Hrn Hrow Hrounds Hidx Hedit.
  unfold Rounds.updateRound, Rounds.getTournamentOwned, Rounds.saveRounds,
    bind, await.
  rewrite Hid, Hrn. cbn [negb].
  rewrite (select_single_found _ _ _ Hup Hrow).
  cbn [ret success get lookup String.eqb Ascii.eqb Bool.eqb truthy negb].
  rewrite (rounds_of_object _ _ Hrounds).
  cbn [orTypeError ret elements]. rewrite Hidx, Hedit. cbn [ret].
  pose proof (update_single_found
                [("rounds", VArr (set_nth idx round' rounds))]
                _ _ _ Hup Hrow) as Hsave.
  destruct (update_single _ _ d) as [r d']. simpl in Hsave. now subst r.
Qed.

Lemma Rounds_updateRound_saves_the_edit_witness :
  exists row' : value,
    fst (Rounds.updateRound (VStr "42") (VStr "1")
           (VObj [("round_number", VStr "3"); ("g1", VStr "w")])
           gapped_tournament)
    = Returned (success row')
    /\ get (nth 0 (elements
                     (get (nth 1 (elements (get row' "rounds")) VUndef)
                          "games")) VUndef) "result" = VStr "W".
Proof.
  eexists. split.
  - eapply (Rounds_updateRound_saves_the_edit
              (VStr "42") (VStr "1")
              (VObj [("round_number", VStr "3"); ("g1", VStr "w")])
              _ _ gapped_rounds 1 gapped_tournament);
      reflexivity.
  - reflexivity.
Defined.

(* ================================================================== *)
(** * Beyond the claims: what every operation does to the table         *)
(* ================================================================== *)

(** ** One update, or none *)

Lemma reads_only_true {A} (Q : A -> Prop) (m : M A) :
  reads_only Q m -> reads_only (fun _ => True) m.
Proof.
  intros H d. destruct (H d) as [Hrows _]. split; [exact Hrows|].
  now destruct (fst (m d)).
Qed.

Section OneUpdate.
Variable filters : list (string * value).
Variable F : props -> Prop.

Lemma one_update_ret (v : value) : one_update filters F (ret v).
Proof. intros d. now left. Qed.

Lemma one_update_throw (e : string) : one_update filters F (throw e).
Proof. intros d. now left. Qed.

Lemma one_update_bind {A} (R : A -> Prop) (m : M A) (k : A -> M value) :
  reads_only R m -> (forall a, R a -> one_update filters F (k a)) ->
  one_update filters F (bind m k).
Proof.
  intros Hm Hk d. unfold bind. destruct (Hm d) as [Hrows Hres].
  destruct (m d) as [[a|e] d']; simpl in *; [|now left].
  destruct (Hk a Hres d') as [Hsame | [fields [row [HF [Hrow [Hmap Hfst]]]]]].
  - left. congruence.
  - right. exists fields, row. rewrite <- Hrows. auto.
Qed.

(** The write every operation ends with. *)
Lemma one_update_write (fields : props) (k : reply -> M value) :
  F fields ->
  (forall data, k (Data data) = ret (success data)) ->
  (forall message, exists v, k (Error message) = ret v) ->
  one_update filters F (bind (await (update_single fields filters)) k).
Proof.
  intros HF Hdata Herror d. unfold bind, await, update_single.
  pose proof (transport_rows d) as Hrows.
  destruct (transport d) as [up d']. simpl in Hrows.
  destruct up; cbn [negb].
  - destruct (filter (matches filters) (rows d')) as [|row [|row' l]] eqn:Hf.
    + destruct (Herror "JSON object requested, multiple (or no) rows returned")
        as [v ->]. now left.
    + rewrite Hdata. right. exists fields, row. rewrite <- Hrows. auto.
    + destruct (Herror "JSON object requested, multiple (or no) rows returned")
        as [v ->]. now left.
  - unfold unavailable. destruct (Herror "service unavailable") as [v ->].
    now left.
Qed.

End OneUpdate.

Lemma Scored_getTournamentOwned_reads (customerId id : value) :
  reads_only found_or_not (Scored.getTournamentOwned customerId id).
Proof.
  unfold Scored.getTournamentOwned.
  eapply reads_only_bind; [apply reads_only_select_single|].
  intros [data|message] _; apply reads_only_ret; [right | left]; now eexists.
Qed.

(** Steps of a handler body that only compute. *)
Ltac step_reads :=
  repeat first
    [ apply reads_only_ret; exact Logic.I
    | apply reads_only_throw
    | apply reads_only_orTypeError; intros; exact Logic.I
    | eapply reads_only_bind with (R := fun _ => True); [|intros ? _]
    | match goal with
      | |- reads_only _ (if ?c then _ else _) => destruct c
      | |- reads_only _ (match ?x with _ => _ end) => destruct x
      end ].

Lemma Rounds_edit_round_reads (q round : value) :
  reads_only (fun _ => True) (Rounds.edit_round q round).
Proof.
  unfold Rounds.edit_round, Rounds.edit_games. cbv zeta. step_reads.
Qed.

Lemma Scored_persistRounds_one_update (customerId id rounds : value) :
  one_update (owned customerId id) rounds_and_score
             (Scored.persistRounds customerId id rounds).
Proof.
  unfold Scored.persistRounds. cbv zeta. apply one_update_write.
  - now exists rounds.
  - reflexivity.
  - intros message. now eexists.
Qed.

Lemma Scored_addRound_one_update (customerId id : value) :
  one_update (owned customerId id) rounds_and_score
             (Scored.addRound customerId id).
Proof.
  unfold Scored.addRound.
  eapply one_update_bind; [apply Scored_getTournamentOwned_reads|].
  intros got _. destruct (negb _); [apply one_update_ret|].
  eapply one_update_bind with (R := fun _ => True); [step_reads|].
  intros stored _.
  destruct (or_else stored (VArr [])); try apply one_update_throw.
  apply Scored_persistRounds_one_update.
Qed.

Lemma Scored_updateRound_one_update (customerId id q : value) :
  one_update (owned customerId id) rounds_and_score
             (Scored.updateRound customerId id q).
Proof.
  unfold Scored.updateRound. cbv zeta.
  destruct (negb _); [apply one_update_ret|].
  eapply one_update_bind; [apply Scored_getTournamentOwned_reads|].
  intros got _. destruct (negb _); [apply one_update_ret|].
  eapply one_update_bind with (R := fun _ => True); [step_reads|].
  intros stored _.
  destruct (or_else stored (VArr [])); try apply one_update_throw.
  eapply one_update_bind with (R := fun _ => True); [step_reads|].
  intros [i|] _; [|apply one_update_ret].
  do 4 (eapply one_update_bind with (R := fun _ => True);
        [step_reads | intros ? _]).
  apply Scored_persistRounds_one_update.
Qed.

Lemma Scored_setFinalResult_one_update (customerId id result : value) :
  one_update (owned customerId id) final_result
             (Scored.setFinalResult customerId id result).
Proof.
  unfold Scored.setFinalResult.
  destruct (existsb _ _) eqn:Hallowed; cbn [negb]; [|apply one_update_ret].
  apply one_update_write.
  - apply existsb_exists in Hallowed as [a [Ha Heq]].
    exists a. split; [exact Ha|].
    destruct result; try discriminate Heq.
    apply String.eqb_eq in Heq. now subst.
  - reflexivity.
  - intros message. now eexists.
Qed.

Lemma Rounds_saveRounds_one_update (customerId id : value) (rounds : list value) :
  one_update (owned customerId id) rounds_alone
             (Rounds.saveRounds customerId id (VArr rounds)).
Proof.
  unfold Rounds.saveRounds. apply one_update_write.
  - now exists rounds.
  - reflexivity.
  - intros message. now eexists.
Qed.

Lemma Rounds_addRound_one_update (customerId id : value) :
  one_update (owned customerId id) rounds_alone
             (Rounds.addRound customerId id).
Proof.
  unfold Rounds.addRound. cbv zeta.
  eapply one_update_bind; [apply Rounds_getTournamentOwned_reads|].
  intros got _. destruct (negb _); [apply one_update_ret|].
  eapply one_update_bind with (R := fun _ => True); [step_reads|].
  intros stored _. apply Rounds_saveRounds_one_update.
Qed.

Lemma Rounds_updateRound_one_update (customerId id q : value) :
  one_update (owned customerId id) rounds_alone
             (Rounds.updateRound customerId id q).
Proof.
  unfold Rounds.updateRound. cbv zeta.
  destruct (negb (truthy id)); [apply one_update_ret|].
  destruct (negb (truthy _)); [apply one_update_ret|].
  eapply one_update_bind; [apply Rounds_getTournamentOwned_reads|].
  intros got _. destruct (negb _); [apply one_update_ret|].
  eapply one_update_bind with (R := fun _ => True); [step_reads|].
  intros stored _.
  destruct (findIndex _ _) as [idx|]; [|apply one_update_ret].
  eapply one_update_bind; [apply Rounds_edit_round_reads|].
  intros [round|answer] _; [|apply one_update_ret].
  apply Rounds_saveRounds_one_update.
Qed.

Lemma writes_column_put (k key : string) (v : value) (ps : props) :
  writes_column (put key v ps) k = true ->
  k = key \/ writes_column ps k = true.
Proof.
  unfold writes_column.
  induction ps as [|[k' v'] ps IH]; cbn [put existsb fst].
  - rewrite orb_false_r. intros H. left. now apply String.eqb_eq.
  - destruct (String.eqb key k') eqn:E; cbn [existsb fst].
    + rewrite orb_true_iff. intros [H|H].
      * left. now apply String.eqb_eq.
      * right. rewrite H. apply orb_true_r.
    + rewrite !orb_true_iff. intros [H|H]; [now right; left|].
      destruct (IH H) as [Hk|Hps]; [now left | right; now right].
Qed.

Lemma updates_within (q : value) (names : list string) (acc : props) (k : string) :
  writes_column
    (fold_left (fun ups key =>
                  if negb (strict_eq (get q key) VUndef)
                  then put key (get q key) ups else ups) names acc) k = true ->
  writes_column acc k = true \/ In k names.
Proof.
  revert acc. induction names as [|name names IH]; intros acc; cbn [fold_left].
  - now left.
  - intros H. destruct (IH _ H) as [Hacc | Hin]; [|right; now right].
    destruct (negb _); [|now left].
    destruct (writes_column_put _ _ _ _ Hacc) as [-> | Hps];
      [right; now left | now left].
Qed.

Lemma Meta_updateTournament_one_update (customerId id q : value) :
  one_update (owned customerId id) meta_fields
             (Meta.updateTournament customerId id q).
Proof.
  unfold Meta.updateTournament. cbv zeta.
  destruct (negb (truthy id)); [apply one_update_ret|].
  match goal with
  | |- context [fold_left ?f Meta.allowed []] =>
      set (updates := fold_left f Meta.allowed [])
  end.
  destruct (List.length (Auth.keys updates) =? 0)%nat eqn:Hnone;
    [apply one_update_ret|].
  apply one_update_write.
  - split.
    + intros Hempty. rewrite Hempty in Hnone. discriminate Hnone.
    + intros k Hk. unfold updates in Hk.
      destruct (updates_within _ _ _ _ Hk) as [Hnil | Hin];
        [discriminate Hnil | exact Hin].
  - reflexivity.
  - intros message. now eexists.
Qed.

(** ** What follows from one update *)

Lemma one_update_failed_keeps (fs : list (string * value)) (F : props -> Prop)
  (m : M value) (d : db) :
  one_update fs F m -> failed (fst (m d)) -> rows (snd (m d)) = rows d.
Proof.
  intros H Hfailed.
  destruct (H d) as [Hsame | [fields [row [_ [_ [_ Hfst]]]]]]; [exact Hsame|].
  rewrite Hfst in Hfailed. discriminate Hfailed.
Qed.

Lemma matches_owned (customerId id row : value) :
  foreign customerId id row -> matches (owned customerId id) row = false.
Proof.
  unfold foreign, matches, owned, eq_filter. cbn [forallb fst snd].
  intros [H | H]; apply String.eqb_neq in H; rewrite H;
    [apply andb_false_r | reflexivity].
Qed.

Lemma Forall2_map_same {A} (R : A -> A -> Prop) (f : A -> A) (l : list A) :
  (forall x, R x (f x)) -> Forall2 R l (map f l).
Proof. intros H. induction l; cbn [map]; constructor; auto. Qed.

Lemma one_update_others (customerId id : value) (F : props -> Prop)
  (m : M value) (d : db) :
  one_update (owned customerId id) F m ->
  others_untouched customerId id (rows d) (rows (snd (m d))).
Proof.
  intros H. unfold others_untouched.
  destruct (H d) as [-> | [fields [row [_ [_ [-> _]]]]]].
  - rewrite <- (map_id (rows d)) at 2. now apply Forall2_map_same.
  - apply Forall2_map_same. intros old Hforeign.
    now rewrite (matches_owned _ _ _ Hforeign).
Qed.

Lemma get_assign_other (fields : props) (row : value) (k : string) :
  named k = true -> writes_column fields k = false ->
  get (assign fields row) k = get row k.
Proof.
  intros Hk. unfold assign. rewrite <- (get_spread k row Hk).
  generalize (spread row). clear row.
  induction fields as [|[key v] fields IH]; intros ps Hw; cbn [fold_left].
  - reflexivity.
  - unfold writes_column in Hw. cbn [existsb fst snd] in *.
    apply orb_false_iff in Hw as [Hkey Hrest].
    rewrite (IH _ Hrest). apply get_put_other.
    now apply String.eqb_neq.
Qed.

Lemma one_update_column (fs : list (string * value)) (F : props -> Prop)
  (m : M value) (d : db) (k : string) :
  one_update fs F m -> named k = true ->
  (forall fields, F fields -> writes_column fields k = false) ->
  column_kept k (rows d) (rows (snd (m d))).
Proof.
  intros H Hk Hcol. unfold column_kept.
  destruct (H d) as [-> | [fields [row [HF [_ [-> _]]]]]].
  - rewrite <- (map_id (rows d)) at 2. now apply Forall2_map_same.
  - apply Forall2_map_same. intros old.
    destruct (matches fs old); [|reflexivity].
    apply get_assign_other; auto.
Qed.

(** X1. An operation that answers {ok: false}, or throws, has written
    nothing: the round operations of both proxies, setFinalResult and
    updateTournament leave the table as it was whenever they fail. *)
Theorem failed_operations_write_nothing
  (customerId id q result : value) (d : db) :
  (failed (fst (Scored.addRound customerId id d)) ->
   rows (snd (Scored.addRound customerId id d)) = rows d)
  /\ (failed (fst (Scored.updateRound customerId id q d)) ->
      rows (snd (Scored.updateRound customerId id q d)) = rows d)
  /\ (failed (fst (Scored.setFinalResult customerId id result d)) ->
      rows (snd (Scored.setFinalResult customerId id result d)) = rows d)
  /\ (failed (fst (Rounds.addRound customerId id d)) ->
      rows (snd (Rounds.addRound customerId id d)) = rows d)
  /\ (failed (fst (Rounds.updateRound customerId id q d)) ->
      rows (snd (Rounds.updateRound customerId id q d)) = rows d)
  /\ (failed (fst (Meta.updateTournament customerId id q d)) ->
      rows (snd (Meta.updateTournament customerId id q d)) = rows d).
Proof.
  repeat split; eapply one_update_failed_keeps.
  - apply Scored_addRound_one_update.
  - apply Scored_updateRound_one_update.
  - apply Scored_setFinalResult_one_update.
  - apply Rounds_addRound_one_update.
  - apply Rounds_updateRound_one_update.
  - apply Meta_updateTournament_one_update.
Qed.

(** Customer 77 asks for a round on the tournament of customer 42. *)
Lemma failed_operations_write_nothing_witness :
  fst (Rounds.addRound (VStr "77") (VStr "1") two_customers)
  = Returned (failure "Tournament not found")
  /\ rows (snd (Rounds.addRound (VStr "77") (VStr "1") two_customers))
     = rows two_customers.
Proof.
  split; [reflexivity|].
  apply (failed_operations_write_nothing
           (VStr "77") (VStr "1") VNull VNull two_customers).
  reflexivity.
Defined.

(** X2. No operation writes to a tournament of another customer or of
    another id: row by row, a stored tournament whose customer_id or id
    differs from the ones the operation was called with is the same
    after the operation as before. *)
Theorem operations_leave_other_tournaments
  (customerId id q result : value) (d : db) :
  others_untouched customerId id (rows d)
    (rows (snd (Scored.addRound customerId id d)))
  /\ others_untouched customerId id (rows d)
       (rows (snd (Scored.updateRound customerId id q d)))
  /\ others_untouched customerId id (rows d)
       (rows (snd (Scored.setFinalResult customerId id result d)))
  /\ others_untouched customerId id (rows d)
       (rows (snd (Rounds.addRound customerId id d)))
  /\ others_untouched customerId id (rows d)
       (rows (snd (Rounds.updateRound customerId id q d)))
  /\ others_untouched customerId id (rows d)
       (rows (snd (Meta.updateTournament customerId id q d))).
Proof.
  repeat split; eapply one_update_others.
  - apply Scored_addRound_one_update.
  - apply Scored_updateRound_one_update.
  - apply Scored_setFinalResult_one_update.
  - apply Rounds_addRound_one_update.
  - apply Rounds_updateRound_one_update.
  - apply Meta_updateTournament_one_update.
Qed.

Lemma Forall2_at {A} (R : A -> A -> Prop) (l l' : list A) (i : nat) (x : A) :
  Forall2 R l l' -> nth_error l i = Some x ->
  exists y, nth_error l' i = Some y /\ R x y.
Proof.
  intros H. revert i. induction H as [|a b l l' Hab H IH]; intros i Hi.
  - destruct i; discriminate Hi.
  - destruct i as [|i]; cbn [nth_error] in *.
    + injection Hi as <-. now exists b.
    + now apply IH.
Qed.

(** Customer 42 adds a round to tournament 1; the tournament of customer
    77 stays as it was. *)
Lemma operations_leave_other_tournaments_witness :
  nth_error (rows (snd (Scored.addRound (VStr "42") (VStr "1") two_customers)))
            1
  = nth_error (rows two_customers) 1.
Proof.
  destruct (Forall2_at _ _ _ 1 _
              (proj1 (operations_leave_other_tournaments
                        (VStr "42") (VStr "1") VNull VNull two_customers))
              eq_refl) as [y [Hy Hsame]].
  rewrite Hy. rewrite Hsame; [reflexivity|]. left. discriminate.
Defined.

(** X3. The round operations never write a column other than [rounds]
    (and, in the scoring proxy, [score]): name, date, format, type,
    result, customer_id and id of every stored tournament are the same
    after addRound and updateRound as before. *)
Theorem round_operations_keep_meta_columns
  (customerId id q : value) (d : db) (k : string) :
  named k = true -> k <> "rounds" ->
  column_kept k (rows d) (rows (snd (Rounds.addRound customerId id d)))
  /\ column_kept k (rows d) (rows (snd (Rounds.updateRound customerId id q d)))
  /\ (k <> "score" ->
      column_kept k (rows d) (rows (snd (Scored.addRound customerId id d)))
      /\ column_kept k (rows d)
           (rows (snd (Scored.updateRound customerId id q d)))).
Proof.
  intros Hk Hrounds.
  assert (Halone : forall fields, rounds_alone fields ->
                                  writes_column fields k = false).
  { intros fields [rounds ->]. unfold writes_column. cbn [existsb fst].
    apply String.eqb_neq in Hrounds. now rewrite Hrounds. }
  split; [|split].
  - eapply one_update_column; eauto using Rounds_addRound_one_update.
  - eapply one_update_column; eauto using Rounds_updateRound_one_update.
  - intros Hscore.
    assert (Hboth : forall fields, rounds_and_score fields ->
                                   writes_column fields k = false).
    { intros fields [rounds ->]. unfold writes_column. cbn [existsb fst].
      apply String.eqb_neq in Hrounds, Hscore. now rewrite Hrounds, Hscore. }
    split.
    + eapply one_update_column; eauto using Scored_addRound_one_update.
    + eapply one_update_column; eauto using Scored_updateRound_one_update.
Qed.

Lemma round_operations_keep_meta_columns_witness :
  exists row,
    nth_error
      (rows (snd (Rounds.updateRound (VStr "42") (VStr "1")
                    (VObj [("round_number", VStr "1"); ("g1", VStr "W")])
                    two_customers))) 0
    = Some row
    /\ get row "tournament_name" = VStr "Open".
Proof.
  destruct (Forall2_at _ _ _ 0 _
              (proj1 (proj2 (round_operations_keep_meta_columns
                               (VStr "42") (VStr "1")
                               (VObj [("round_number", VStr "1");
                                      ("g1", VStr "W")])
                               two_customers "tournament_name"
                               eq_refl ltac:(discriminate))))
              eq_refl) as [row [Hrow Hname]].
  exists row. split; [exact Hrow | exact Hname].
Defined.

(** X4. setFinalResult writes the [result] column and nothing else, and
    only one of the thirteen placements: after the call every stored
    tournament is as it was, or its result is one of the allowed values;
    every other column of every tournament is as it was. *)
Theorem setFinalResult_writes_an_allowed_result
  (customerId id result : value) (d : db) :
  Forall2 (fun old new =>
             new = old
             \/ exists placement,
                  In placement Scored.allowed
                  /\ get new "result" = VStr placement)
          (rows d) (rows (snd (Scored.setFinalResult customerId id result d)))
  /\ forall k, named k = true -> k <> "result" ->
               column_kept k (rows d)
                 (rows (snd (Scored.setFinalResult customerId id result d))).
Proof.
  pose proof (Scored_setFinalResult_one_update customerId id result) as H.
  split.
  - destruct (H d) as [-> | [fields [row [[a [Ha ->]] [_ [-> _]]]]]].
    + rewrite <- (map_id (rows d)) at 2. apply Forall2_map_same. now left.
    + apply Forall2_map_same. intros old.
      destruct (matches _ old); [|now left].
      right. exists a. split; [exact Ha|].
      unfold assign. cbn [fold_left fst snd]. apply get_put_same.
  - intros k Hk Hresult. eapply one_update_column; eauto.
    intros fields [a [_ ->]]. unfold writes_column. cbn [existsb fst].
    apply String.eqb_neq in Hresult. now rewrite Hresult.
Qed.

Lemma setFinalResult_writes_an_allowed_result_witness :
  exists row,
    nth_error
      (rows (snd (Scored.setFinalResult (VStr "42") (VStr "1") (VStr "Top4")
                    two_customers))) 0
    = Some row
    /\ get row "rounds" = VArr [new_round (VInt 1)].
Proof.
  destruct (Forall2_at _ _ _ 0 _
              (proj2 (setFinalResult_writes_an_allowed_result
                        (VStr "42") (VStr "1") (VStr "Top4") two_customers)
                     "rounds" eq_refl ltac:(discriminate))
              eq_refl) as [row [Hrow Hrounds]].
  exists row. split; [exact Hrow | exact Hrounds].
Defined.

(** X5. updateTournament writes allow-listed columns only: a column
    that is not tournament_name, tournament_date, format,
    tournament_type or result (so id, customer_id, rounds and score) is
    the same in every stored tournament after the call as before,
    whatever the query carries. *)
Theorem updateTournament_writes_allowed_columns
  (customerId id q : value) (d : db) (k : string) :
  named k = true -> ~ In k Meta.allowed ->
  column_kept k (rows d) (rows (snd (Meta.updateTournament customerId id q d))).
Proof.
  intros Hk Hout. eapply one_update_column.
  - apply Meta_updateTournament_one_update.
  - exact Hk.
  - intros fields [_ Hin].
    destruct (writes_column fields k) eqn:E; [|reflexivity].
    elim Hout. now apply Hin.
Qed.

(** A query that tries to take the tournament over and reset its score. *)
Lemma updateTournament_writes_allowed_columns_witness :
  exists row,
    nth_error
      (rows (snd (Meta.updateTournament (VStr "42") (VStr "1")
                    (VObj [("tournament_name", VStr "Mine");
                           ("customer_id", VStr "77");
                           ("score", VObj [])])
                    two_customers))) 0
    = Some row
    /\ get row "customer_id" = VStr "42".
Proof.
  destruct (Forall2_at _ _ _ 0 _
              (updateTournament_writes_allowed_columns
                 (VStr "42") (VStr "1")
                 (VObj [("tournament_name", VStr "Mine");
                        ("customer_id", VStr "77");
                        ("score", VObj [])])
                 two_customers "customer_id" eq_refl
                 ltac:(intros [H|[H|[H|[H|[H|[]]]]]]; discriminate H))
              eq_refl) as [row [Hrow Hcust]].
  exists row. split; [exact Hrow | exact Hcust].
Defined.

(** ** Reads *)

Lemma select_single_data (fs : list (string * value)) (d : db) (row : value) :
  fst (select_single fs d) = Data row ->
  In row (rows d) /\ matches fs row = true.
Proof.
  unfold select_single. pose proof (transport_rows d) as Hrows.
  destruct (transport d) as [up d']. simpl in Hrows.
  destruct up; cbn [negb]; [|discriminate].
  destruct (filter (matches fs) (rows d')) as [|r [|r' l]] eqn:Hf;
    try discriminate.
  intros [= <-]. rewrite <- Hrows. apply filter_In. rewrite Hf. now left.
Qed.

Lemma matches_owned_true (customerId id row : value) :
  matches (owned customerId id) row = true ->
  ToString (get row "customer_id") = ToString customerId
  /\ ToString (get row "id") = ToString id.
Proof.
  unfold matches, owned, eq_filter. cbn [forallb fst snd].
  rewrite !andb_true_iff, !String.eqb_eq. tauto.
Qed.


(** X6. A read by id answers with a tournament only if that tournament
    is stored under the caller's customer_id and under that id; a
    tournament of another customer is never returned, whichever id is
    asked for. *)
Theorem reads_return_the_callers_tournament
  (customerId id row : value) (d : db) :
  fst (Meta.getTournament customerId id d) = Returned (success row)
  \/ fst (Rounds.getTournament customerId id d) = Returned (success row)
  \/ fst (Scored.getTournamentOwned customerId id d) = Returned (success row) ->
  In row (rows d)
  /\ ToString (get row "customer_id") = ToString customerId
  /\ ToString (get row "id") = ToString id.
Proof.
  assert (Hsel : forall v,
             v <> success row ->
             fst (bind (await (select_single (owned customerId id)))
                       (fun r => match r with
                                 | Error _ => ret v
                                 | Data data => ret (success data)
                                 end) d) = Returned (success row) ->
             In row (rows d)
             /\ ToString (get row "customer_id") = ToString customerId
             /\ ToString (get row "id") = ToString id).
  { intros v Hv. unfold bind, await.
    pose proof (select_single_data (owned customerId id) d) as Hdata.
    destruct (select_single (owned customerId id) d) as [[data|message] d'];
      cbn [fst ret].
    - intros [= ->]. destruct (Hdata _ eq_refl) as [Hin Hm].
      split; [exact Hin|]. now apply matches_owned_true.
    - intros [= ->]. contradiction. }
  intros [H | [H | H]].
  - unfold Meta.getTournament in H.
    destruct (negb (truthy id)); [discriminate H|].
    apply (Hsel (failure "Tournament not found")); [discriminate | exact H].
  - unfold Rounds.getTournament, Rounds.getTournamentOwned in H.
    destruct (negb (truthy id)); [discriminate H|].
    apply (Hsel (failure "Tournament not found")); [discriminate | exact H].
  - unfold Scored.getTournamentOwned in H.
    apply (Hsel (failure "Tournament not found")); [discriminate | exact H].
Qed.

Lemma reads_return_the_callers_tournament_witness :
  exists row,
    fst (Meta.getTournament (VStr "77") (VStr "2") two_customers)
    = Returned (success row)
    /\ ToString (get row "customer_id") = "77".
Proof.
  eexists. split; [reflexivity|].
  apply (reads_return_the_callers_tournament
           (VStr "77") (VStr "2") _ two_customers).
  left. reflexivity.
Defined.

Lemma insert_desc_In (col : string) (r x : value) (l : list value) :
  In x (insert_desc col r l) <-> x = r \/ In x l.
Proof.
  induction l as [|y l IH]; cbn [insert_desc].
  - cbn. intuition.
  - destruct (str_leb _ _); cbn [In]; [intuition|].
    rewrite IH. intuition.
Qed.

Lemma order_desc_In (col : string) (x : value) (l : list value) :
  In x (order_desc col l) <-> In x l.
Proof.
  unfold order_desc. induction l as [|y l IH]; cbn [fold_right]; [tauto|].
  rewrite insert_desc_In, IH. cbn. intuition.
Qed.

Lemma select_ordered_data (fs : list (string * value)) (col : string)
  (d : db) (data : value) :
  fst (select_ordered fs col d) = Data data ->
  exists l, data = VArr l
            /\ forall row, In row l <-> In row (rows d) /\ matches fs row = true.
Proof.
  unfold select_ordered. pose proof (transport_rows d) as Hrows.
  destruct (transport d) as [up d']. simpl in Hrows.
  destruct up; cbn [negb fst]; [|discriminate].
  intros [= <-]. eexists. split; [reflexivity|].
  intros row. rewrite order_desc_In, filter_In, Hrows. tauto.
Qed.

Lemma matches_customer (customerId row : value) :
  matches [("customer_id", customerId)] row = true
  <-> ToString (get row "customer_id") = ToString customerId.
Proof.
  unfold matches, eq_filter. cbn [forallb fst snd].
  now rewrite andb_true_r, String.eqb_eq.
Qed.

Lemma select_ordered_cases (fs : list (string * value)) (col : string) (d : db) :
  (store_answers d = true
   /\ exists l,
        fst (select_ordered fs col d) = Data (VArr l)
        /\ forall row, In row l <-> In row (rows d) /\ matches fs row = true)
  \/ (store_answers d = false
      /\ fst (select_ordered fs col d) = unavailable).
Proof.
  unfold select_ordered, store_answers.
  pose proof (transport_rows d) as Hrows.
  destruct (transport d) as [up d']. simpl in Hrows.
  destruct up; cbn [negb fst]; [left | right; auto].
  split; [reflexivity|]. eexists. split; [reflexivity|].
  intros row. rewrite order_desc_In, filter_In, Hrows. tauto.
Qed.

(** X7. list_tournaments lists the caller's tournaments and no others.
    When the store answers, listTournaments of both proxies returns an
    array that holds a tournament if and only if it is stored under the
    caller's customer_id.  When the store call fails, the scoring
    proxy's listTournaments returns the empty array and the one of
    src/api/proxy.js throws. *)
Theorem listTournaments_lists_the_callers_tournaments
  (customerId : value) (d : db) :
  (forall data,
      fst (Meta.listTournaments customerId d) = Returned data ->
      exists l,
        data = VArr l
        /\ forall row,
             In row l
             <-> In row (rows d)
                 /\ ToString (get row "customer_id") = ToString customerId)
  /\ (store_answers d = true ->
      exists data, fst (Meta.listTournaments customerId d) = Returned data)
  /\ (store_answers d = false ->
      exists e, fst (Meta.listTournaments customerId d) = Thrown e)
  /\ exists l,
       fst (Scored.listTournaments customerId d) = Returned (VArr l)
       /\ (store_answers d = true ->
           forall row,
             In row l
             <-> In row (rows d)
                 /\ ToString (get row "customer_id") = ToString customerId)
       /\ (store_answers d = false -> l = []).
Proof.
  destruct (select_ordered_cases [("customer_id", customerId)]
                                 "tournament_date" d)
    as [[Hup [l [Hdata Hl]]] | [Hdown Herr]];
    unfold Meta.listTournaments, Scored.listTournaments, bind, await;
    destruct (select_ordered _ _ d) as [r d']; cbn [fst] in *; subst r.
  - assert (Hiff : forall row,
               In row l
               <-> In row (rows d)
                   /\ ToString (get row "customer_id") = ToString customerId)
      by (intros row; now rewrite Hl, matches_customer).
    split; [|split; [|split]].
    + intros data [= <-]. now exists l.
    + intros _. now eexists.
    + intros H. congruence.
    + exists l. split; [reflexivity|]. split; [now intros _ | congruence].
  - split; [|split; [|split]].
    + intros data H. discriminate H.
    + intros H. congruence.
    + intros _. now eexists.
    + exists []. split; [reflexivity|]. split; [congruence | reflexivity].
Qed.

Lemma listTournaments_lists_the_callers_tournaments_witness :
  exists l,
    fst (Meta.listTournaments (VStr "77") two_customers) = Returned (VArr l)
    /\ forall row, In row l -> ToString (get row "customer_id") = "77".
Proof.
  destruct (proj1 (listTournaments_lists_the_callers_tournaments
                     (VStr "77") two_customers) _ eq_refl)
    as [l [Hl Hrows]].
  exists l. split.
  - cbn [fst]. now rewrite <- Hl.
  - intros row Hin. now apply Hrows.
Defined.

(** ** Creation *)

Lemma insert_single_cases (payload : props) (d : db) :
  (exists message,
      fst (insert_single payload d) = Error message
      /\ rows (snd (insert_single payload d)) = rows d)
  \/ (exists id,
         fst (insert_single payload d) = Data (VObj (("id", id) :: payload))
         /\ rows (snd (insert_single payload d))
            = (rows d ++ [VObj (("id", id) :: payload)])%list).
Proof.
  unfold insert_single. pose proof (transport_rows d) as Hrows.
  destruct (transport d) as [up d']. simpl in Hrows.
  destruct up; cbn [negb fst snd rows].
  - right. eexists. split; [reflexivity|]. now rewrite Hrows.
  - left. eexists. split; [reflexivity | exact Hrows].
Qed.

(** X8. createTournament without a tournament_name or a tournament_date
    fails before any store call.  With both, it leaves the table as it
    was and fails, or appends exactly one tournament and returns it; that
    tournament is the caller's, carries the name and date of the query
    and no rounds, whatever else the query holds (a customer_id, rounds
    or score in the query are not used), with the score of no rounds and
    result SinTop by default in the scoring proxy, and score {} in the
    others. *)
Theorem createTournament_appends_the_callers_tournament
  (customerId q : value) (d : db) :
  (truthy (get q "tournament_name") = false
   \/ truthy (get q "tournament_date") = false ->
   Scored.createTournament customerId q d
   = (Returned (failure "Missing required fields"), d)
   /\ snd (Meta.createTournament customerId q d) = d
   /\ failed (fst (Meta.createTournament customerId q d)))
  /\ (truthy (get q "tournament_name") = true ->
      truthy (get q "tournament_date") = true ->
      ((failed (fst (Scored.createTournament customerId q d))
        /\ rows (snd (Scored.createTournament customerId q d)) = rows d)
       \/ exists row,
            fst (Scored.createTournament customerId q d)
            = Returned (success row)
            /\ rows (snd (Scored.createTournament customerId q d))
               = (rows d ++ [row])%list
            /\ created_row customerId q row
            /\ get row "score" = computeScore (VArr [])
            /\ (get q "result" = VUndef -> get row "result" = VStr "SinTop"))
      /\ ((failed (fst (Meta.createTournament customerId q d))
           /\ rows (snd (Meta.createTournament customerId q d)) = rows d)
          \/ exists row,
               fst (Meta.createTournament customerId q d)
               = Returned (success row)
               /\ rows (snd (Meta.createTournament customerId q d))
                  = (rows d ++ [row])%list
               /\ created_row customerId q row
               /\ get row "score" = VObj [])).
Proof.
  split.
  - intros Hmissing.
    assert (Hguard : negb (truthy (get q "tournament_name"))
                     || negb (truthy (get q "tournament_date")) = true).
    { destruct Hmissing as [-> | ->]; [reflexivity | apply orb_true_r]. }
    unfold Scored.createTournament, Meta.createTournament. cbv zeta.
    rewrite Hguard. repeat split.
  - intros Hname Hdate.
    unfold Scored.createTournament, Meta.createTournament. cbv zeta.
    rewrite Hname, Hdate. cbn [negb orb]. unfold bind, await. split.
    + match goal with
      | |- context [insert_single ?payload d] =>
          destruct (insert_single_cases payload d)
            as [[message [Hfst Hrows]] | [id [Hfst Hrows]]];
          destruct (insert_single payload d) as [r d']
      end; cbn [fst snd] in *; subst r.
      * left. now split.
      * right. eexists. split; [reflexivity|]. split; [exact Hrows|].
        split; [repeat split|]. split; [reflexivity|].
        intros Hresult. unfold get at 1. cbn [lookup String.eqb Ascii.eqb Bool.eqb].
        now rewrite Hresult.
    + match goal with
      | |- context [insert_single ?payload d] =>
          destruct (insert_single_cases payload d)
            as [[message [Hfst Hrows]] | [id [Hfst Hrows]]];
          destruct (insert_single payload d) as [r d']
      end; cbn [fst snd] in *; subst r.
      * left. now split.
      * right. eexists. split; [reflexivity|]. split; [exact Hrows|].
        split; [repeat split | reflexivity].
Qed.

(** The query asks for customer 77, round 9 and nine wins; customer 42
    gets a tournament of their own with no rounds and the score 0-0-0. *)
Lemma createTournament_appends_the_callers_tournament_witness :
  exists row,
    fst (Scored.createTournament (VStr "42") greedy_create_query (Db [] 1 []))
    = Returned (success row)
    /\ get row "customer_id" = VStr "42"
    /\ get row "rounds" = VArr []
    /\ get row "score" = computeScore (VArr []).
Proof.
  destruct (proj1 (proj2 (createTournament_appends_the_callers_tournament
                            (VStr "42") greedy_create_query (Db [] 1 []))
                         eq_refl eq_refl))
    as [[Hfailed _] | [row [Hfst [_ [[Hc [_ [_ Hr]]] [Hs _]]]]]].
  - discriminate Hfailed.
  - exists row. auto.
Defined.

(** ** The handlers *)

(** X9. A request whose signature does not verify is answered 401 with
    {ok: false, error: "Invalid Shopify signature"} by every handler that
    checks it, before the customer or the action is looked at and
    without a store call (the listing endpoint, for a GET). *)
Theorem unsigned_requests_never_reach_the_store
  (hmac : string -> string -> string) (secret : string)
  (req : request) (d : db) :
  Auth.verifyShopifyProxy hmac secret (query req) = false ->
  Meta.handler hmac secret req d = (Returned (Response 401 invalid_signature), d)
  /\ Rounds.handler hmac secret req d
     = (Returned (Response 401 invalid_signature), d)
  /\ Scored.handler hmac secret req d
     = (Returned (Response 401 invalid_signature), d)
  /\ Whoami.handler hmac secret req d
     = (Returned (Response 401 invalid_signature), d)
  /\ Early.handler_create hmac secret req d
     = (Returned (Response 401 invalid_signature), d)
  /\ Early.handler_list hmac secret req d
     = (Returned (Response 401 invalid_signature), d)
  /\ (method req = "GET" ->
      Listing.handler hmac secret req d
      = (Returned (Response 401 invalid_signature), d)).
Proof.
  intros Hsig.
  unfold Meta.handler, Rounds.handler, Scored.handler, Whoami.handler,
    Early.handler_create, Early.handler_list, Listing.handler,
    Meta.dispatch, Rounds.dispatch, Early.dispatch_create.
  rewrite Hsig. cbn [negb]. repeat split. intros ->. reflexivity.
Qed.

Lemma unsigned_requests_never_reach_the_store_witness :
  Scored.handler sample_hmac "key" forged_request two_customers
  = (Returned (Response 401 invalid_signature), two_customers).
Proof.
  exact (proj1 (proj2 (proj2 (unsigned_requests_never_reach_the_store
                                sample_hmac "key" forged_request two_customers
                                eq_refl)))).
Defined.

Lemma answers_json (P : response -> Prop) (s : Z) (b : value) :
  P (Response s b) -> answers P (json s b).
Proof. intros H d. exact H. Qed.

Lemma answers_bind {A} (P : response -> Prop) (m : M A) (k : A -> M response) :
  (forall a, answers P (k a)) -> answers P (bind m k).
Proof.
  intros Hk d. unfold bind.
  destruct (m d) as [[a|e] d']; [apply Hk | exact Logic.I].
Qed.

Lemma always_answers_json (P : response -> Prop) (s : Z) (b : value) :
  P (Response s b) -> always_answers P (json s b).
Proof. intros H d. now eexists. Qed.

Lemma always_answers_try_catch (P : response -> Prop)
  (m : M response) (h : string -> M response) :
  answers P m -> (forall e, always_answers P (h e)) ->
  always_answers P (try_catch m h).
Proof.
  intros Hm Hh d. unfold try_catch. specialize (Hm d).
  destruct (m d) as [[r|e] d'].
  - now exists r.
  - apply Hh.
Qed.

Ltac step_answers :=
  repeat first
    [ apply answers_json; reflexivity
    | apply answers_bind; intros ?
    | match goal with
      | |- answers _ (if ?c then _ else _) => destruct c
      end ].

Lemma guarded_dispatch_answers
  (hmac : string -> string -> string) (secret : string) (req : request) :
  let expected (r : response) :=
    status r = if Auth.verifyShopifyProxy hmac secret (query req)
               then 200 else 401 in
  always_answers expected (Meta.handler hmac secret req)
  /\ always_answers expected (Rounds.handler hmac secret req)
  /\ always_answers expected (Early.handler_create hmac secret req).
Proof.
  intros expected. unfold expected.
  unfold Meta.handler, Rounds.handler, Early.handler_create,
    Meta.dispatch, Rounds.dispatch, Early.dispatch_create. cbv zeta.
  destruct (Auth.verifyShopifyProxy hmac secret (query req)); cbn [negb].
  - repeat split;
      (destruct (negb (truthy _)); [now apply always_answers_json|];
       apply always_answers_try_catch;
       [step_answers
       | intros e; unfold Meta.internal_error; now apply always_answers_json]).
  - repeat split; now apply always_answers_json.
Qed.

(** With the secret set, the check is the pure one. *)
Lemma verifyShopifyProxy_env_set
  (hmac : string -> string -> string) (secret : string) (q : props) (d : db) :
  Auth.verifyShopifyProxy_env hmac (Some secret) q d
  = (Returned (Auth.verifyShopifyProxy hmac secret q), d).
Proof.
  unfold Auth.verifyShopifyProxy_env, Auth.verifyShopifyProxy. cbv zeta.
  now destruct (negb (truthy _)).
Qed.

(** With the secret unset, the check answers false for a request without
    a signature and throws for one with a signature. *)
Lemma verifyShopifyProxy_env_unset
  (hmac : string -> string -> string) (q : props) (d : db) :
  Auth.verifyShopifyProxy_env hmac None q d
  = (if truthy (get (VObj q) "signature") then Thrown "TypeError"
     else Returned false, d).
Proof.
  unfold Auth.verifyShopifyProxy_env. cbv zeta.
  now destruct (truthy _).
Qed.

(** X10. The proxies with a try/catch around the dispatch, when the App
    Proxy secret is set, never let an exception escape and never answer
    with an error status: whatever the request and the state of the
    store, the handler returns a response, with status 401 when the
    signature does not verify and 200 otherwise.  The signature is
    checked before the try block: when the secret is not set, a request
    that carries a signature makes the check throw, the exception
    escapes the handler and the store is not called; a request without
    a signature is answered 401. *)
Theorem guarded_handlers_always_answer
  (hmac : string -> string -> string) (req : request) :
  (forall secret : string,
      let expected (r : response) :=
        status r = if Auth.verifyShopifyProxy hmac secret (query req)
                   then 200 else 401 in
      (always_answers expected (Meta.handler_env hmac (Some secret) req)
       /\ always_answers expected (Rounds.handler_env hmac (Some secret) req)
       /\ always_answers expected
            (Early.handler_create_env hmac (Some secret) req))
      /\ forall d,
           Meta.handler_env hmac (Some secret) req d
           = Meta.handler hmac secret req d
           /\ Rounds.handler_env hmac (Some secret) req d
              = Rounds.handler hmac secret req d
           /\ Early.handler_create_env hmac (Some secret) req d
              = Early.handler_create hmac secret req d)
  /\ (signed req = true ->
      always (Thrown "TypeError") (Meta.handler_env hmac None req)
      /\ always (Thrown "TypeError") (Rounds.handler_env hmac None req)
      /\ always (Thrown "TypeError") (Early.handler_create_env hmac None req))
  /\ (signed req = false ->
      always (Returned (Response 401 invalid_signature))
             (Meta.handler_env hmac None req)
      /\ always (Returned (Response 401 invalid_signature))
                (Rounds.handler_env hmac None req)
      /\ always (Returned (Response 401 invalid_signature))
                (Early.handler_create_env hmac None req)).
Proof.
  split; [|split].
  - intros secret expected.
    assert (Hset : forall d,
               Meta.handler_env hmac (Some secret) req d
               = Meta.handler hmac secret req d
               /\ Rounds.handler_env hmac (Some secret) req d
                  = Rounds.handler hmac secret req d
               /\ Early.handler_create_env hmac (Some secret) req d
                  = Early.handler_create hmac secret req d).
    { intros d.
      unfold Meta.handler_env, Rounds.handler_env, Early.handler_create_env,
        Meta.handler, Rounds.handler, Early.handler_create, bind.
      now rewrite verifyShopifyProxy_env_set. }
    split; [|exact Hset].
    destruct (guarded_dispatch_answers hmac secret req) as [Hm [Hr He]].
    repeat split; intros d; destruct (Hset d) as [H1 [H2 H3]].
    + rewrite H1. apply Hm.
    + rewrite H2. apply Hr.
    + rewrite H3. apply He.
  - unfold signed. intros Hsig. repeat split; intros d;
      unfold Meta.handler_env, Rounds.handler_env, Early.handler_create_env,
        bind;
      now rewrite verifyShopifyProxy_env_unset, Hsig.
  - unfold signed. intros Hsig. repeat split; intros d;
      unfold Meta.handler_env, Rounds.handler_env, Early.handler_create_env,
        bind;
      now rewrite verifyShopifyProxy_env_unset, Hsig.
Qed.

(** A signed request for the list, with no secret in the environment. *)
Lemma guarded_handlers_always_answer_witness :
  Meta.handler_env sample_hmac None
    (Request "GET" signed_query) two_customers
  = (Thrown "TypeError", two_customers)
  /\ exists r,
       fst (Meta.handler_env sample_hmac (Some "key")
              (Request "GET" signed_query) two_customers)
       = Returned r
       /\ status r = 200.
Proof.
  pose proof (guarded_handlers_always_answer
                sample_hmac (Request "GET" signed_query))
    as [Hset [Hunset _]].
  split.
  - apply (proj1 (Hunset eq_refl)).
  - destruct (proj1 (proj1 (Hset "key")) two_customers) as [r [Hr Hs]].
    exists r. split; [exact Hr | exact Hs].
Defined.

(* ================================================================== *)
(** * Beyond the claims: score and sanitizer                            *)
(* ================================================================== *)

Lemma tally_add_assoc (a b c : tally) :
  tally_add (tally_add a b) c = tally_add a (tally_add b c).
Proof. unfold tally_add. cbn. f_equal; lia. Qed.

Lemma tally_add_comm (a b : tally) : tally_add a b = tally_add b a.
Proof. unfold tally_add. f_equal; lia. Qed.

Lemma tally_add_zero (a : tally) : tally_add a (Tally 0 0 0) = a.
Proof. destruct a. unfold tally_add. cbn. f_equal; lia. Qed.

Lemma score_round_adds (t : tally) (r : value) :
  score_round t r = tally_add t (contribution r).
Proof.
  unfold contribution, score_round, tally_add.
  destruct (_ || _); [cbn; f_equal; lia|].
  destruct (strict_eq _ (VStr "ID")); [cbn; f_equal; lia|].
  destruct (fold_left count_game _ _) as [[w l] hasAny].
  destruct (negb hasAny); [cbn; destruct t; cbn; f_equal; lia|].
  destruct (l <? w)%nat; [cbn; f_equal; lia|].
  destruct (w <? l)%nat; cbn; f_equal; lia.
Qed.

Lemma tally_from (rounds : list value) (t : tally) :
  fold_left score_round rounds t
  = tally_add t (fold_left score_round rounds (Tally 0 0 0)).
Proof.
  revert t. induction rounds as [|r rounds IH]; intros t; cbn [fold_left].
  - now rewrite tally_add_zero.
  - rewrite IH, (IH (score_round _ r)), !score_round_adds.
    rewrite tally_add_assoc. f_equal; destruct (contribution r); reflexivity.
Qed.

Lemma tally_cons (r : value) (rounds : list value) :
  fold_left score_round (r :: rounds) (Tally 0 0 0)
  = tally_add (contribution r) (fold_left score_round rounds (Tally 0 0 0)).
Proof. cbn [fold_left]. now rewrite tally_from. Qed.

Lemma tally_permutation (l l' : list value) :
  Permutation l l' ->
  fold_left score_round l (Tally 0 0 0)
  = fold_left score_round l' (Tally 0 0 0).
Proof.
  induction 1 as [|x l l' _ IH|x y l|l l' l'' _ IH1 _ IH2].
  - reflexivity.
  - now rewrite !tally_cons, IH.
  - rewrite !tally_cons, <- !tally_add_assoc.
    now rewrite (tally_add_comm (contribution y)).
  - congruence.
Qed.

(** X11. The score does not depend on the order of the rounds, and the
    score of two collections put together is the sum of their scores:
    no round's count depends on another round. *)
Theorem computeScore_ignores_round_order (l l' : list value) :
  (Permutation l l' -> computeScore (VArr l) = computeScore (VArr l'))
  /\ fold_left score_round (l ++ l') (Tally 0 0 0)
     = tally_add (fold_left score_round l (Tally 0 0 0))
                 (fold_left score_round l' (Tally 0 0 0)).
Proof.
  split.
  - intros H. unfold computeScore. cbn [elements].
    now rewrite (tally_permutation _ _ H).
  - rewrite fold_left_app. apply tally_from.
Qed.

Lemma computeScore_ignores_round_order_witness :
  computeScore (VArr three_rounds) = computeScore (VArr (rev three_rounds)).
Proof.
  apply (computeScore_ignores_round_order three_rounds (rev three_rounds)).
  apply Permutation_rev.
Defined.

(** ** Sanitizing and scoring *)

Lemma sanitizeRound_keeps (r : value) (k : string) :
  named k = true -> k <> "opponent_deck" -> k <> "games" ->
  get (sanitizeRound r) k = get r k.
Proof.
  intros Hk Hdeck Hgames. unfold sanitizeRound.
  destruct (is_special _);
    rewrite ?(get_put_other "games") by exact Hgames;
    rewrite get_put_other by exact Hdeck; now apply get_spread.
Qed.

Lemma sanitizeRound_keeps_games (r : value) :
  special_round r = false -> get (sanitizeRound r) "games" = get r "games".
Proof.
  intros Hsp. unfold sanitizeRound.
  rewrite get_put_other by discriminate.
  rewrite (get_spread "special") by reflexivity.
  unfold special_round in Hsp. rewrite Hsp.
  rewrite get_put_other by discriminate. now apply get_spread.
Qed.

Lemma sanitizeRound_keeps_deck (r : value) :
  truthy (get r "opponent_deck") = true ->
  get (sanitizeRound r) "opponent_deck" = get r "opponent_deck".
Proof.
  intros Hdeck. unfold sanitizeRound.
  rewrite (get_spread "opponent_deck") by reflexivity.
  unfold or_else. rewrite Hdeck.
  destruct (is_special _);
    rewrite ?(get_put_other "games") by discriminate; apply get_put_same.
Qed.

Lemma score_round_sanitized (t : tally) (r : value) :
  score_round t (sanitizeRound r) = score_round t r.
Proof.
  unfold score_round.
  rewrite (sanitizeRound_keeps r "special") by (reflexivity || discriminate).
  rewrite !coalesce_null_eq_str.
  destruct (strict_eq (get r "special") (VStr "BYE")
            || strict_eq (get r "special") (VStr "NO_SHOW")) eqn:E1;
    [reflexivity|].
  destruct (strict_eq (get r "special") (VStr "ID")) eqn:E2; [reflexivity|].
  rewrite sanitizeRound_keeps_games; [reflexivity|].
  unfold special_round, is_special. now rewrite E1, E2.
Qed.

(** X12. Sanitizing never changes the score: the score persistRounds
    computes from the sanitized rounds is the score of the rounds it was
    given. *)
Theorem sanitizing_keeps_the_score (rounds : value) :
  computeScore (sanitizeRounds rounds) = computeScore rounds.
Proof.
  unfold computeScore, sanitizeRounds. cbn [elements]. f_equal.
  generalize (Tally 0 0 0).
  induction (elements rounds) as [|r l IH]; intros t; cbn [map fold_left].
  - reflexivity.
  - now rewrite score_round_sanitized, IH.
Qed.

(** X13. The sanitizer keeps the number and the order of the rounds, and
    in each round every field other than opponent_deck and games
    (round_number and special among them); it keeps the games of a round
    that is not special and a deck that is there; a round object that
    has a deck and is not special comes out as it went in. *)
Theorem sanitizeRounds_only_fills_in
  (rounds : list value) (i : nat) (r : value) :
  nth_error rounds i = Some r ->
  List.length (elements (sanitizeRounds (VArr rounds))) = List.length rounds
  /\ exists r',
       nth_error (elements (sanitizeRounds (VArr rounds))) i = Some r'
       /\ (forall k, named k = true -> k <> "opponent_deck" -> k <> "games" ->
                     get r' k = get r k)
       /\ (special_round r = false -> get r' "games" = get r "games")
       /\ (truthy (get r "opponent_deck") = true ->
           get r' "opponent_deck" = get r "opponent_deck")
       /\ (special_round r = false ->
           truthy (get r "opponent_deck") = true ->
           (exists ps, r = VObj ps) -> r' = r).
Proof.
  intros Hnth. cbn [sanitizeRounds elements]. split; [apply length_map|].
  exists (sanitizeRound r). split; [now apply map_nth_error|].
  split; [intros k; apply sanitizeRound_keeps|].
  split; [apply sanitizeRound_keeps_games|].
  split; [apply sanitizeRound_keeps_deck|].
  intros Hsp Hdeck [ps ->].
  destruct (lookup "opponent_deck" ps) as [deck|] eqn:Hl.
  - apply (sanitizeRound_fixed ps deck).
    + unfold get in Hdeck. now rewrite Hl in Hdeck.
    + exact Hl.
    + intros H. unfold special_round in Hsp. congruence.
  - unfold get in Hdeck. rewrite Hl in Hdeck. discriminate Hdeck.
Qed.

Lemma sanitizeRounds_only_fills_in_witness :
  nth_error (elements (sanitizeRounds (VArr [played_round; stale_bye]))) 0
  = Some played_round
  /\ exists r',
       nth_error (elements (sanitizeRounds (VArr [played_round; stale_bye]))) 1
       = Some r'
       /\ get r' "round_number" = VInt 2.
Proof.
  destruct (proj2 (sanitizeRounds_only_fills_in
                     [played_round; stale_bye] 0 played_round eq_refl))
    as [r0 [H0 [_ [_ [_ Hsame]]]]].
  destruct (proj2 (sanitizeRounds_only_fills_in
                     [played_round; stale_bye] 1 stale_bye eq_refl))
    as [r1 [H1 [Hkeep _]]].
  split.
  - rewrite H0. f_equal. apply Hsame; [reflexivity | reflexivity |].
    now eexists.
  - exists r1. split; [exact H1|].
    rewrite Hkeep; [reflexivity | reflexivity | discriminate | discriminate].
Defined.

(* ================================================================== *)
(** * Beyond the claims: the helpers                                    *)
(* ================================================================== *)

(** ** Decimal numerals *)

Lemma digits_of_numeral (d : Decimal.uint) (acc : Z) (n : nat) :
  digits 10 (NilEmpty.string_of_uint d) acc n
  = (uint_value d acc, (n + uint_length d)%nat, "").
Proof.
  revert acc n.
  induction d; intros acc n;
    cbn [NilEmpty.string_of_uint digits uint_value uint_length];
    rewrite ?Nat.add_0_r, ?Nat.add_succ_r; try reflexivity;
    match goal with
    | |- context [digit_val 10 ?c] =>
        let v := eval vm_compute in (digit_val 10 c) in
        change (digit_val 10 c) with v
    end;
    cbv iota; rewrite IHd; now rewrite Nat.add_succ_l.
Qed.

Lemma of_uint_acc_value (d : Decimal.uint) (acc : positive) :
  Z.pos (Pos.of_uint_acc d acc) = uint_value d (Z.pos acc).
Proof.
  revert acc.
  induction d; intros acc; cbn [Pos.of_uint_acc uint_value];
    try reflexivity; rewrite IHd; f_equal; lia.
Qed.

Lemma of_uint_value (d : Decimal.uint) :
  Z.of_N (Pos.of_uint d) = uint_value d 0.
Proof.
  induction d; cbn [Pos.of_uint uint_value Z.of_N]; try reflexivity;
    try exact IHd; apply of_uint_acc_value.
Qed.

Lemma numeral_value (n : N) : uint_value (N.to_uint n) 0 = Z.of_N n.
Proof.
  rewrite <- of_uint_value.
  change (Pos.of_uint (N.to_uint n)) with (N.of_uint (N.to_uint n)).
  now rewrite DecimalN.Unsigned.of_to.
Qed.

Lemma numeral_no_space (d : Decimal.uint) :
  no_space (NilEmpty.string_of_uint d).
Proof.
  unfold no_space.
  induction d; cbn [NilEmpty.string_of_uint list_ascii_of_string];
    constructor; (reflexivity || assumption).
Qed.

Lemma str_rev_onto_no_space (s acc : string) :
  no_space s -> no_space acc -> no_space (str_rev_onto s acc).
Proof.
  unfold no_space. revert acc.
  induction s as [|c s IH]; intros acc Hs Hacc; cbn [str_rev_onto]; [exact Hacc|].
  cbn [list_ascii_of_string] in Hs. inversion Hs; subst.
  apply IH; [assumption|]. cbn [list_ascii_of_string]. now constructor.
Qed.

Lemma str_rev_onto_twice (s a b : string) :
  str_rev_onto (str_rev_onto s a) b = str_rev_onto a (s ++ b).
Proof.
  revert a b. induction s as [|c s IH]; intros a b; cbn [str_rev_onto append].
  - reflexivity.
  - now rewrite IH.
Qed.

Lemma trim_start_no_space (s : string) : no_space s -> trim_start s = s.
Proof.
  unfold no_space. destruct s as [|c s]; [reflexivity|].
  cbn [list_ascii_of_string trim_start]. intros H. inversion H; subst.
  now rewrite H2.
Qed.

Lemma append_empty (s : string) : s ++ "" = s.
Proof. induction s as [|c s IH]; cbn [append]; [reflexivity | now rewrite IH]. Qed.

(** Text without white space is what [trim] leaves of it. *)
Lemma trim_no_space (s : string) : no_space s -> trim s = s.
Proof.
  intros H. unfold trim, str_rev. rewrite (trim_start_no_space s H).
  rewrite trim_start_no_space
    by (apply str_rev_onto_no_space; [exact H | constructor]).
  rewrite str_rev_onto_twice. cbn [str_rev_onto]. apply append_empty.
Qed.

Lemma unsigned_decimal_numeral (d : Decimal.uint) :
  d <> Decimal.Nil ->
  unsigned_decimal (NilEmpty.string_of_uint d) = Fin (uint_value d 0) 0.
Proof.
  intros Hd. unfold unsigned_decimal.
  assert (Hinf : String.eqb (NilEmpty.string_of_uint d) "Infinity" = false)
    by (destruct d; reflexivity).
  rewrite Hinf, digits_of_numeral. cbv beta iota zeta.
  destruct d; [contradiction | reflexivity ..].
Qed.

Lemma StringToNumber_numeral (d : Decimal.uint) :
  d <> Decimal.Nil ->
  StringToNumber (NilEmpty.string_of_uint d) = Fin (uint_value d 0) 0.
Proof.
  intros Hd. unfold StringToNumber.
  rewrite (trim_no_space _ (numeral_no_space d)).
  rewrite <- (unsigned_decimal_numeral d Hd).
  destruct d as [|l|l|l|l|l|l|l|l|l|l]; try contradiction; try reflexivity.
  destruct l; reflexivity.
Qed.

(** X14. toIntOrNull reads a decimal numeral as the integer it denotes:
    for every natural number n up to 2^53 - 1 (the integers a double
    holds exactly), the text of n in decimal digits, as a query carries
    a round_number or a deck id, gives the integer n. *)
Theorem toIntOrNull_reads_decimal_numerals (z : Z) :
  0 <= z <= 9007199254740991 ->
  toIntOrNull (VStr (Z_digits z)) = VInt z.
Proof.
  intros [Hz _].
  assert (Hparse : StringToNumber (Z_digits z) = Fin z 0).
  { unfold Z_digits, NilZero.string_of_uint.
    pose proof (numeral_value (Z.to_N z)) as Hv.
    rewrite Z2N.id in Hv by exact Hz.
    destruct (N.to_uint (Z.to_N z)) eqn:Hd;
      try (rewrite <- Hv; apply StringToNumber_numeral; discriminate).
    cbn in Hv. now subst z. }
  assert (Hne : String.eqb (Z_digits z) "" = false).
  { unfold Z_digits, NilZero.string_of_uint.
    destruct (N.to_uint (Z.to_N z)); reflexivity. }
  unfold toIntOrNull. cbn [strict_eq orb ToNumber].
  rewrite Hne, Hparse. reflexivity.
Qed.

Lemma toIntOrNull_reads_decimal_numerals_witness :
  toIntOrNull (VStr "2048") = VInt 2048.
Proof.
  apply (toIntOrNull_reads_decimal_numerals 2048). lia.
Defined.

(** ** The normalizers *)

Lemma normalizeEnum_range (enum : list string) (v : value) :
  normalizeEnum enum v = VUndef
  \/ normalizeEnum enum v = VNull
  \/ exists s, In s enum /\ normalizeEnum enum v = VStr s.
Proof.
  unfold normalizeEnum.
  destruct (strict_eq v VUndef); [now left|].
  destruct (_ || _); [now right; left|].
  cbv zeta. destruct (existsb _ enum) eqn:E; [|now left].
  right. right. apply existsb_exists in E. destruct E as [s [Hs He]].
  apply String.eqb_eq in He. subst s. eauto.
Qed.

(** X15. The normalizers are idempotent: what a normalizer returns, it
    returns again when given it, so a value already stored in its
    normal form passes unchanged. *)
Theorem normalizers_idempotent
  (f : value -> value) (enum : list string) (v : value) :
  normalizer f enum -> f (f v) = f v.
Proof.
  intros [ | | ];
    [ unfold normalizeResult | unfold normalizeTurn | unfold normalizeSpecial ];
    match goal with
    | |- normalizeEnum ?e (normalizeEnum ?e v) = _ =>
        destruct (normalizeEnum_range e v) as [H|[H|[s [Hs H]]]]
    end;
    rewrite H; try reflexivity;
    unfold results, turns, specials in Hs; cbn [In] in Hs;
    repeat (destruct Hs as [<-|Hs]; [reflexivity|]); contradiction.
Qed.

Lemma normalizers_idempotent_witness :
  normalizeSpecial (normalizeSpecial (VStr "no_show"))
  = normalizeSpecial (VStr "no_show").
Proof.
  apply (normalizers_idempotent normalizeSpecial _ (VStr "no_show")
           Normalizes_special).
Defined.

(** ** The App Proxy signature *)

Lemma code_inj (x y : ascii) : code x = code y -> x = y.
Proof.
  unfold code. intros H. apply Nat2Z.inj in H.
  rewrite <- (ascii_nat_embedding x), <- (ascii_nat_embedding y).
  now rewrite H.
Qed.

Lemma str_leb_total (a b : string) : str_leb a b = true \/ str_leb b a = true.
Proof.
  revert b. induction a as [|x a IH]; intros [|y b]; cbn [str_leb]; auto.
  destruct (code x <? code y) eqn:E1, (code y <? code x) eqn:E2; auto.
Qed.

Lemma str_leb_antisym (a b : string) :
  str_leb a b = true -> str_leb b a = true -> a = b.
Proof.
  revert b. induction a as [|x a IH]; intros [|y b]; cbn [str_leb];
    try reflexivity; try discriminate.
  destruct (code x <? code y) eqn:E1, (code y <? code x) eqn:E2;
    try discriminate; try (apply Z.ltb_lt in E1, E2; lia).
  intros H1 H2. apply Z.ltb_ge in E1, E2.
  rewrite (code_inj x y) by lia. now rewrite (IH b H1 H2).
Qed.

Lemma str_leb_trans (a b c : string) :
  str_leb a b = true -> str_leb b c = true -> str_leb a c = true.
Proof.
  revert b c. induction a as [|x a IH]; intros [|y b] [|z c]; cbn [str_leb];
    try reflexivity; try discriminate.
  destruct (code x <? code y) eqn:E1, (code y <? code x) eqn:E2,
           (code y <? code z) eqn:E3, (code z <? code y) eqn:E4,
           (code x <? code z) eqn:E5, (code z <? code x) eqn:E6;
    try discriminate; try reflexivity;
    rewrite ?Z.ltb_lt, ?Z.ltb_ge in *; try lia.
  apply IH.
Qed.

(** Inserting two keys gives the same list in either order. *)
Lemma insert_sorted_comm (a b : string) (l : list string) :
  Auth.insert_sorted a (Auth.insert_sorted b l)
  = Auth.insert_sorted b (Auth.insert_sorted a l).
Proof.
  induction l as [|x l IH]; cbn [Auth.insert_sorted].
  - destruct (str_leb a b) eqn:Eab, (str_leb b a) eqn:Eba; try reflexivity.
    + now rewrite (str_leb_antisym a b Eab Eba).
    + destruct (str_leb_total a b); congruence.
  - destruct (str_leb b x) eqn:Ebx, (str_leb a x) eqn:Eax;
      cbn [Auth.insert_sorted]; rewrite ?Ebx, ?Eax.
    + destruct (str_leb a b) eqn:Eab, (str_leb b a) eqn:Eba; try reflexivity.
      * now rewrite (str_leb_antisym a b Eab Eba).
      * destruct (str_leb_total a b); congruence.
    + destruct (str_leb a b) eqn:Eab; [|reflexivity].
      rewrite (str_leb_trans a b x Eab Ebx) in Eax. discriminate.
    + destruct (str_leb b a) eqn:Eba; [|reflexivity].
      rewrite (str_leb_trans b a x Eba Eax) in Ebx. discriminate.
    + now rewrite IH.
Qed.

Lemma sort_permutation (l l' : list string) :
  Permutation l l' -> Auth.sort l = Auth.sort l'.
Proof.
  unfold Auth.sort.
  induction 1; cbn [fold_right].
  - reflexivity.
  - now f_equal.
  - apply insert_sorted_comm.
  - congruence.
Qed.

Lemma keys_unseen_distinct (seen : list string) (ps : props) :
  NoDup (map fst ps) ->
  (forall k, In k (map fst ps) -> ~ In k seen) ->
  Auth.keys_unseen seen ps = map fst ps.
Proof.
  revert seen. induction ps as [|[k v] ps IH]; intros seen Hnd Hseen;
    cbn [Auth.keys_unseen map fst]; [reflexivity|].
  cbn [map fst] in Hnd, Hseen. inversion Hnd; subst.
  destruct (existsb (String.eqb k) seen) eqn:E.
  - apply existsb_exists in E. destruct E as [k' [Hk' He]].
    apply String.eqb_eq in He. subst k'.
    exfalso. apply (Hseen k); [now left | exact Hk'].
  - f_equal. apply IH; [assumption|].
    intros k' Hin [Heq|Hin'].
    + subst k'. contradiction.
    + apply (Hseen k'); [now right | exact Hin'].
Qed.

Lemma filter_permutation {A} (f : A -> bool) (l l' : list A) :
  Permutation l l' -> Permutation (filter f l) (filter f l').
Proof.
  induction 1; cbn [filter].
  - constructor.
  - destruct (f x); [now constructor | assumption].
  - destruct (f x), (f y); try apply Permutation_refl;
      apply perm_swap.
  - eapply Permutation_trans; eassumption.
Qed.

Lemma filter_distinct_keys (f : string * value -> bool) (ps : props) :
  NoDup (map fst ps) -> NoDup (map fst (filter f ps)).
Proof.
  induction ps as [|p ps IH]; cbn [filter map]; intros Hnd; [constructor|].
  inversion Hnd; subst.
  destruct (f p); [|now apply IH].
  cbn [map]. constructor; [|now apply IH].
  intros Hin. apply H1.
  apply in_map_iff in Hin. destruct Hin as [q [Hq Hin]].
  apply filter_In in Hin. apply in_map_iff. exists q. tauto.
Qed.

(** With each key bound once, a lookup does not depend on the order of
    the bindings. *)
Lemma lookup_permutation (k : string) (ps ps' : props) :
  Permutation ps ps' -> NoDup (map fst ps) -> lookup k ps = lookup k ps'.
Proof.
  induction 1 as [|[k1 v1] l l' Hp IH|[k1 v1] [k2 v2] l|l l' l'' H1 IH1 H2 IH2];
    intros Hnd; cbn [lookup].
  - reflexivity.
  - cbn [map fst] in Hnd. inversion Hnd; subst. now rewrite IH.
  - cbn [map fst] in Hnd. inversion Hnd; subst.
    destruct (String.eqb k k1) eqn:E1, (String.eqb k k2) eqn:E2; try reflexivity.
    apply String.eqb_eq in E1, E2. subst. exfalso. apply H1. now left.
  - rewrite IH1 by assumption. apply IH2.
    eapply Permutation_NoDup; [|exact Hnd]. now apply Permutation_map.
Qed.

(** X16. The signature check does not depend on the order in which the
    query carries its parameters: the keys are sorted before the message
    is built, so two queries with the same parameters, each once, are
    both accepted or both refused. *)
Theorem verifyShopifyProxy_ignores_parameter_order
  (hmac_sha256_hex : string -> string -> string) (secret : string)
  (query query' : props) :
  NoDup (map fst query) ->
  Permutation query query' ->
  Auth.verifyShopifyProxy hmac_sha256_hex secret query
  = Auth.verifyShopifyProxy hmac_sha256_hex secret query'.
Proof.
  intros Hnd Hp. unfold Auth.verifyShopifyProxy. cbv zeta.
  set (f := fun p : string * value => negb (String.eqb (fst p) "signature")).
  assert (Hsig : get (VObj query) "signature" = get (VObj query') "signature")
    by (cbn [get]; now rewrite (lookup_permutation _ _ _ Hp Hnd)).
  assert (Hrest : Permutation (filter f query) (filter f query'))
    by now apply filter_permutation.
  assert (Hnd1 : NoDup (map fst (filter f query)))
    by now apply filter_distinct_keys.
  assert (Hnd2 : NoDup (map fst (filter f query')))
    by (eapply Permutation_NoDup; [apply Permutation_map; exact Hrest | exact Hnd1]).
  assert (Hkeys : Auth.sort (Auth.keys (filter f query))
                  = Auth.sort (Auth.keys (filter f query'))).
  { unfold Auth.keys.
    rewrite !keys_unseen_distinct by (assumption || (intros ? ? [])).
    apply sort_permutation. now apply Permutation_map. }
  rewrite <- Hsig, <- Hkeys.
  destruct (negb (truthy _)); [reflexivity|].
  do 3 f_equal. f_equal.
  apply map_ext. intros key. cbn [get].
  now rewrite (lookup_permutation key _ _ Hrest Hnd1).
Qed.

Lemma verifyShopifyProxy_ignores_parameter_order_witness :
  Auth.verifyShopifyProxy sample_hmac "key" reordered_query
  = Auth.verifyShopifyProxy sample_hmac "key" signed_query
  /\ Auth.verifyShopifyProxy sample_hmac "key" signed_query = true.
Proof.
  split; [|reflexivity].
  apply (verifyShopifyProxy_ignores_parameter_order
           sample_hmac "key" reordered_query signed_query).
  - repeat constructor; cbn [In map fst]; intuition discriminate.
  - apply (Permutation_cons_append
             [("customer_id", VStr "42"); ("action", VStr "list")]
             ("signature", VStr "keyaction=listcustomer_id=42")).
Defined.

(** ** The round operations and the round numbers *)

Lemma Forall2_map_in {A} (R : A -> A -> Prop) (f : A -> A) (l : list A) :
  (forall x, In x l -> R x (f x)) -> Forall2 R l (map f l).
Proof.
  induction l as [|x l IH]; intros H; cbn [map]; constructor.
  - apply H. now left.
  - apply IH. intros y Hy. apply H. now right.
Qed.

Lemma reads_only_at {A} (rs : list value) (Q : A -> Prop) (m : M A) :
  reads_only Q m -> reads_at rs Q m.
Proof. intros H d <-. apply H. Qed.

Section NumberRelation.
Variable rel : list value -> list value -> Prop.
Hypothesis rel_refl : forall l, rel l l.

Lemma numbers_related_refl (rs : list value) : numbers_related rel rs rs.
Proof.
  unfold numbers_related. rewrite <- (map_id rs) at 2.
  apply Forall2_map_same. intros x. apply rel_refl.
Qed.

Lemma relates_numbers_ret (rs : list value) (v : value) :
  relates_numbers_at rel rs (ret v).
Proof. intros d <-. apply numbers_related_refl. Qed.

Lemma relates_numbers_throw (rs : list value) (e : string) :
  relates_numbers_at rel rs (throw e).
Proof. intros d <-. apply numbers_related_refl. Qed.

Lemma relates_numbers_bind {A} (rs : list value) (R : A -> Prop)
  (m : M A) (k : A -> M value) :
  reads_at rs R m -> (forall a, R a -> relates_numbers_at rel rs (k a)) ->
  relates_numbers_at rel rs (bind m k).
Proof.
  intros Hm Hk d Hd. unfold bind. destruct (Hm d Hd) as [Hrows Hres].
  destruct (m d) as [[a|e] d']; simpl in *.
  - now apply Hk.
  - rewrite Hrows. apply numbers_related_refl.
Qed.

(** The write: the row it changes is the one row that matches. *)
Lemma relates_numbers_write (rs : list value) (fields : props)
  (filters : list (string * value)) (k : reply -> M value) :
  (forall r, exists v, k r = ret v) ->
  (forall row, filter (matches filters) rs = [row] ->
               rel (numbering (get row "rounds"))
                   (numbering (get (assign fields row) "rounds"))) ->
  relates_numbers_at rel rs (bind (await (update_single fields filters)) k).
Proof.
  intros Hk Hf d Hd. unfold bind, await, update_single.
  pose proof (transport_rows d) as Hrows.
  destruct (transport d) as [up d']. simpl in Hrows.
  rewrite Hd in Hrows.
  destruct up; cbn [negb].
  - destruct (filter (matches filters) (rows d')) as [|row [|row' l]] eqn:Hfil;
      match goal with
      | |- context [k ?r] => destruct (Hk r) as [v ->]
      end; cbn [ret snd rows]; rewrite ?Hrows;
      try apply numbers_related_refl.
    rewrite Hrows in Hfil. apply Forall2_map_in. intros x Hx.
    destruct (matches filters x) eqn:Hm; [|apply rel_refl].
    assert (Hin : In x (filter (matches filters) rs))
      by (apply filter_In; now split).
    rewrite Hfil in Hin. destruct Hin as [<-|[]]. now apply Hf.
  - destruct (Hk unavailable) as [v ->]. cbn [ret snd]. rewrite Hrows.
    apply numbers_related_refl.
Qed.

Lemma Rounds_saveRounds_relates (rs : list value) (customerId id : value)
  (rounds : list value) :
  (forall row, filter (matches (owned customerId id)) rs = [row] ->
               rel (numbering (get row "rounds")) (numbering (VArr rounds))) ->
  relates_numbers_at rel rs (Rounds.saveRounds customerId id (VArr rounds)).
Proof.
  intros H. unfold Rounds.saveRounds. apply relates_numbers_write.
  - intros [data|message]; now eexists.
  - intros row Hrow.
    replace (get (assign [("rounds", VArr rounds)] row) "rounds")
      with (VArr rounds); [now apply H|].
    unfold assign. cbn [fold_left fst snd]. symmetry. apply get_put_same.
Qed.

End NumberRelation.

Lemma grows_refl (l : list value) : grows l l.
Proof. now left. Qed.

Lemma found_by_select (rs : list value) (fs : list (string * value))
  (k : reply -> M value) :
  (forall message, exists error, k (Error message) = ret (failure error)) ->
  (forall data, k (Data data) = ret (success data)) ->
  reads_at rs (found_in rs fs) (bind (await (select_single fs)) k).
Proof.
  intros Herr Hdata d Hd. unfold bind, await.
  pose proof (select_single_rows fs d) as Hrows.
  pose proof (select_single_data fs d) as Hrow.
  destruct (select_single fs d) as [[data|message] d']; simpl in *.
  - rewrite Hdata. cbn [ret fst snd]. split; [congruence|].
    right. exists data. rewrite <- Hd. split; [reflexivity|]. now apply Hrow.
  - destruct (Herr message) as [error ->]. cbn [ret fst snd].
    split; [congruence|]. left. now exists error.
Qed.

Lemma Scored_getTournamentOwned_found (rs : list value) (customerId id : value) :
  reads_at rs (found_in rs (owned customerId id))
           (Scored.getTournamentOwned customerId id).
Proof.
  unfold Scored.getTournamentOwned. apply found_by_select.
  - intros message. now eexists.
  - reflexivity.
Qed.

Lemma Rounds_getTournamentOwned_found (rs : list value) (customerId id : value) :
  reads_at rs (found_in rs (owned customerId id))
           (Rounds.getTournamentOwned customerId id).
Proof.
  unfold Rounds.getTournamentOwned.
  destruct (negb _).
  - apply reads_only_at, reads_only_ret. left. now eexists.
  - apply found_by_select.
    + intros message. now eexists.
    + reflexivity.
Qed.

Lemma set_keeps (r r' x : value) (k k' : string) :
  set r k x = Some r' -> k' <> k -> get r' k' = get r k'.
Proof.
  destruct r; cbn [set]; try discriminate; intros [= <-] Hk.
  - reflexivity.
  - now apply get_put_other.
Qed.

Lemma Scored_set_deck_keeps (r r' x : value) (k : string) :
  Scored.set_deck r k x = Some r' -> same_number r r'.
Proof.
  unfold Scored.set_deck, same_number.
  destruct (set (get r "opponent_deck") k x); [|discriminate].
  intros H. now apply (set_keeps _ _ _ _ _ H).
Qed.

Lemma Rounds_set_deck_keeps (r r' x : value) (k : string) :
  Rounds.set_deck r k x = Some r' -> same_number r r'.
Proof.
  unfold Rounds.set_deck, same_number.
  destruct (set (get r "opponent_deck") k x); [|discriminate].
  intros H. now apply (set_keeps _ _ _ _ _ H).
Qed.

Lemma Scored_set_first_result_keeps (r r' x : value) :
  Scored.set_first_result r x = Some r' -> same_number r r'.
Proof.
  unfold Scored.set_first_result, same_number. cbv zeta.
  destruct (nullish _); [discriminate|].
  destruct (set (Scored.first_game _) "result" x); [|discriminate].
  destruct (get r "games"); intros H;
    try (injection H as <-; reflexivity);
    now apply (set_keeps _ _ _ _ _ H).
Qed.

Lemma set_nth_keeps (k : string) (r' : value) (xs : list value) (i : nat) :
  get r' k = get (nth i xs VUndef) k ->
  map (fun r => get r k) (set_nth i r' xs) = map (fun r => get r k) xs.
Proof.
  revert i. induction xs as [|x xs IH]; intros [|i] H; cbn [set_nth map nth] in *;
    try reflexivity.
  - now rewrite H.
  - now rewrite IH.
Qed.

Lemma stored_rounds (row stored : value) :
  get_strict row "rounds" = Some stored -> stored = get row "rounds".
Proof.
  unfold get_strict. destruct (nullish row); [discriminate|]. now intros [= <-].
Qed.

Lemma the_found_row (rs : list value) (fs : list (string * value))
  (data row : value) :
  In data rs -> matches fs data = true -> filter (matches fs) rs = [row] ->
  row = data.
Proof.
  intros Hin Hm Hf.
  assert (H : In data (filter (matches fs) rs)) by (apply filter_In; now split).
  rewrite Hf in H. now destruct H as [<-|[]].
Qed.

(** The steps of an edit: each keeps the round's number. *)
Ltac keep_number :=
  repeat first
    [ apply reads_only_ret; unfold same_number in *; congruence
    | apply reads_only_orTypeError;
      let a := fresh "a" in let Ha := fresh "Ha" in
      intros a Ha;
      first
        [ apply Scored_set_deck_keeps in Ha
        | apply Rounds_set_deck_keeps in Ha
        | apply Scored_set_first_result_keeps in Ha
        | apply (fun H => set_keeps _ _ _ _ "round_number" H) in Ha;
          [|discriminate] ];
      unfold same_number in *; congruence
    | match goal with
      | |- reads_only _ (if ?c then _ else _) => destruct c
      end ].

Lemma Rounds_edit_games_keeps (q r0 r : value) :
  same_number r0 r ->
  reads_only (edit_same_number r0) (Rounds.edit_games q r).
Proof.
  intros Hr. unfold Rounds.edit_games. cbv zeta.
  eapply reads_only_bind with (R := same_number r0); [keep_number|].
  intros round1 H1.
  repeat match goal with
         | |- reads_only _ (if ?c then _ else _) =>
             destruct c; [apply reads_only_ret; exact Logic.I|]
         end.
  do 7 (eapply reads_only_bind with (R := fun _ => True);
        [apply reads_only_orTypeError; intros; exact Logic.I | intros ? _]).
  eapply reads_only_bind with (R := same_number r0); [keep_number|].
  intros round2 H2. apply reads_only_ret. exact H2.
Qed.

Lemma Rounds_edit_round_keeps (q r : value) :
  reads_only (edit_same_number r) (Rounds.edit_round q r).
Proof.
  unfold Rounds.edit_round. cbv zeta.
  eapply reads_only_bind with (R := same_number r).
  - destruct (_ || _); [|apply reads_only_ret; reflexivity].
    eapply reads_only_bind with (R := same_number r); [keep_number|].
    intros round1 H1.
    eapply reads_only_bind with (R := same_number r); [keep_number|].
    intros round2 H2. keep_number.
  - intros round1 H1.
    destruct (Rounds.rejected _ _ _); [apply reads_only_ret; exact Logic.I|].
    eapply reads_only_bind with (R := same_number r); [keep_number|].
    intros round2 H2. now apply Rounds_edit_games_keeps.
Qed.

Lemma numbering_sanitized (rounds : value) :
  numbering (sanitizeRounds rounds) = numbering rounds.
Proof.
  unfold numbering, sanitizeRounds. cbn [elements].
  rewrite map_map. apply map_ext. intros r.
  apply sanitizeRound_keeps; [reflexivity | discriminate | discriminate].
Qed.

Lemma Scored_persistRounds_relates
  (rel : list value -> list value -> Prop) (rs : list value)
  (customerId id rounds : value) :
  (forall l, rel l l) ->
  (forall row, filter (matches (owned customerId id)) rs = [row] ->
               rel (numbering (get row "rounds")) (numbering rounds)) ->
  relates_numbers_at rel rs (Scored.persistRounds customerId id rounds).
Proof.
  intros Hrefl H. unfold Scored.persistRounds. cbv zeta.
  apply relates_numbers_write; [exact Hrefl | |].
  - intros [data|message]; now eexists.
  - intros row Hrow.
    match goal with
    | |- rel _ (numbering ?x) =>
        replace x with (sanitizeRounds rounds)
    end.
    + rewrite numbering_sanitized. now apply H.
    + unfold assign. cbn [fold_left fst snd].
      rewrite get_put_other by discriminate. symmetry. apply get_put_same.
Qed.

Lemma stored_or_none (stored : value) (rounds : list value) :
  or_else stored (VArr []) = VArr rounds -> numbering stored = numbering (VArr rounds).
Proof.
  unfold or_else. destruct (truthy stored) eqn:Htruthy.
  - now intros ->.
  - intros [= <-]. now destruct stored.
Qed.

Lemma Rounds_updateRound_keeps (rs : list value) (customerId id q : value) :
  relates_numbers_at eq rs (Rounds.updateRound customerId id q).
Proof.
  unfold Rounds.updateRound. cbv zeta.
  destruct (negb (truthy id)); [now apply relates_numbers_ret|].
  destruct (negb (truthy _)); [now apply relates_numbers_ret|].
  eapply relates_numbers_bind;
    [reflexivity | apply Rounds_getTournamentOwned_found|].
  intros got [[error ->] | [data [-> [Hin Hm]]]];
    [now apply relates_numbers_ret|].
  cbn [success get lookup String.eqb Ascii.eqb Bool.eqb truthy negb].
  eapply relates_numbers_bind
    with (R := fun stored => stored = get data "rounds"); [reflexivity | |].
  { apply reads_only_at, reads_only_orTypeError. intros a. apply stored_rounds. }
  intros stored ->.
  destruct (findIndex _ _) as [idx|]; [|now apply relates_numbers_ret].
  eapply relates_numbers_bind;
    [reflexivity | apply reads_only_at, Rounds_edit_round_keeps|].
  intros [round|answer] Hkeep; [|now apply relates_numbers_ret].
  apply Rounds_saveRounds_relates; [reflexivity|]. intros row Hrow.
  rewrite (the_found_row _ _ _ _ Hin Hm Hrow).
  unfold numbering at 2. cbn [elements].
  rewrite set_nth_keeps by exact Hkeep.
  reflexivity.
Qed.

Lemma Scored_updateRound_keeps (rs : list value) (customerId id q : value) :
  relates_numbers_at eq rs (Scored.updateRound customerId id q).
Proof.
  unfold Scored.updateRound. cbv zeta.
  destruct (negb (truthy _)); [now apply relates_numbers_ret|].
  eapply relates_numbers_bind;
    [reflexivity | apply Scored_getTournamentOwned_found|].
  intros got [[error ->] | [data [-> [Hin Hm]]]];
    [now apply relates_numbers_ret|].
  cbn [success get lookup String.eqb Ascii.eqb Bool.eqb truthy negb].
  eapply relates_numbers_bind
    with (R := fun stored => stored = get data "rounds"); [reflexivity | |].
  { apply reads_only_at, reads_only_orTypeError. intros a. apply stored_rounds. }
  intros stored ->.
  destruct (or_else (get data "rounds") (VArr [])) as [| | | | |rounds|] eqn:Hstored;
    try now apply relates_numbers_throw.
  eapply relates_numbers_bind with (R := fun _ => True); [reflexivity | |].
  { apply reads_only_at, reads_only_orTypeError; intros; exact Logic.I. }
  intros [i|] _; [|now apply relates_numbers_ret].
  set (r0 := nth i rounds VUndef).
  do 4 (eapply relates_numbers_bind with (R := same_number r0);
        [reflexivity | apply reads_only_at; keep_number | intros ? ?]).
  apply Scored_persistRounds_relates; [reflexivity|]. intros row Hrow.
  rewrite (the_found_row _ _ _ _ Hin Hm Hrow).
  rewrite (stored_or_none _ _ Hstored).
  unfold numbering. cbn [elements].
  rewrite set_nth_keeps by assumption.
  reflexivity.
Qed.

Lemma Rounds_addRound_grows (rs : list value) (customerId id : value) :
  relates_numbers_at grows rs (Rounds.addRound customerId id).
Proof.
  unfold Rounds.addRound. cbv zeta.
  eapply relates_numbers_bind;
    [exact grows_refl | apply Rounds_getTournamentOwned_found|].
  intros got [[error ->] | [data [-> [Hin Hm]]]];
    [apply relates_numbers_ret, grows_refl|].
  cbn [success get lookup String.eqb Ascii.eqb Bool.eqb truthy negb].
  eapply relates_numbers_bind
    with (R := fun stored => stored = get data "rounds"); [exact grows_refl | |].
  { apply reads_only_at, reads_only_orTypeError. intros a. apply stored_rounds. }
  intros stored ->.
  apply Rounds_saveRounds_relates; [exact grows_refl|]. intros row Hrow.
  rewrite (the_found_row _ _ _ _ Hin Hm Hrow).
  right. unfold numbering. cbn [elements]. rewrite map_app. cbn [map].
  now eexists.
Qed.

Lemma Scored_addRound_grows (rs : list value) (customerId id : value) :
  relates_numbers_at grows rs (Scored.addRound customerId id).
Proof.
  unfold Scored.addRound. cbv zeta.
  eapply relates_numbers_bind;
    [exact grows_refl | apply Scored_getTournamentOwned_found|].
  intros got [[error ->] | [data [-> [Hin Hm]]]];
    [apply relates_numbers_ret, grows_refl|].
  cbn [success get lookup String.eqb Ascii.eqb Bool.eqb truthy negb].
  eapply relates_numbers_bind
    with (R := fun stored => stored = get data "rounds"); [exact grows_refl | |].
  { apply reads_only_at, reads_only_orTypeError. intros a. apply stored_rounds. }
  intros stored ->.
  destruct (or_else (get data "rounds") (VArr [])) as [| | | | |rounds|] eqn:Hstored;
    try (apply relates_numbers_throw, grows_refl).
  apply Scored_persistRounds_relates; [exact grows_refl|]. intros row Hrow.
  rewrite (the_found_row _ _ _ _ Hin Hm Hrow).
  rewrite (stored_or_none _ _ Hstored).
  right. unfold numbering. cbn [elements]. rewrite map_app. cbn [map].
  now eexists.
Qed.

(** X17. updateRound never adds, removes, reorders or renumbers rounds:
    whatever the query and whatever is stored, every tournament has
    after the call the round numbers it had before, in the same order.
    This holds for both round-editing proxies. *)
Theorem updateRound_keeps_round_numbers (customerId id q : value) (d : db) :
  numbers_kept (rows d) (rows (snd (Scored.updateRound customerId id q d)))
  /\ numbers_kept (rows d) (rows (snd (Rounds.updateRound customerId id q d))).
Proof.
  split.
  - now apply Scored_updateRound_keeps.
  - now apply Rounds_updateRound_keeps.
Qed.

(** X18. addRound never removes, reorders or renumbers a round that is
    there: whatever is stored, every tournament has after the call the
    round numbers it had before, in the same order, with at most one
    more at the end.  This holds for both round-editing proxies. *)
Theorem addRound_keeps_existing_rounds (customerId id : value) (d : db) :
  numbers_related grows (rows d) (rows (snd (Scored.addRound customerId id d)))
  /\ numbers_related grows (rows d)
       (rows (snd (Rounds.addRound customerId id d))).
Proof.
  split.
  - now apply Scored_addRound_grows.
  - now apply Rounds_addRound_grows.
Qed.

(** ** The handlers and the tournaments of other customers *)

Section Isolation.
Variable customerId : value.

Lemma isolates_ret {A} (a : A) : isolates customerId (ret a).
Proof. intros d i row H _. exact H. Qed.

Lemma isolates_throw {A} (e : string) : isolates customerId (@throw A e).
Proof. intros d i row H _. exact H. Qed.

Lemma isolates_bind {A B} (m : M A) (k : A -> M B) :
  isolates customerId m -> (forall a, isolates customerId (k a)) ->
  isolates customerId (bind m k).
Proof.
  intros Hm Hk d i row Hrow Hother. unfold bind.
  specialize (Hm d i row Hrow Hother).
  destruct (m d) as [[a|e] d']; simpl in *; [now apply Hk | exact Hm].
Qed.

Lemma isolates_try_catch {A} (m : M A) (h : string -> M A) :
  isolates customerId m -> (forall e, isolates customerId (h e)) ->
  isolates customerId (try_catch m h).
Proof.
  intros Hm Hh d i row Hrow Hother. unfold try_catch.
  specialize (Hm d i row Hrow Hother).
  destruct (m d) as [[a|e] d']; simpl in *; [exact Hm | now apply Hh].
Qed.

Lemma isolates_read (q : db -> reply * db) :
  (forall d, rows (snd (q d)) = rows d) -> isolates customerId (await q).
Proof.
  intros Hq d i row Hrow _. unfold await. specialize (Hq d).
  destruct (q d) as [r d']. simpl in *. now rewrite Hq.
Qed.

Lemma isolates_insert (payload : props) :
  isolates customerId (await (insert_single payload)).
Proof.
  intros d i row Hrow _. unfold await.
  destruct (insert_single_cases payload d) as [[message [_ Hrows]]|[id [_ Hrows]]];
    destruct (insert_single payload d) as [r d']; simpl in *; rewrite Hrows.
  - exact Hrow.
  - rewrite nth_error_app1; [exact Hrow|].
    apply nth_error_Some. now rewrite Hrow.
Qed.

Lemma isolates_one_update (id : value) (F : props -> Prop) (m : M value) :
  one_update (owned customerId id) F m -> isolates customerId m.
Proof.
  intros H d i row Hrow Hother.
  destruct (H d) as [-> | [fields [row' [_ [_ [-> _]]]]]]; [exact Hrow|].
  rewrite nth_error_map, Hrow. cbn [option_map].
  rewrite matches_owned; [reflexivity | now left].
Qed.

End Isolation.

Ltac step_isolates :=
  unfold json;
  repeat first
    [ apply isolates_ret
    | apply isolates_throw
    | apply isolates_insert
    | apply isolates_read; first [ apply select_single_rows
                                 | apply select_ordered_rows ]
    | eapply isolates_one_update;
      first [ apply Scored_addRound_one_update
            | apply Scored_updateRound_one_update
            | apply Scored_setFinalResult_one_update
            | apply Rounds_addRound_one_update
            | apply Rounds_updateRound_one_update
            | apply Meta_updateTournament_one_update ]
    | apply isolates_bind; [|intros ?]
    | apply isolates_try_catch; [|intros ?]
    | match goal with
      | |- isolates _ (if ?c then _ else _) => destruct c
      | |- isolates _ (match ?x with _ => _ end) => destruct x
      end ].

Lemma Scored_handler_isolates
  (hmac : string -> string -> string) (secret : string) (req : request) :
  isolates (customer_of req) (Scored.handler hmac secret req).
Proof.
  unfold Scored.handler, customer_of. cbv zeta.
  unfold Scored.listTournaments, Scored.createTournament.
  step_isolates.
Qed.

(** The handlers that read the customer as [... || null]. *)
Ltac known_customer :=
  unfold customer_of; cbv zeta;
  destruct (negb (Auth.verifyShopifyProxy _ _ _)); [apply isolates_ret|];
  match goal with
  | |- context [or_else ?c VNull] =>
      let E := fresh "E" in
      destruct (truthy c) eqn:E;
      [ replace (or_else c VNull) with c by (unfold or_else; now rewrite E);
        rewrite E; cbn [negb]
      | replace (or_else c VNull) with VNull by (unfold or_else; now rewrite E);
        apply isolates_ret ]
  end.

Lemma Meta_handler_isolates
  (hmac : string -> string -> string) (secret : string) (req : request) :
  isolates (customer_of req) (Meta.handler hmac secret req).
Proof.
  unfold Meta.handler, Meta.dispatch. known_customer.
  unfold Meta.listTournaments, Meta.createTournament, Meta.getTournament,
    Meta.internal_error.
  step_isolates.
Qed.

Lemma Rounds_handler_isolates
  (hmac : string -> string -> string) (secret : string) (req : request) :
  isolates (customer_of req) (Rounds.handler hmac secret req).
Proof.
  unfold Rounds.handler, Rounds.dispatch. known_customer.
  unfold Rounds.listTournaments, Rounds.createTournament, Rounds.getTournament,
    Rounds.updateTournament, Rounds.getTournamentOwned,
    Meta.listTournaments, Meta.createTournament, Meta.internal_error.
  step_isolates.
Qed.

Lemma Early_handler_create_isolates
  (hmac : string -> string -> string) (secret : string) (req : request) :
  isolates (customer_of req) (Early.handler_create hmac secret req).
Proof.
  unfold Early.handler_create, Early.dispatch_create. known_customer.
  unfold Meta.listTournaments, Meta.createTournament, Meta.internal_error.
  step_isolates.
Qed.

Lemma Early_handler_list_isolates
  (hmac : string -> string -> string) (secret : string) (req : request) :
  isolates (customer_of req) (Early.handler_list hmac secret req).
Proof.
  unfold Early.handler_list. known_customer.
  unfold Early.listTournaments.
  step_isolates.
Qed.

Lemma Listing_handler_isolates
  (hmac : string -> string -> string) (secret : string) (req : request) :
  isolates (customer_of req) (Listing.handler hmac secret req).
Proof.
  unfold Listing.handler, customer_of. cbv zeta. step_isolates.
Qed.

(** X19. No request changes a tournament of another customer: whatever
    the action, the id and the other parameters of the request, and
    whether or not it is signed, a stored tournament whose customer_id
    is not the request's logged_in_customer_id is, after any of the
    handlers has answered, where it was and as it was. *)
Theorem handlers_leave_other_customers
  (hmac : string -> string -> string) (secret : string)
  (req : request) (d : db) (i : nat) (row : value) :
  nth_error (rows d) i = Some row ->
  ToString (get row "customer_id") <> ToString (customer_of req) ->
  nth_error (rows (snd (Scored.handler hmac secret req d))) i = Some row
  /\ nth_error (rows (snd (Rounds.handler hmac secret req d))) i = Some row
  /\ nth_error (rows (snd (Meta.handler hmac secret req d))) i = Some row
  /\ nth_error (rows (snd (Early.handler_create hmac secret req d))) i
     = Some row
  /\ nth_error (rows (snd (Early.handler_list hmac secret req d))) i = Some row
  /\ nth_error (rows (snd (Listing.handler hmac secret req d))) i = Some row.
Proof.
  intros Hrow Hother. repeat split.
  - now apply Scored_handler_isolates.
  - now apply Rounds_handler_isolates.
  - now apply Meta_handler_isolates.
  - now apply Early_handler_create_isolates.
  - now apply Early_handler_list_isolates.
  - now apply Listing_handler_isolates.
Qed.

Lemma handlers_leave_other_customers_witness :
  Auth.verifyShopifyProxy sample_hmac "key" (query intruding_request) = true
  /\ nth_error (rows two_customers) 1
     = nth_error
         (rows (snd (Scored.handler sample_hmac "key" intruding_request
                                    two_customers))) 1.
Proof.
  split; [reflexivity|].
  destruct (nth_error (rows two_customers) 1) as [row|] eqn:Hrow;
    [|discriminate Hrow].
  symmetry.
  refine (proj1 (handlers_leave_other_customers
                   sample_hmac "key" intruding_request two_customers 1 row
                   Hrow _)).
  injection Hrow as <-. discriminate.
Defined.

(** ** [addRound], call after call *)

Lemma num_succ_finite (x : number) :
  isFinite x = true -> isFinite (num_succ x) = true.
Proof.
  destruct x as [| |m e]; try discriminate. intros _.
  unfold num_succ. now destruct (0 <=? e).
Qed.

Lemma num_plus_finite (x : number) (i : nat) :
  isFinite x = true -> isFinite (num_plus x i) = true.
Proof.
  intros Hx. induction i as [|i IH]; [exact Hx|].
  unfold num_plus in *. cbn [Nat.iter]. now apply num_succ_finite.
Qed.

Lemma num_lt_leb (x y : number) :
  isFinite x = true -> isFinite y = true -> num_lt x y -> num_leb x y = true.
Proof. intros Hx Hy H. now apply num_leb_total. Qed.

Lemma num_plus_lt (x : number) (i j : nat) :
  isFinite x = true -> (i < j)%nat -> num_lt (num_plus x i) (num_plus x j).
Proof.
  intros Hx. induction j as [|j IH]; intros Hij; [lia|].
  change (num_plus x (S j)) with (num_succ (num_plus x j)).
  apply num_succ_above; try now apply num_plus_finite.
  destruct (Nat.eq_dec i j) as [->|Hne].
  - apply num_leb_refl. now apply num_plus_finite.
  - apply num_lt_leb; try now apply num_plus_finite.
    apply IH. lia.
Qed.

Lemma max_step_next (x : number) :
  isFinite x = true ->
  Rounds.max_step x (new_round (VNum (num_succ x))) = num_succ x.
Proof.
  intros Hx. unfold Rounds.max_step.
  change (ToNumber (get (new_round (VNum (num_succ x))) "round_number"))
    with (num_succ x).
  rewrite (num_succ_finite x Hx).
  assert (Hle : num_leb x (num_succ x) = true).
  { apply num_lt_leb; [exact Hx | now apply num_succ_finite |].
    apply num_succ_above; [exact Hx | exact Hx | now apply num_leb_refl]. }
  pose proof (num_succ_finite x Hx) as Hs.
  destruct x as [| |m e]; try discriminate.
  destruct (num_succ (Fin m e)) as [| |m' e'] eqn:E; try discriminate.
  unfold Math_max. now rewrite Hle.
Qed.

Lemma rounds_after_next (top : number) (k : nat) :
  rounds_after top (S k)
  = (rounds_after top k ++ [new_round (VNum (num_plus top (S k)))])%list.
Proof. unfold rounds_after. now rewrite seq_S, map_app. Qed.

Lemma maxRound_after (rounds : list value) (k : nat) :
  Rounds.maxRound (rounds ++ rounds_after (Rounds.maxRound rounds) k)
  = num_plus (Rounds.maxRound rounds) k.
Proof.
  assert (Htop : isFinite (Rounds.maxRound rounds) = true)
    by apply (maxRound_from rounds (Fin 0 0) eq_refl).
  induction k as [|k IH].
  - unfold rounds_after. cbn [seq map]. now rewrite app_nil_r.
  - rewrite rounds_after_next, app_assoc.
    unfold Rounds.maxRound in *. rewrite fold_left_app, IH.
    cbn [fold_left]. apply max_step_next. now apply num_plus_finite.
Qed.

Lemma matches_owned_assign (customerId id v r : value) :
  matches (owned customerId id) (assign [("rounds", v)] r)
  = matches (owned customerId id) r.
Proof.
  unfold matches, owned, eq_filter. cbn [forallb fst snd].
  now rewrite !get_assign_other by reflexivity.
Qed.

Lemma filter_updated_rounds (customerId id v : value) (rs : list value) :
  filter (matches (owned customerId id))
         (updated [("rounds", v)] (owned customerId id) rs)
  = map (assign [("rounds", v)]) (filter (matches (owned customerId id)) rs).
Proof.
  unfold updated. induction rs as [|r rs IH]; cbn [map filter]; [reflexivity|].
  destruct (matches (owned customerId id) r) eqn:Hm.
  - rewrite matches_owned_assign, Hm. cbn [map]. now rewrite IH.
  - now rewrite Hm.
Qed.

Lemma get_assign_rounds (v row : value) :
  get (assign [("rounds", v)] row) "rounds" = v.
Proof. unfold assign. cbn [fold_left fst snd]. apply get_put_same. Qed.

(** The table after [k] calls. *)
Lemma addRound_times_run
  (k : nat) (customerId id row : value) (rounds : list value) (d : db) :
  outages d = [] -> truthy id = true ->
  filter (matches (owned customerId id)) (rows d) = [row] ->
  get row "rounds" = VArr rounds ->
  exists row',
    outages (addRound_times k customerId id d) = []
    /\ filter (matches (owned customerId id))
              (rows (addRound_times k customerId id d)) = [row']
    /\ get row' "rounds"
       = VArr (rounds ++ rounds_after (Rounds.maxRound rounds) k).
Proof.
  intros Hup Hid Hrow Hrounds. induction k as [|k IH].
  - exists row. unfold rounds_after. cbn [seq map].
    rewrite app_nil_r. auto.
  - destruct IH as [row' [Hup' [Hrow' Hrounds']]].
    unfold addRound_times in *. rewrite Nat.iter_succ.
    pose proof (Rounds_addRound_run _ _ row' _ _ Hup' Hid Hrow' Hrounds')
      as Hrun.
    cbv zeta in Hrun. rewrite Hrun. cbn [snd rows outages].
    eexists. split; [reflexivity|].
    rewrite filter_updated_rounds, Hrow'. cbn [map].
    split; [reflexivity|].
    rewrite get_assign_rounds. unfold Rounds.newRoundNumber.
    rewrite maxRound_after, rounds_after_next, app_assoc. reflexivity.
Qed.

(** X24.  Repeated calls of the round-editing proxy's [addRound] yield
    strictly increasing, unique round numbers: on a stored tournament
    whose round numbers are integers on which doubles stay exact for [k]
    additions, [k] calls leave the tournament with its rounds followed by
    [k] new ones numbered top + 1, ..., top + k, where top is the largest
    number that was in use (0 when there is none); each of these numbers
    is greater than every number that was in use and than the numbers of
    the calls before. *)
Theorem Rounds_addRound_numbers_increase
  (k : nat) (customerId id row : value) (rounds : list value) (d : db) :
  outages d = [] -> truthy id = true ->
  filter (matches (owned customerId id)) (rows d) = [row] ->
  get row "rounds" = VArr rounds ->
  safe_numbers (Z.of_nat k) rounds ->
  let top := Rounds.maxRound rounds in
  (exists row',
      filter (matches (owned customerId id))
             (rows (addRound_times k customerId id d)) = [row']
      /\ get row' "rounds" = VArr (rounds ++ rounds_after top k))
  /\ (forall n i, In n (round_numbers rounds) -> (1 <= i)%nat ->
                  num_lt n (num_plus top i))
  /\ (forall i j, (i < j)%nat -> num_lt (num_plus top i) (num_plus top j)).
Proof.
  intros Hup Hid Hrow Hrounds _ top.
  destruct (maxRound_from rounds (Fin 0 0) eq_refl) as [Hf [_ [Hle _]]].
  fold (Rounds.maxRound rounds) in Hf, Hle. fold top in Hf, Hle.
  split; [|split].
  - destruct (addRound_times_run k _ _ row _ _ Hup Hid Hrow Hrounds)
      as [row' [_ [Hrow' Hrounds']]].
    now exists row'.
  - intros n [|i] Hn Hi; [lia|].
    change (num_plus top (S i)) with (num_succ (num_plus top i)).
    assert (Hfn : isFinite n = true)
      by (unfold round_numbers in Hn; apply filter_In in Hn; tauto).
    apply num_succ_above; [exact Hfn | now apply num_plus_finite |].
    apply (num_leb_trans n top); auto using num_plus_finite.
    destruct i as [|i]; [now apply num_leb_refl|].
    apply num_lt_leb; auto using num_plus_finite.
    apply (num_plus_lt top 0 (S i) Hf). lia.
  - intros i j Hij. now apply num_plus_lt.
Qed.

(** Rounds 4 and 5 after rounds 1 and 3. *)
Lemma Rounds_addRound_numbers_increase_witness :
  exists row',
    filter (matches (owned (VStr "42") (VStr "1")))
           (rows (addRound_times 2 (VStr "42") (VStr "1") gapped_tournament))
    = [row']
    /\ map (fun r => get r "round_number") (elements (get row' "rounds"))
       = [VInt 1; VInt 3; VInt 4; VInt 5].
Proof.
  destruct (Rounds_addRound_numbers_increase
              2 (VStr "42") (VStr "1")
              (nth 0 (rows gapped_tournament) VUndef)
              gapped_rounds gapped_tournament
              eq_refl eq_refl eq_refl eq_refl)
    as [[row' [Hrow' Hrounds']] _].
  - intros n [<-|[<-|[]]]; repeat split.
  - exists row'. split; [exact Hrow'|]. now rewrite Hrounds'.
Defined.
